(** * NavMesh: a shallow embedding of [src/graph/navmesh/NavMesh.js]

    The navigation mesh works on a web of half-edge and polygon objects that
    reference each other ([next], [prev], [twin], [polygon], [edge]).  The
    objects live in a store addressed by handles; a JavaScript reference is an
    optional handle ([None] is [null]/[undefined]), and every method is a
    function on stores returning either a value or the exception it raises.
    Loops that follow [edge.next] until they are back at [polygon.edge] take a
    fuel argument; running out of fuel stands for a loop that does not end. *)

From stdpp Require Import base option list gmap.
From Stdlib Require Import ZArith QArith Lia.
Close Scope Q_scope.

(** ** The collaborators of the mesh: vectors and numbers

    [Vector3], [LineSegment] and the number type are not part of the mesh
    code.  Their operations are kept abstract; [equals] is the component-wise
    comparison of two vectors, [leftOn] the orientation test a polygon uses
    for its convexity and containment tests. *)

Class Geometry := {
  Num : Type;
  Vector3 : Type;
  infinity : Num;
  num_zero : Num;
  num_one : Num;
  num_lt : Num → Num → bool;
  num_le : Num → Num → bool;
  num_add : Num → Num → Num;
  num_mul : Num → Num → Num;
  epsilon_default : Num;
  equals : Vector3 → Vector3 → bool;
  squaredDistanceTo : Vector3 → Vector3 → Num;
  distanceTo : Vector3 → Vector3 → Num;
  subVectors : Vector3 → Vector3 → Vector3;
  addVectors : Vector3 → Vector3 → Vector3;
  normalize : Vector3 → Vector3;
  vec_length : Vector3 → Num;
  divideScalar : Vector3 → Num → Vector3;
  multiplyScalar : Vector3 → Num → Vector3;
  dot : Vector3 → Vector3 → Num;
  closestPointToPointParameter : Vector3 * Vector3 → Vector3 → Num;
  segment_at : Vector3 * Vector3 → Num → Vector3;
  leftOn : Vector3 → Vector3 → Vector3 → bool;
  mean : list Vector3 → Vector3
}.

(** ** Exceptions and results *)

Inductive error :=
  | TypeError      (* a property of null or undefined was read or written *)
  | Dangling       (* a handle without an object: no such store in JavaScript *)
  | OutOfFuel      (* the loop did not come back to its first edge *)
  | NotFound       (* the graph has no node of that index *)
  | DuplicateNode  (* a node of that index is in the graph already *)
  | NoCurrentRegion. (* the Error thrown by clampMovement *)

Inductive result (A : Type) :=
  | Ok (a : A)
  | Err (e : error).
Arguments Ok {A} a.
Arguments Err {A} e.

#[global] Instance result_ret : MRet result := λ A a, Ok a.
#[global] Instance result_bind : MBind result := λ A B f m,
  match m with Ok a => f a | Err e => Err e end.

Lemma bind_Ok {A B} (m : result A) (f : A → result B) (b : B) :
  m ≫= f = Ok b ↔ ∃ a, m = Ok a ∧ f a = Ok b.
Proof.
  destruct m as [a|e]; simpl; split.
  - intros H. exists a. done.
  - intros (a' & [= <-] & H). done.
  - discriminate.
  - intros (a' & [=] & _).
Qed.

(** Destructs the binds of a hypothesis [m ≫= f = Ok b]. *)
Ltac inv_bind H :=
  repeat match type of H with
  | (?m ≫= ?f) = Ok ?b =>
      let a := fresh "a" in
      let Ha := fresh "E" in
      apply bind_Ok in H; destruct H as (a & Ha & H)
  end.

Definition ref := nat.   (* handle of a half-edge *)
Definition pref := nat.  (* handle of a polygon *)
Definition Idx := option Z. (* a node index; [None] is null/undefined *)

Section NavMeshModel.

Context {G : Geometry}.

(** ** Objects *)

Record HalfEdge := mkHalfEdge {
  vertex : Vector3;
  next : option ref;
  prev : option ref;
  twin : option ref;
  polygon : option pref;
  nodeIndex : Idx
}.

Record Polygon := mkPolygon {
  edge : option ref;
  centroid : Vector3
}.

Record Heap := mkHeap {
  hedges : gmap ref HalfEdge;
  hpolys : gmap pref Polygon
}.

Record NavNode := mkNavNode { index : Idx; position : Vector3 }.
Record NavEdge := mkNavEdge { from : Idx; to : Idx; cost : Num }.

(** Modelled from the spec: the [Graph] container of [core/Graph.js], which is
    not among the sources.  A mapping from node index to node object kept in
    insertion order, plus the directed edges; in [digraph] mode an edge is not
    mirrored. *)
Record Graph := mkGraph {
  digraph : bool;
  nodes : list NavNode;
  edges : list NavEdge
}.

Record NavMesh := mkNavMesh {
  graph : Graph;
  regions : list pref  (* a Set: insertion order, no duplicates *)
}.

(** ** Reading and writing properties *)

Definition deref (h : Heap) (o : option ref) : result HalfEdge :=
  match o with
  | None => Err TypeError
  | Some r => match hedges h !! r with Some e => Ok e | None => Err Dangling end
  end.

Definition rd {A} (f : HalfEdge → A) (h : Heap) (o : option ref) : result A :=
  e ← deref h o; Ok (f e).

Definition wr (upd : HalfEdge → HalfEdge) (h : Heap) (o : option ref) : result Heap :=
  e ← deref h o;
  match o with
  | Some r => Ok (mkHeap (<[r := upd e]> (hedges h)) (hpolys h))
  | None => Err TypeError
  end.

Definition set_next (v : option ref) (e : HalfEdge) : HalfEdge :=
  mkHalfEdge (vertex e) v (prev e) (twin e) (polygon e) (nodeIndex e).
Definition set_prev (v : option ref) (e : HalfEdge) : HalfEdge :=
  mkHalfEdge (vertex e) (next e) v (twin e) (polygon e) (nodeIndex e).
Definition set_twin (v : option ref) (e : HalfEdge) : HalfEdge :=
  mkHalfEdge (vertex e) (next e) (prev e) v (polygon e) (nodeIndex e).
Definition set_polygon (v : option pref) (e : HalfEdge) : HalfEdge :=
  mkHalfEdge (vertex e) (next e) (prev e) (twin e) v (nodeIndex e).
Definition set_nodeIndex (v : Idx) (e : HalfEdge) : HalfEdge :=
  mkHalfEdge (vertex e) (next e) (prev e) (twin e) (polygon e) v.

Definition derefPoly (h : Heap) (o : option pref) : result Polygon :=
  match o with
  | None => Err TypeError
  | Some r => match hpolys h !! r with Some p => Ok p | None => Err Dangling end
  end.

Definition rdPoly {A} (f : Polygon → A) (h : Heap) (o : option pref) : result A :=
  p ← derefPoly h o; Ok (f p).

Definition wrPoly (upd : Polygon → Polygon) (h : Heap) (o : option pref) : result Heap :=
  p ← derefPoly h o;
  match o with
  | Some r => Ok (mkHeap (hedges h) (<[r := upd p]> (hpolys h)))
  | None => Err TypeError
  end.

Definition set_edge (v : option ref) (p : Polygon) : Polygon := mkPolygon v (centroid p).
Definition set_centroid (v : Vector3) (p : Polygon) : Polygon := mkPolygon (edge p) v.

(** [edge.from()] is the vertex of the edge, [edge.to()] the vertex of its
    successor. *)
Definition edge_from (h : Heap) (o : option ref) : result Vector3 := rd vertex h o.
Definition edge_to (h : Heap) (o : option ref) : result Vector3 :=
  n ← rd next h o; rd vertex h n.

(** [do { body } while ( edge !== polygon.edge )], the loop every method uses
    to go round a polygon: [body] runs on the current edge, the edge moves to
    its [next], and the loop ends when that is [polygon.edge] again.  The state
    [S] of the loop holds whatever the body changes; [heapOf] finds the store
    in it. *)
Fixpoint doWhile {S : Type} (heapOf : S → Heap) (fuel : nat) (P : option pref)
    (body : option ref → S → result S) (e : option ref) (s : S) : result S :=
  match fuel with
  | O => Err OutOfFuel
  | S k =>
      s1 ← body e s;
      e' ← rd next (heapOf s1) e;
      start ← rdPoly edge (heapOf s1) P;
      if decide (e' = start) then Ok s1 else doWhile heapOf k P body e' s1
  end.

(** ** The graph container

    Modelled from the spec: [hasNode], [getNode] (a node or the error
    NotFound), [addNode] (a duplicate index is an error), [hasEdge],
    [addEdge] (mirrored unless the graph is a digraph) and [clear]. *)

Definition hasNode (g : Graph) (i : Idx) : bool :=
  existsb (λ n, bool_decide (index n = i)) (nodes g).

Definition getNode (g : Graph) (i : Idx) : result NavNode :=
  match find (λ n, bool_decide (index n = i)) (nodes g) with
  | Some n => Ok n
  | None => Err NotFound
  end.

Definition addNode (g : Graph) (n : NavNode) : result Graph :=
  if hasNode g (index n) then Err DuplicateNode
  else Ok (mkGraph (digraph g) (nodes g ++ [n]) (edges g)).

Definition hasEdge (g : Graph) (f t : Idx) : bool :=
  existsb (λ e, bool_decide (from e = f) && bool_decide (to e = t)) (edges g).

Definition addEdge (g : Graph) (e : NavEdge) : Graph :=
  if digraph g then mkGraph (digraph g) (nodes g) (edges g ++ [e])
  else mkGraph (digraph g) (nodes g) (edges g ++ [e; mkNavEdge (to e) (from e) (cost e)]).

Definition graph_clear (g : Graph) : Graph := mkGraph (digraph g) [] [].

(** ** Polygon methods used by the builder

    Modelled from the spec: [Polygon.convex()], which is not among the
    sources.  The polygon's own test must hold for every edge triple of the
    cycle: it goes round the cycle from [polygon.edge] and answers false at
    the first triple [from, to, next.to] that fails [leftOn]. *)
Fixpoint convex_loop (fuel : nat) (h : Heap) (P : option pref) (e : option ref) : result bool :=
  match fuel with
  | O => Err OutOfFuel
  | S k =>
      v1 ← edge_from h e;
      v2 ← edge_to h e;
      n ← rd next h e;
      v3 ← edge_to h n;
      if negb (leftOn v1 v2 v3) then Ok false else
      start ← rdPoly edge h P;
      if decide (n = start) then Ok true else convex_loop k h P n
  end.

Definition convex (fuel : nat) (h : Heap) (P : option pref) : result bool :=
  e ← rdPoly edge h P;
  convex_loop fuel h P e.

(** Modelled from the spec: [Polygon.computeCentroid()], which is not among
    the sources; the centroid is the mean of the vertex positions. *)
Definition computeCentroid (fuel : nat) (h : Heap) (P : option pref) : result Heap :=
  e ← rdPoly edge h P;
  vs ← doWhile (λ _, h) fuel P (λ e vs, v ← rd vertex h e; Ok (vs ++ [v])) e [];
  wrPoly (set_centroid (mean vs)) h P.

(** Modelled from the spec: [HalfEdge.squaredLength()], the squared distance
    between the two ends of the edge. *)
Definition squaredLength (h : Heap) (e : option ref) : result Num :=
  f ← edge_from h e;
  t ← edge_to h e;
  Ok (squaredDistanceTo f t).

(** ** Building the mesh *)

Fixpoint foldM {A S : Type} (f : A → S → result S) (l : list A) (s : S) : result S :=
  match l with
  | [] => Ok s
  | x :: rest => s1 ← f x s; foldM f rest s1
  end.

(** An entry of [sortedEdgeList]. *)
Record Entry := mkEntry { entry_cost : Num; entry_edge : option ref }.

(** [function descending( a, b )] *)
Definition descending (a b : Entry) : Z :=
  if num_lt (entry_cost a) (entry_cost b) then 1
  else if num_lt (entry_cost b) (entry_cost a) then -1
  else 0.

(** [Array.prototype.sort] is stable: an element goes in front of the first
    one it must precede. *)
Fixpoint sort_insert (cmp : Entry → Entry → Z) (x : Entry) (l : list Entry) : list Entry :=
  match l with
  | [] => [x]
  | y :: rest => if (cmp x y <=? 0)%Z then x :: y :: rest else y :: sort_insert cmp x rest
  end.

Definition sort (cmp : Entry → Entry → Z) (l : list Entry) : list Entry :=
  foldr (sort_insert cmp) [] l.

(** [regions.add] and [regions.delete] of a Set kept in insertion order. *)
Definition set_add (r : pref) (rs : list pref) : list pref :=
  if decide (r ∈ rs) then rs else rs ++ [r].

Definition set_delete (o : option pref) (rs : list pref) : list pref :=
  match o with
  | Some r => filter (λ x, x ≠ r) rs
  | None => rs
  end.

(** The first loop of [fromPolygons]: all edges of a polygon go to
    [initialEdgeList], the polygon to the regions. *)
Definition collectEdges (fuel : nat) (h : Heap) (poly : pref)
    (s : list (option ref) * list pref) : result (list (option ref) * list pref) :=
  e ← rdPoly edge h (Some poly);
  l ← doWhile (λ _, h) fuel (Some poly) (λ e l, Ok (l ++ [e])) e (fst s);
  Ok (l, set_add poly (snd s)).

(** The inner loop of the twin search: the first [edge1] of the list that
    runs from the end of [edge0] to its start. *)
Fixpoint findTwin (h : Heap) (edge0 : option ref) (l : list (option ref))
    : result (option (option ref)) :=
  match l with
  | [] => Ok None
  | edge1 :: rest =>
      f0 ← edge_from h edge0;
      t1 ← edge_to h edge1;
      if equals f0 t1 then
        t0 ← edge_to h edge0;
        f1 ← edge_from h edge1;
        if equals t0 f1 then Ok (Some edge1) else findTwin h edge0 rest
      else findTwin h edge0 rest
  end.

Definition linkTwin (initialEdgeList : list (option ref)) (edge0 : option ref)
    (s : Heap * list Entry) : result (Heap * list Entry) :=
  let '(h, sortedEdgeList) := s in
  tw ← rd twin h edge0;
  if decide (tw ≠ None) then Ok s else
  m ← findTwin h edge0 initialEdgeList;
  match m with
  | None => Ok s
  | Some edge1 =>
      h1 ← wr (set_twin edge1) h edge0;
      h2 ← wr (set_twin edge0) h1 edge1;
      c ← squaredLength h2 edge0;
      Ok (h2, sortedEdgeList ++ [mkEntry c edge0])
  end.

(** [_buildRegions]: the four assignments that splice the cycle of the
    candidate's polygon with the cycle of its twin's polygon. *)
Definition splice (h : Heap) (candidate : option ref) : result Heap :=
  (* candidate.prev.next = candidate.twin.next *)
  a ← rd prev h candidate;
  t ← rd twin h candidate;
  v ← rd next h t;
  h1 ← wr (set_next v) h a;
  (* candidate.next.prev = candidate.twin.prev *)
  a ← rd next h1 candidate;
  t ← rd twin h1 candidate;
  v ← rd prev h1 t;
  h2 ← wr (set_prev v) h1 a;
  (* candidate.twin.prev.next = candidate.next *)
  t ← rd twin h2 candidate;
  a ← rd prev h2 t;
  v ← rd next h2 candidate;
  h3 ← wr (set_next v) h2 a;
  (* candidate.twin.next.prev = candidate.prev *)
  t ← rd twin h3 candidate;
  a ← rd next h3 t;
  v ← rd prev h3 candidate;
  wr (set_prev v) h3 a.

Record Cache := mkCache {
  cache_prev : option ref;
  cache_next : option ref;
  cache_prevTwin : option ref;
  cache_nextTwin : option ref
}.

Definition readCache (h : Heap) (candidate : option ref) : result Cache :=
  p ← rd prev h candidate;
  n ← rd next h candidate;
  t ← rd twin h candidate;
  tp ← rd prev h t;
  t' ← rd twin h candidate;
  tn ← rd next h t';
  Ok (mkCache p n tp tn).

(** The [else] branch of the convexity test: restore. *)
Definition restore (h : Heap) (cache : Cache) (candidate : option ref)
    (poly : option pref) : result Heap :=
  h1 ← wr (set_next candidate) h (cache_prev cache);
  h2 ← wr (set_prev candidate) h1 (cache_next cache);
  t ← rd twin h2 candidate;
  h3 ← wr (set_next t) h2 (cache_prevTwin cache);
  t' ← rd twin h3 candidate;
  h4 ← wr (set_prev t') h3 (cache_nextTwin cache);
  wrPoly (set_edge candidate) h4 poly.

(** The [then] branch: every edge of the new cycle refers to the polygon, and
    the polygon of the twin leaves the regions. *)
Definition commit (fuel : nat) (h : Heap) (rs : list pref) (candidate : option ref)
    (poly : option pref) : result (Heap * list pref) :=
  e ← rdPoly edge h poly;
  h1 ← doWhile id fuel poly (λ e h, wr (set_polygon poly) h e) e h;
  t ← rd twin h1 candidate;
  tp ← rd polygon h1 t;
  Ok (h1, set_delete tp rs).

(** The candidate's polygon stands for both polygons: the cycles are spliced
    and [polygon.edge] moves to [candidate.prev], an edge that stays in the
    cycle. *)
Definition trial (h : Heap) (candidate : option ref) : result (Heap * option pref) :=
  h1 ← splice h candidate;
  poly ← rd polygon h1 candidate;
  p ← rd prev h1 candidate;
  h2 ← wrPoly (set_edge p) h1 poly;
  Ok (h2, poly).

(** One round of the loop of [_buildRegions]. *)
Definition mergeCandidate (fuel : nat) (entry : Entry) (s : Heap * list pref)
    : result (Heap * list pref) :=
  let '(h, rs) := s in
  let candidate := entry_edge entry in
  cache ← readCache h candidate;
  '(h2, poly) ← trial h candidate;
  b ← convex fuel h2 poly;
  if b : bool then commit fuel h2 rs candidate poly
  else
    h3 ← restore h2 cache candidate poly;
    Ok (h3, rs).

Definition _buildRegions (fuel : nat) (edgeList : list Entry) (h : Heap) (rs : list pref)
    : result (Heap * list pref) :=
  '(h1, rs1) ← foldM (mergeCandidate fuel) edgeList (h, rs);
  h2 ← foldM (λ region h, computeCentroid fuel h (Some region)) rs1 h1;
  Ok (h2, rs1).

(** [_buildNodeIndices]: [indicesMap] is a Map from index to position, kept
    in insertion order. *)
Fixpoint lookupPosition (indicesMap : list (Z * Vector3)) (position : Vector3) : Z :=
  match indicesMap with
  | [] => -1
  | (ix, pos) :: rest =>
      if equals position pos then ix else lookupPosition rest position
  end.

Fixpoint map_set (k : Z) (v : Vector3) (m : list (Z * Vector3)) : list (Z * Vector3) :=
  match m with
  | [] => [(k, v)]
  | (k', v') :: rest => if decide (k' = k) then (k, v) :: rest else (k', v') :: map_set k v rest
  end.

Definition NodeIndexState : Type := Heap * list (Z * Vector3) * Z.

Definition nodeIndices_body (e : option ref) (s : NodeIndexState) : result NodeIndexState :=
  let '(h, indicesMap, nextNodeIndex) := s in
  tw ← rd twin h e;
  if decide (tw ≠ None) then
    position ← edge_from h e;
    let found := lookupPosition indicesMap position in
    let '(nodeIndex_, indicesMap1, nextNodeIndex1) :=
      if decide (found = (-1)%Z)
      then (nextNodeIndex, map_set nextNodeIndex position indicesMap, (nextNodeIndex + 1)%Z)
      else (found, indicesMap, nextNodeIndex) in
    h1 ← wr (set_nodeIndex (Some nodeIndex_)) h e;
    t ← rd twin h1 e;
    n ← rd next h1 t;
    h2 ← wr (set_nodeIndex (Some nodeIndex_)) h1 n;
    Ok (h2, indicesMap1, nextNodeIndex1)
  else Ok s.

Definition nodeIndices_region (fuel : nat) (region : pref) (s : NodeIndexState)
    : result NodeIndexState :=
  e ← rdPoly edge (s.1.1) (Some region);
  doWhile (λ s : NodeIndexState, s.1.1) fuel (Some region) nodeIndices_body e s.

Definition _buildNodeIndices (fuel : nat) (h : Heap) (rs : list pref) : result Heap :=
  s ← foldM (nodeIndices_region fuel) rs (h, [], 0%Z);
  Ok (s.1.1).

(** [_buildGraph]: the first loop gathers the node indices of a region and
    adds the nodes, the second adds the edges. *)
Definition gatherIndices_body (h : Heap) (e : option ref) (s : Graph * list Idx)
    : result (Graph * list Idx) :=
  let '(g, nodeIndices) := s in
  tw ← rd twin h e;
  if decide (tw ≠ None) then
    i ← rd nodeIndex h e;
    t ← rd twin h e;
    j ← rd nodeIndex h t;
    let nodeIndices1 := nodeIndices ++ [i; j] in
    i' ← rd nodeIndex h e;
    if negb (hasNode g i') then
      i'' ← rd nodeIndex h e;
      f ← edge_from h e;
      g1 ← addNode g (mkNavNode i'' f);
      Ok (g1, nodeIndices1)
    else Ok (g, nodeIndices1)
  else Ok s.

Definition gatherIndices (fuel : nat) (h : Heap) (region : pref)
    (s : Graph * list (list Idx)) : result (Graph * list (list Idx)) :=
  let '(g, nodeIndicesPerRegion) := s in
  e ← rdPoly edge h (Some region);
  '(g1, nodeIndices) ← doWhile (λ _, h) fuel (Some region) (gatherIndices_body h) e (g, []);
  Ok (g1, nodeIndicesPerRegion ++ [nodeIndices]).

Definition addNavEdge (from_ to_ : Idx) (g : Graph) : result Graph :=
  if decide (from_ ≠ to_) then
    if negb (hasEdge g from_ to_) then
      nodeFrom ← getNode g from_;
      nodeTo ← getNode g to_;
      let c := distanceTo (position nodeFrom) (position nodeTo) in
      Ok (addEdge g (mkNavEdge from_ to_ c))
    else Ok g
  else Ok g.

Definition addNavEdges (indices : list Idx) (g : Graph) : result Graph :=
  foldM (λ from_ g, foldM (λ to_ g, addNavEdge from_ to_ g) indices g) indices g.

Definition _buildGraph (fuel : nat) (h : Heap) (rs : list pref) (g : Graph) : result Graph :=
  '(g1, nodeIndicesPerRegion) ← foldM (gatherIndices fuel h) rs (g, []);
  foldM addNavEdges nodeIndicesPerRegion g1.

(** [clear()] and [fromPolygons( polygons )] *)
Definition clear (nav : NavMesh) : NavMesh := mkNavMesh (graph_clear (graph nav)) [].

(** The first half of [fromPolygons]: the list of all edges, the twin
    references and the sorted list of the twin pairs. *)
Definition setupEdges (fuel : nat) (h : Heap) (rs0 : list pref) (polygons : list pref)
    : result (Heap * list pref * list Entry) :=
  '(initialEdgeList, rs) ← foldM (collectEdges fuel h) polygons ([], rs0);
  '(h1, sortedEdgeList) ← foldM (linkTwin initialEdgeList) initialEdgeList (h, []);
  Ok (h1, rs, sort descending sortedEdgeList).

Definition fromPolygons (fuel : nat) (h : Heap) (nav : NavMesh) (polygons : list pref)
    : result (Heap * NavMesh) :=
  let nav0 := clear nav in
  '(h1, rs, sortedEdgeList) ← setupEdges fuel h (regions nav0) polygons;
  '(h2, rs1) ← _buildRegions fuel sortedEdgeList h1 rs;
  h3 ← _buildNodeIndices fuel h2 rs1;
  g ← _buildGraph fuel h3 rs1 (graph nav0);
  Ok (h3, mkNavMesh g rs1).

(** ** Queries *)

Section Queries.

(** [Polygon.contains( point, epsilon )] and the [AStar] search are not among
    the sources; the queries take them as they find them.  [contains] reads
    the polygon in the store; [astar g source target] is [None] when the
    search ends with [found] false and the route of node indices otherwise. *)
Variable contains : Heap → pref → Vector3 → option Num → result bool.
Variable astar : Graph → Idx → Idx → option (list Idx).

Definition callContains (h : Heap) (region : option pref) (point : Vector3)
    (eps : option Num) : result bool :=
  match region with
  | None => Err TypeError
  | Some r => contains h r point eps
  end.

(** [getClosestNodeIndex( point )] *)
Fixpoint getClosestNodeIndex_loop (ns : list NavNode) (point : Vector3)
    (closesNodeIndex : Idx) (minDistance : Num) : Idx :=
  match ns with
  | [] => closesNodeIndex
  | node :: rest =>
      let distance := squaredDistanceTo point (position node) in
      if num_lt distance minDistance
      then getClosestNodeIndex_loop rest point (index node) distance
      else getClosestNodeIndex_loop rest point closesNodeIndex minDistance
  end.

Definition getClosestNodeIndex (nav : NavMesh) (point : Vector3) : Idx :=
  getClosestNodeIndex_loop (nodes (graph nav)) point None infinity.

(** [getClosestNodeIndexInRegion( point, region, target )]: the body of its
    loop on one edge. *)
Definition closestNodeInRegion_body (h : Heap) (point : Vector3) (target : option Vector3)
    (e : option ref) (s : Idx * Num) : result (Idx * Num) :=
  tw ← rd twin h e;
  cond ← match tw with
         | Some _ => Ok true
         | None => p ← rd prev h e; ptw ← rd twin h p; Ok (bool_decide (ptw ≠ None))
         end;
  if cond : bool then
    f ← edge_from h e;
    distance ← match target with
               | Some tg => f' ← edge_from h e;
                            Ok (num_add (squaredDistanceTo point f) (squaredDistanceTo tg f'))
               | None => Ok (squaredDistanceTo point f)
               end;
    if num_lt distance (snd s) then
      i ← match tw with
          | Some _ => rd nodeIndex h e
          | None => p ← rd prev h e; t ← rd twin h p; rd nodeIndex h t
          end;
      Ok (i, distance)
    else Ok s
  else Ok s.

Definition getClosestNodeIndexInRegion (fuel : nat) (h : Heap) (point : Vector3)
    (region : option pref) (target : option Vector3) : result Idx :=
  e ← rdPoly edge h region;
  s ← doWhile (λ _, h) fuel region (closestNodeInRegion_body h point target) e (None, infinity);
  Ok (fst s).

(** [getClosestRegion( point )] *)
Fixpoint getClosestRegion_loop (h : Heap) (rs : list pref) (point : Vector3)
    (closesRegion : option pref) (minDistance : Num) : result (option pref) :=
  match rs with
  | [] => Ok closesRegion
  | region :: rest =>
      c ← rdPoly centroid h (Some region);
      let distance := squaredDistanceTo point c in
      if num_lt distance minDistance
      then getClosestRegion_loop h rest point (Some region) distance
      else getClosestRegion_loop h rest point closesRegion minDistance
  end.

Definition getClosestRegion (h : Heap) (nav : NavMesh) (point : Vector3) : result (option pref) :=
  getClosestRegion_loop h (regions nav) point None infinity.

(** [getRegionForPoint( point, epsilon = 1e-3 )] *)
Fixpoint getRegionForPoint_loop (h : Heap) (rs : list pref) (point : Vector3)
    (epsilon : Num) : result (option pref) :=
  match rs with
  | [] => Ok None
  | region :: rest =>
      b ← contains h region point (Some epsilon);
      if b : bool then Ok (Some region) else getRegionForPoint_loop h rest point epsilon
  end.

Definition getRegionForPoint (h : Heap) (nav : NavMesh) (point : Vector3)
    (epsilon : option Num) : result (option pref) :=
  getRegionForPoint_loop h (regions nav) point (default epsilon_default epsilon).

(** The smoothing loop of [findPath]: the first position of the route whose
    node does not lie in [region], if there is one. *)
Fixpoint firstOutside (h : Heap) (g : Graph) (region : option pref)
    (shortestPath : list Idx) (i : nat) : result (option nat) :=
  match shortestPath with
  | [] => Ok None
  | ix :: rest =>
      node ← getNode g ix;
      b ← callContains h region (position node) None;
      if negb b then Ok (Some i) else firstOutside h g region rest (S i)
  end.

(** [shortestPath.splice( 0, count - 1 )] after the loop above; a negative
    delete count removes nothing. *)
Definition smooth (h : Heap) (g : Graph) (region : option pref)
    (shortestPath : list Idx) : result (list Idx) :=
  o ← firstOutside h g region shortestPath 0;
  let count := default (length shortestPath) o in
  Ok (drop (count - 1) shortestPath).

Fixpoint positionsOf (g : Graph) (ixs : list Idx) : result (list Vector3) :=
  match ixs with
  | [] => Ok []
  | ix :: rest =>
      node ← getNode g ix;
      ps ← positionsOf g rest;
      Ok (position node :: ps)
  end.

(** The region [findPath] takes for a point: the one [getRegionForPoint]
    finds, and the closest one when it finds none. *)
Definition resolveRegion (h : Heap) (nav : NavMesh) (point : Vector3) : result (option pref) :=
  r ← getRegionForPoint h nav point None;
  if decide (r = None) then getClosestRegion h nav point else Ok r.

(** [findPath( from, to )] *)
Definition findPath (fuel : nat) (h : Heap) (nav : NavMesh) (from_ to_ : Vector3)
    : result (list Vector3) :=
  let g := graph nav in
  fromRegion ← getRegionForPoint h nav from_ None;
  toRegion ← getRegionForPoint h nav to_ None;
  fromRegion ← (if decide (fromRegion = None) then getClosestRegion h nav from_
                else Ok fromRegion);
  toRegion ← (if decide (toRegion = None) then getClosestRegion h nav to_
              else Ok toRegion);
  if decide (fromRegion = toRegion) then
    Ok [from_; to_]
  else
    source ← getClosestNodeIndexInRegion fuel h from_ fromRegion (Some to_);
    target ← getClosestNodeIndexInRegion fuel h to_ toRegion (Some from_);
    match astar g source target with
    | Some shortestPath =>
        sp ← smooth h g fromRegion shortestPath;
        sp ← smooth h g toRegion (reverse sp);
        ps ← positionsOf g (reverse sp);
        Ok ([from_] ++ ps ++ [to_])
    | None => Ok []
    end.

(** The vectors and the line segment the module keeps for [clampMovement]. *)
Record Scratch := mkScratch {
  closestPoint : Vector3;
  edgeDirection : Vector3;
  movementDirection : Vector3;
  newPosition : Vector3;
  lineSegment : Vector3 * Vector3
}.

Definition closestEdge_body (h : Heap) (startPosition : Vector3)
    (e : option ref) (s : option ref * Num) : result (option ref * Num) :=
  f ← edge_from h e;
  let distance := squaredDistanceTo startPosition f in
  if num_lt distance (snd s) then Ok (e, distance) else Ok s.

(** The first loop of [clampMovement]: the edge of the region whose start is
    closest to [startPosition]. *)
Definition closestEdgeOf (fuel : nat) (h : Heap) (currentRegion : option pref)
    (startPosition : Vector3) : result (option ref) :=
  e0 ← rdPoly edge h currentRegion;
  s ← doWhile (λ _, h) fuel currentRegion (closestEdge_body h startPosition) e0 (None, infinity);
  Ok (fst s).

(** The three branches that choose the segment [e] to slide along and the
    parameter [t] on it; [None] when no branch assigns them. *)
Definition chooseSegment (h : Heap) (sc : Scratch) (startPosition : Vector3)
    (closestEdge : option ref) : result (option (option ref * Num) * Scratch) :=
  tw ← rd twin h closestEdge;
  match tw with
  | Some _ =>
      p ← rd prev h closestEdge;
      ptw ← rd twin h p;
      match ptw with
      | None =>
          v1 ← rd vertex h p;
          v2 ← rd vertex h closestEdge;
          let seg := (v1, v2) in
          Ok (Some (p, closestPointToPointParameter seg startPosition),
              mkScratch (closestPoint sc) (edgeDirection sc) (movementDirection sc)
                        (newPosition sc) seg)
      | Some _ => Ok (None, sc)
      end
  | None =>
      p ← rd prev h closestEdge;
      ptw ← rd twin h p;
      match ptw with
      | Some _ =>
          v1 ← rd vertex h closestEdge;
          n ← rd next h closestEdge;
          v2 ← rd vertex h n;
          let seg := (v1, v2) in
          Ok (Some (closestEdge, closestPointToPointParameter seg startPosition),
              mkScratch (closestPoint sc) (edgeDirection sc) (movementDirection sc)
                        (newPosition sc) seg)
      | None =>
          pv ← rd vertex h p;
          cv ← rd vertex h closestEdge;
          let seg1 := (pv, cv) in
          let t1 := closestPointToPointParameter seg1 startPosition in
          let cp1 := segment_at seg1 t1 in
          let d1 := squaredDistanceTo cp1 startPosition in
          cv' ← rd vertex h closestEdge;
          n ← rd next h closestEdge;
          nv ← rd vertex h n;
          let seg2 := (cv', nv) in
          let t2 := closestPointToPointParameter seg2 startPosition in
          let cp2 := segment_at seg2 t2 in
          let d2 := squaredDistanceTo cp2 startPosition in
          let sc' := mkScratch cp2 (edgeDirection sc) (movementDirection sc)
                               (newPosition sc) seg2 in
          if num_le d1 d2 then Ok (Some (p, t1), sc') else Ok (Some (closestEdge, t2), sc')
      end
  end.

(** [clampMovement( currentRegion, startPosition, endPosition, clampPosition )].
    The vectors are passed by value; the result holds the region returned, the
    value of [clampPosition] after the call and the module's scratch objects. *)
Definition clampMovement (fuel : nat) (h : Heap) (nav : NavMesh) (sc : Scratch)
    (currentRegion : option pref) (startPosition endPosition clampPosition : Vector3)
    : result (option pref * Vector3 * Scratch) :=
  nextRegion ← getRegionForPoint h nav endPosition None;
  match nextRegion with
  | None =>
      if decide (currentRegion = None) then Err NoCurrentRegion else
      closestEdge ← closestEdgeOf fuel h currentRegion startPosition;
      '(sel, sc1) ← chooseSegment h sc startPosition closestEdge;
      let e := match sel with Some (e, _) => e | None => None end in
      en ← rd next h e;
      env ← rd vertex h en;
      ev ← rd vertex h e;
      let edgeDirection1 := normalize (subVectors env ev) in
      let movementDirection1 := subVectors endPosition startPosition in
      let length := vec_length movementDirection1 in
      let movementDirection2 := divideScalar movementDirection1 length in
      let f := dot edgeDirection1 movementDirection2 in
      ev' ← rd vertex h e;
      en' ← rd next h e;
      env' ← rd vertex h en';
      let seg := (ev', env') in
      match sel with
      | Some (_, t) =>
          let closestPoint1 := segment_at seg t in
          let edgeDirection2 := multiplyScalar edgeDirection1 (num_mul f length) in
          let newPosition1 := addVectors closestPoint1 edgeDirection2 in
          let t' := closestPointToPointParameter seg newPosition1 in
          let sc2 := mkScratch closestPoint1 edgeDirection2 movementDirection2 newPosition1 seg in
          if num_le num_zero t' && num_le t' num_one then
            Ok (currentRegion, newPosition1, sc2)
          else
            r ← getRegionForPoint h nav newPosition1 None;
            if decide (r ≠ None) then Ok (currentRegion, newPosition1, sc2)
            else Ok (currentRegion, startPosition, sc2)
      | None => Err TypeError
      end
  | Some _ => Ok (nextRegion, clampPosition, sc)
  end.

End Queries.

(** ** Notions the properties are stated with *)

(** [onCycle h a b]: following [next] from [a] reaches [b]. *)
Inductive onCycle (h : Heap) : option ref → option ref → Prop :=
  | onCycle_here e : onCycle h e e
  | onCycle_next e n e' : rd next h e = Ok n → onCycle h n e' → onCycle h e e'.

(** The boundary of a region: the edges reached from [region.edge]. *)
Definition boundary (h : Heap) (region : pref) (e : option ref) : Prop :=
  ∃ e0, rdPoly edge h (Some region) = Ok e0 ∧ onCycle h e0 e.

(** The node indices a region exposes: the index of a boundary edge that has
    a twin, and the index of that twin. *)
Definition exposes (h : Heap) (region : pref) (i : Idx) : Prop :=
  ∃ e t, boundary h region e ∧ rd twin h e = Ok (Some t) ∧
         (rd nodeIndex h e = Ok i ∨ rd nodeIndex h (Some t) = Ok i).

(** The graph has an edge from [i] to [j] whose cost is the distance between
    the positions of the nodes [i] and [j]. *)
Definition navEdge (g : Graph) (i j : Idx) : Prop :=
  ∃ e ni nj, e ∈ edges g ∧ from e = i ∧ to e = j ∧
             getNode g i = Ok ni ∧ getNode g j = Ok nj ∧
             cost e = distanceTo (position ni) (position nj).

(** An edge whose [prev] and [next] are edges that refer back to it. *)
Definition doubly_linked (h : Heap) (e : ref) : Prop :=
  ∃ p n, rd prev h (Some e) = Ok (Some p) ∧ rd next h (Some e) = Ok (Some n) ∧
         rd next h (Some p) = Ok (Some e) ∧ rd prev h (Some n) = Ok (Some e).

(** What claim C2 says of a candidate whose spliced cycle is not convex: the
    round leaves the [next] and [prev] of the edges, the [edge] of the
    candidate's polygon and the regions as they were. *)
Definition rollback_exact (fuel : nat) (entry : Entry) (h : Heap) (rs : list pref) : Prop :=
  ∀ h2 poly h' rs',
    trial h (entry_edge entry) = Ok (h2, poly) →
    convex fuel h2 poly = Ok false →
    mergeCandidate fuel entry (h, rs) = Ok (h', rs') →
    (∀ e, rd next h' e = rd next h e ∧ rd prev h' e = rd prev h e) ∧
    rdPoly edge h' poly = rdPoly edge h poly ∧
    rs' = rs.

(** What claim C1 says of a build: every region left passes the convexity
    test. *)
Definition regions_convex (fuel : nat) (h : Heap) (nav : NavMesh) (polygons : list pref) : Prop :=
  ∀ h' nav', fromPolygons fuel h nav polygons = Ok (h', nav') →
    ∀ region, region ∈ regions nav' → convex fuel h' (Some region) = Ok true.

(** A list of edges in which each is the [next] of the one before, none but
    the first is [stop], and the [next] of the last is [stop]. *)
Fixpoint chain (h : Heap) (l : list (option ref)) (stop : option ref) : Prop :=
  match l with
  | [] => False
  | e :: rest =>
      match rest with
      | [] => rd next h e = Ok stop
      | e' :: _ => rd next h e = Ok e' ∧ e' ≠ stop ∧ chain h rest stop
      end
  end.

(** ** Notions of the builder's invariants *)

Definition equals_sym : Prop := ∀ a b : Vector3, equals a b = true → equals b a = true.
Definition equals_trans : Prop :=
  ∀ a b c : Vector3, equals a b = true → equals b c = true → equals a c = true.

(** The edges of the input polygons. *)
Definition inputEdge (h : Heap) (polygons : list pref) (e : option ref) : Prop :=
  ∃ poly, poly ∈ polygons ∧ boundary h poly e.

(** [rev h e0 e1]: the test of the twin search holds for [e0] and [e1]. *)
Definition rev (h : Heap) (e0 e1 : option ref) : Prop :=
  ∃ f0 t1 t0 f1,
    edge_from h e0 = Ok f0 ∧ edge_to h e1 = Ok t1 ∧ equals f0 t1 = true ∧
    edge_to h e0 = Ok t0 ∧ edge_from h e1 = Ok f1 ∧ equals t0 f1 = true.

(** Two edges that start at equal points and end at equal points. *)
Definition parallel (h : Heap) (e e' : option ref) : Prop :=
  ∃ f f' t t',
    edge_from h e = Ok f ∧ edge_from h e' = Ok f' ∧ equals f f' = true ∧
    edge_to h e = Ok t ∧ edge_to h e' = Ok t' ∧ equals t t' = true.

(** An edge does not end where it starts. *)
Definition nondeg (h : Heap) (e : ref) : Prop :=
  ∀ f t, edge_from h (Some e) = Ok f → edge_to h (Some e) = Ok t → equals f t = false.

(** The twins the input edges have before the build are symmetric and pass
    the test of the twin search; a mesh without twins is such a mesh. *)
Definition twins_consistent (h : Heap) (polygons : list pref) : Prop :=
  ∀ e t, inputEdge h polygons e → rd twin h e = Ok (Some t) →
    inputEdge h polygons (Some t) ∧ rd twin h (Some t) = Ok e ∧ rev h e (Some t).

(** No two distinct input edges are parallel. *)
Definition manifold (h : Heap) (polygons : list pref) : Prop :=
  ∀ r r', inputEdge h polygons (Some r) → inputEdge h polygons (Some r') → r ≠ r' →
    ¬ parallel h (Some r) (Some r').

(** [keeps f h h']: every edge has in [h'] the field [f] it has in [h]. *)
Definition keeps {A} (f : HalfEdge → A) (h h' : Heap) : Prop :=
  ∀ r, rd f h' r = rd f h r.

(** [b] is the [next] of [a] and [a] the [prev] of [b]. *)
Definition link (h : Heap) (a b : ref) : Prop :=
  rd next h (Some a) = Ok (Some b) ∧ rd prev h (Some b) = Ok (Some a).

Fixpoint path (h : Heap) (l : list ref) : Prop :=
  match l with
  | a :: rest => match rest with b :: _ => link h a b ∧ path h rest | [] => True end
  | [] => True
  end.

(** A list of edges that is linked from each to the next and from the last
    to the first. *)
Definition cyc_list (h : Heap) (l : list ref) : Prop :=
  match l with
  | [] => False
  | e0 :: rest => path h (e0 :: rest ++ [e0])
  end.

(** The triple of points the test takes at the edge [x] passes [leftOn]. *)
Definition triple_ok (h : Heap) (x : option ref) : Prop :=
  ∃ v1 v2 n v3, edge_from h x = Ok v1 ∧ edge_to h x = Ok v2 ∧ rd next h x = Ok n ∧
                edge_to h n = Ok v3 ∧ leftOn v1 v2 v3 = true.

(** [contour h P l]: the edges [l] are the cycle of the polygon [P]. *)
Definition contour (h : Heap) (P : pref) (l : list ref) : Prop :=
  cyc_list h l ∧ 2 ≤ length l ∧
  (∃ e0, e0 ∈ l ∧ rdPoly edge h (Some P) = Ok (Some e0)) ∧
  ∀ e, e ∈ l → rd polygon h (Some e) = Ok (Some P).

(** A well-formed input mesh: distinct polygons whose contours [cyc] share
    no edge, edges that do not end where they start, no two parallel
    edges, and twins, if any are set, that are symmetric. *)
Record well_formed (h : Heap) (polygons : list pref) (cyc : list (list ref)) : Prop := {
  wf_polygons : NoDup polygons;
  wf_contours : Forall2 (contour h) polygons cyc;
  wf_disjoint : NoDup (concat cyc);
  wf_nondeg : ∀ e, e ∈ concat cyc → nondeg h e;
  wf_twins : twins_consistent h polygons;
  wf_manifold : manifold h polygons
}.

(** The entry at place [j] has the key [j], and no position passes [equals]
    with the position of an entry before it. *)
Definition map_ok (m : list (Z * Vector3)) : Prop :=
  (∀ j p, m !! j = Some p → p.1 = Z.of_nat j) ∧
  (∀ i j p q, i < j → m !! i = Some p → m !! j = Some q → equals q.2 p.2 = false).

(** The position [v] has the index [i] in the map. *)
Definition classified (m : list (Z * Vector3)) (v : Vector3) (i : Z) : Prop :=
  ∃ pos, (i, pos) ∈ m ∧ equals v pos = true.

End NavMeshModel.

(** ** A geometry with rational coordinates

    Exact arithmetic on rationals stands for the numbers of the examples;
    square roots are exact on squares of rationals and rounded down
    otherwise. *)

Module Rat.

Inductive num := Fin (q : Q) | PInf.

Record vec := mkVec { vx : Q; vy : Q; vz : Q }.

Definition lt (a b : num) : bool :=
  match a, b with
  | Fin x, Fin y => negb (Qle_bool y x)
  | Fin _, PInf => true
  | PInf, _ => false
  end.

Definition le (a b : num) : bool :=
  match a, b with
  | Fin x, Fin y => Qle_bool x y
  | _, PInf => true
  | PInf, Fin _ => false
  end.

Definition lift2 (f : Q → Q → Q) (a b : num) : num :=
  match a, b with
  | Fin x, Fin y => Fin (Qred (f x y))
  | _, _ => PInf
  end.

Definition qsqrt (q : Q) : Q :=
  Qred (Qmake (Z.sqrt (Qnum q * Zpos (Qden q))) (Qden q)).

Definition veq (a b : vec) : bool :=
  Qeq_bool (vx a) (vx b) && Qeq_bool (vy a) (vy b) && Qeq_bool (vz a) (vz b).

Definition vsub (a b : vec) : vec :=
  mkVec (Qred (vx a - vx b)) (Qred (vy a - vy b)) (Qred (vz a - vz b)).

Definition vadd (a b : vec) : vec :=
  mkVec (Qred (vx a + vx b)) (Qred (vy a + vy b)) (Qred (vz a + vz b)).

Definition vscale (a : vec) (k : Q) : vec :=
  mkVec (Qred (vx a * k)) (Qred (vy a * k)) (Qred (vz a * k)).

Definition vdot (a b : vec) : Q :=
  Qred (vx a * vx b + vy a * vy b + vz a * vz b).

Definition sqdist (a b : vec) : Q := vdot (vsub a b) (vsub a b).

Definition unwrap (k : num) : Q := match k with Fin q => q | PInf => 0 end.

Definition clamp01 (q : Q) : Q :=
  if Qle_bool q 0 then 0%Q else if Qle_bool 1 q then 1%Q else q.

Definition param (seg : vec * vec) (p : vec) : Q :=
  let d := vsub (snd seg) (fst seg) in
  clamp01 (Qred (vdot (vsub p (fst seg)) d / vdot d d)).

(* twice the signed area of the triangle a, b, c in the x-z plane *)
Definition area (a b c : vec) : Q :=
  ((vx c - vx a) * (vz b - vz a) - (vx b - vx a) * (vz c - vz a))%Q.

Definition vmean (l : list vec) : vec :=
  vscale (foldr vadd (mkVec 0 0 0) l) (Qinv (inject_Z (Z.of_nat (length l)))).

Definition geometry : Geometry := {|
  Num := num;
  Vector3 := vec;
  infinity := PInf;
  num_zero := Fin 0;
  num_one := Fin 1;
  num_lt := lt;
  num_le := le;
  num_add := lift2 Qplus;
  num_mul := lift2 Qmult;
  epsilon_default := Fin (1 # 1000);
  equals := veq;
  squaredDistanceTo := λ a b, Fin (sqdist a b);
  distanceTo := λ a b, Fin (qsqrt (sqdist a b));
  subVectors := vsub;
  addVectors := vadd;
  normalize := λ a, vscale a (Qinv (qsqrt (vdot a a)));
  vec_length := λ a, Fin (qsqrt (vdot a a));
  divideScalar := λ a k, vscale a (Qinv (unwrap k));
  multiplyScalar := λ a k, vscale a (unwrap k);
  dot := λ a b, Fin (vdot a b);
  closestPointToPointParameter := λ seg p, Fin (param seg p);
  segment_at := λ seg t, vadd (fst seg) (vscale (vsub (snd seg) (fst seg)) (unwrap t));
  leftOn := λ a b c, Qle_bool 0 (area a b c);
  mean := vmean
|}.

End Rat.

(** ** Example meshes

    [fromContour] wires the edges of one polygon the way the half-edge
    structure expects them: the edges of a contour of [n] points get the
    handles [base .. base + n - 1], each starts at its point, and [next] and
    [prev] go round the contour. *)

Module Examples.

#[local] Existing Instance Rat.geometry.

Definition pt (x z : Z) : Rat.vec := Rat.mkVec (inject_Z x) 0 (inject_Z z).

Definition contourEdge (base n : nat) (P : pref) (i : nat) (v : Rat.vec) : ref * HalfEdge :=
  (base + i,
   mkHalfEdge v (Some (base + (i + 1) mod n)) (Some (base + (i + n - 1) mod n)) None (Some P) None).

Definition fromContour (base : nat) (P : pref) (points : list Rat.vec) (h : Heap) : Heap :=
  mkHeap (list_to_map (imap (contourEdge base (length points) P) points) ∪ hedges h)
         (<[P := mkPolygon (Some base) (pt 0 0)]> (hpolys h)).

Definition emptyHeap : Heap := mkHeap ∅ ∅.
Definition emptyNavMesh : NavMesh := mkNavMesh (mkGraph true [] []) [].

(** A containment test for the examples: the point lies left of or on every
    edge of the polygon. *)
Fixpoint containsXZ_loop (fuel : nat) (h : Heap) (P : pref) (e : option ref) (point : Rat.vec)
    : result bool :=
  match fuel with
  | O => Err OutOfFuel
  | S k =>
      v1 ← edge_from h e;
      v2 ← edge_to h e;
      if negb (leftOn v1 v2 point) then Ok false else
      n ← rd next h e;
      start ← rdPoly edge h (Some P);
      if decide (n = start) then Ok true else containsXZ_loop k h P n point
  end.

Definition containsXZ (h : Heap) (P : pref) (point : Rat.vec) (eps : option Rat.num) : result bool :=
  e ← rdPoly edge h (Some P);
  containsXZ_loop 64 h P e point.

(** A search for the examples: breadth first over the edges of the graph.
    A source that is the target is found at once, whether it is a node of the
    graph or not; from a source that is no node of the graph, or has no
    edges, nothing else is found. *)
Fixpoint bfs (fuel : nat) (g : Graph) (target : Idx) (frontier : list (list Idx))
    (seen : list Idx) : option (list Idx) :=
  match fuel with
  | O => None
  | S k =>
      match find (λ path, bool_decide (head path = Some target)) frontier with
      | Some path => Some (reverse path)
      | None =>
          let step (path : list Idx) : list (list Idx) :=
            match path with
            | [] => []
            | last :: _ =>
                map (λ e, to e :: path)
                    (filter (λ e, from e = last ∧ to e ∉ seen) (edges g))
            end in
          let frontier1 := concat (map step frontier) in
          match frontier1 with
          | [] => None
          | _ => bfs k g target frontier1 (seen ++ omap head frontier1)
          end
      end
  end.

Definition search (g : Graph) (source target : Idx) : option (list Idx) :=
  bfs (S (length (nodes g))) g target [[source]] [source].

(** A quadrilateral with a reflex corner. *)
Definition dart : Heap :=
  fromContour 0 0 [pt 2 1; pt 0 0; pt 2 4; pt 4 0] emptyHeap.

(** Two triangles on one edge whose union has a reflex corner. *)
Definition chevron : Heap :=
  fromContour 3 1 [pt 2 1; pt 2 4; pt 4 0]
    (fromContour 0 0 [pt 0 0; pt 2 4; pt 2 1] emptyHeap).

(** Two unit squares on one edge: a 2 x 1 rectangle. *)
Definition rectangle : Heap :=
  fromContour 4 1 [pt 1 0; pt 1 1; pt 2 1; pt 2 0]
    (fromContour 0 0 [pt 0 0; pt 0 1; pt 1 1; pt 1 0] emptyHeap).

(** Two chevrons apart from each other: four triangles and two shared
    edges, and no edge between the one chevron and the other. *)
Definition chevrons : Heap :=
  fromContour 9 3 [pt 12 1; pt 12 4; pt 14 0]
    (fromContour 6 2 [pt 10 0; pt 12 4; pt 12 1] chevron).

(** A unit square with a quadrilateral on its right and one on top; neither
    can be merged with the square, and the three meet at the inner corner
    (1, 1). *)
Definition corner : Heap :=
  fromContour 8 2 [pt 1 1; pt 0 1; pt (-1) 3; pt 2 3]
    (fromContour 4 1 [pt 1 0; pt 1 1; pt 3 2; pt 3 (-1)]
      (fromContour 0 0 [pt 0 0; pt 0 1; pt 1 1; pt 1 0] emptyHeap)).

Definition build (h : Heap) (polygons : list pref) : result (Heap * NavMesh) :=
  fromPolygons 64 h emptyNavMesh polygons.

Definition heapOf (r : result (Heap * NavMesh)) : Heap :=
  match r with Ok (h, _) => h | Err _ => emptyHeap end.

Definition navOf (r : result (Heap * NavMesh)) : NavMesh :=
  match r with Ok (_, nav) => nav | Err _ => emptyNavMesh end.

Definition isOk {A} (r : result A) : bool :=
  match r with Ok _ => true | Err _ => false end.

Lemma built_ok (r : result (Heap * NavMesh)) :
  isOk r = true → r = Ok (heapOf r, navOf r).
Proof. by destruct r as [[h nav]|]. Qed.

Definition get {A} (d : A) (r : result A) : A :=
  match r with Ok a => a | Err _ => d end.

Lemma get_ok {A} (d : A) (r : result A) : isOk r = true → r = Ok (get d r).
Proof. by destruct r. Qed.

(** The chevron when the twins are linked: the store, the regions and the one
    entry of the sorted list, edge 1 of squared length 9. *)
Definition chevronSetup : Heap * list pref * list Entry :=
  get (emptyHeap, [], []) (setupEdges 64 chevron [] [0; 1]).
Definition chevronLinked : Heap := chevronSetup.1.1.
Definition chevronEntry : Entry := mkEntry (Rat.Fin 9) (Some 1).
Definition chevronTrial : Heap * option pref :=
  get (emptyHeap, None) (trial chevronLinked (Some 1)).
Definition chevronMerged : Heap * list pref :=
  get (emptyHeap, []) (mergeCandidate 64 chevronEntry (chevronLinked, [0; 1])).

Definition ptQ (x z : Q) : Rat.vec := Rat.mkVec x 0 z.

Definition scratch0 : Scratch :=
  mkScratch (pt 0 0) (pt 0 0) (pt 0 0) (pt 0 0) (pt 0 0, pt 0 0).

End Examples.

(** * Properties of the queries *)

Section QueryFacts.

Context {G : Geometry}.
Variable contains : Heap → pref → Vector3 → option Num → result bool.
Variable astar : Graph → Idx → Idx → option (list Idx).

Lemma getRegionForPoint_empty h g point eps :
  getRegionForPoint contains h (mkNavMesh g []) point eps = Ok None.
Proof. reflexivity. Qed.

Lemma getClosestRegion_empty h g point :
  getClosestRegion h (mkNavMesh g []) point = Ok None.
Proof. reflexivity. Qed.

(** [findPath] in terms of [resolveRegion], when both resolutions return. *)
Lemma findPath_resolved fuel h nav p1 p2 r1 r2 :
  resolveRegion contains h nav p1 = Ok r1 →
  resolveRegion contains h nav p2 = Ok r2 →
  findPath contains astar fuel h nav p1 p2 =
    if decide (r1 = r2) then Ok [p1; p2]
    else
      source ← getClosestNodeIndexInRegion fuel h p1 r1 (Some p2);
      target ← getClosestNodeIndexInRegion fuel h p2 r2 (Some p1);
      match astar (graph nav) source target with
      | Some shortestPath =>
          sp ← smooth contains h (graph nav) r1 shortestPath;
          sp ← smooth contains h (graph nav) r2 (reverse sp);
          ps ← positionsOf (graph nav) (reverse sp);
          Ok ([p1] ++ ps ++ [p2])
      | None => Ok []
      end.
Proof.
  unfold resolveRegion, findPath. intros H1 H2.
  destruct (getRegionForPoint contains h nav p1 None) as [a1|] eqn:E1; [|done].
  destruct (getRegionForPoint contains h nav p2 None) as [a2|] eqn:E2; [|done].
  simpl in *.
  destruct (decide (a1 = None)), (decide (a2 = None)); simpl in *;
    rewrite ?H1, ?H2; simpl; try injection H1 as ->; try injection H2 as ->; done.
Qed.

(** C5: when both points resolve to the same region, [findPath] returns the
    two points in order, whatever search it is given: the search is not
    consulted. *)
Theorem findPath_same_region fuel h nav p1 p2 r :
  resolveRegion contains h nav p1 = Ok r →
  resolveRegion contains h nav p2 = Ok r →
  findPath contains astar fuel h nav p1 p2 = Ok [p1; p2] ∧
  ∀ astar', findPath contains astar' fuel h nav p1 p2 = Ok [p1; p2].
Proof.
  intros H1 H2. unfold resolveRegion in H1, H2. split; [|intros astar'];
  unfold findPath;
  destruct (getRegionForPoint contains h nav p1 None) as [a1|] eqn:E1; try done;
  destruct (getRegionForPoint contains h nav p2 None) as [a2|] eqn:E2; try done;
  simpl in *;
  destruct (decide (a1 = None)), (decide (a2 = None)); simpl in *;
    rewrite ?H1, ?H2; simpl; try injection H1 as ->; try injection H2 as ->;
    simpl; by rewrite decide_True.
Qed.

(** C6: when the points resolve to distinct regions, a source and a target
    node are chosen and the search finds no route, [findPath] returns the
    empty sequence; it raises nothing. *)
Theorem findPath_no_route fuel h nav p1 p2 r1 r2 source target :
  resolveRegion contains h nav p1 = Ok r1 →
  resolveRegion contains h nav p2 = Ok r2 →
  r1 ≠ r2 →
  getClosestNodeIndexInRegion fuel h p1 r1 (Some p2) = Ok source →
  getClosestNodeIndexInRegion fuel h p2 r2 (Some p1) = Ok target →
  astar (graph nav) source target = None →
  findPath contains astar fuel h nav p1 p2 = Ok [].
Proof.
  intros H1 H2 Hne Hs Ht Hnone.
  rewrite (findPath_resolved _ _ _ _ _ _ _ H1 H2).
  rewrite decide_False by done.
  rewrite Hs. simpl. rewrite Ht. simpl. by rewrite Hnone.
Qed.

(** C10: on a mesh without regions both lookups of a region and the closest
    region are none, and [findPath] returns the two points. *)
Theorem findPath_no_regions fuel h g p1 p2 :
  getRegionForPoint contains h (mkNavMesh g []) p1 None = Ok None ∧
  getRegionForPoint contains h (mkNavMesh g []) p2 None = Ok None ∧
  getClosestRegion h (mkNavMesh g []) p1 = Ok None ∧
  getClosestRegion h (mkNavMesh g []) p2 = Ok None ∧
  findPath contains astar fuel h (mkNavMesh g []) p1 p2 = Ok [p1; p2] ∧
  findPath contains astar fuel h (clear (mkNavMesh g [])) p1 p2 = Ok [p1; p2].
Proof.
  repeat split; try reflexivity.
Qed.

(** C7: when [endPosition] lies in a region, [clampMovement] returns that
    region; [clampPosition] and the scratch vectors of the module come back as
    they went in, and the call has no store or mesh to change. *)
Theorem clampMovement_inside fuel h nav sc currentRegion startPosition endPosition clampPosition r :
  getRegionForPoint contains h nav endPosition None = Ok (Some r) →
  clampMovement contains fuel h nav sc currentRegion startPosition endPosition clampPosition
    = Ok (Some r, clampPosition, sc).
Proof.
  intros H. unfold clampMovement. rewrite H. reflexivity.
Qed.

Lemma chooseSegment_both_twins h sc startPosition closestEdge t p pt :
  rd twin h closestEdge = Ok (Some t) →
  rd prev h closestEdge = Ok p →
  rd twin h p = Ok (Some pt) →
  chooseSegment h sc startPosition closestEdge = Ok (None, sc).
Proof.
  intros H1 H2 H3. unfold chooseSegment. rewrite H1. simpl. rewrite H2. simpl.
  rewrite H3. reflexivity.
Qed.

Lemma chooseSegment_assigns h sc startPosition closestEdge e t sc' :
  chooseSegment h sc startPosition closestEdge = Ok (Some (e, t), sc') →
  rd twin h closestEdge = Ok None ∨
  ∃ p, rd prev h closestEdge = Ok p ∧ rd twin h p = Ok None.
Proof.
  unfold chooseSegment. intros H.
  destruct (rd twin h closestEdge) as [[tw|]|] eqn:E1; simpl in H; [| by left | done].
  right.
  destruct (rd prev h closestEdge) as [p|] eqn:E2; simpl in H; [|done].
  destruct (rd twin h p) as [[ptw|]|] eqn:E3; simpl in H; try done.
  by exists p.
Qed.

(** Off the mesh, [clampMovement] returns only when the closest edge or its
    predecessor has no twin. *)
Lemma clampMovement_returns_hull fuel h nav sc R startPosition endPosition clampPosition
    closestEdge out :
  getRegionForPoint contains h nav endPosition None = Ok None →
  closestEdgeOf fuel h (Some R) startPosition = Ok closestEdge →
  clampMovement contains fuel h nav sc (Some R) startPosition endPosition clampPosition
    = Ok out →
  rd twin h closestEdge = Ok None ∨
  ∃ p, rd prev h closestEdge = Ok p ∧ rd twin h p = Ok None.
Proof.
  intros Hoff Hce. unfold clampMovement. rewrite Hoff. simpl. rewrite Hce. simpl.
  destruct (chooseSegment h sc startPosition closestEdge) as [[[[e t]|] sc1]|] eqn:E;
    simpl; [| done | done].
  intros _. eapply chooseSegment_assigns, E.
Qed.

(** C9: off the mesh, with a current region, [clampMovement] raises a
    TypeError when the edge closest to [startPosition] and its predecessor
    both have a twin: none of the three branches assigns the segment, and the
    read of its [next] fails.  So the call returns only when one of the two
    edges has no twin ([clampMovement_returns_hull]). *)
Theorem clampMovement_both_twins fuel h nav sc R startPosition endPosition clampPosition
    closestEdge t p pt :
  getRegionForPoint contains h nav endPosition None = Ok None →
  closestEdgeOf fuel h (Some R) startPosition = Ok closestEdge →
  rd twin h closestEdge = Ok (Some t) →
  rd prev h closestEdge = Ok p →
  rd twin h p = Ok (Some pt) →
  chooseSegment h sc startPosition closestEdge = Ok (None, sc) ∧
  clampMovement contains fuel h nav sc (Some R) startPosition endPosition clampPosition
    = Err TypeError.
Proof.
  intros Hoff Hce H1 H2 H3.
  pose proof (chooseSegment_both_twins _ sc startPosition _ _ _ _ H1 H2 H3) as Hc.
  split; [done|].
  unfold clampMovement. rewrite Hoff. simpl. rewrite Hce. simpl.
  rewrite Hc. reflexivity.
Qed.

End QueryFacts.

(** * The queries on the example meshes *)

Section QueryExamples.

#[local] Existing Instance Rat.geometry.
Import Examples.

Let rect := build rectangle [0; 1].
Let chv := build chevrons [0; 1; 2; 3].
Let crn := build corner [0; 1; 2].

(** On the 2 x 1 rectangle both points lie in the one region left. *)
Lemma findPath_same_region_witness :
  resolveRegion containsXZ (heapOf rect) (navOf rect) (ptQ (1#2) (1#2)) = Ok (Some 0) ∧
  resolveRegion containsXZ (heapOf rect) (navOf rect) (ptQ (3#2) (1#2)) = Ok (Some 0) ∧
  findPath containsXZ search 64 (heapOf rect) (navOf rect) (ptQ (1#2) (1#2)) (ptQ (3#2) (1#2))
    = Ok [ptQ (1#2) (1#2); ptQ (3#2) (1#2)].
Proof.
  assert (H1 : resolveRegion containsXZ (heapOf rect) (navOf rect) (ptQ (1#2) (1#2)) = Ok (Some 0))
    by (vm_compute; reflexivity).
  assert (H2 : resolveRegion containsXZ (heapOf rect) (navOf rect) (ptQ (3#2) (1#2)) = Ok (Some 0))
    by (vm_compute; reflexivity).
  split; [exact H1|]. split; [exact H2|].
  exact (proj1 (findPath_same_region containsXZ search 64 _ _ _ _ _ H1 H2)).
Defined.

(** On the two chevrons the points lie in triangles of different chevrons.
    The node 1 is chosen on the shared edge of the one and the node 3 on the
    shared edge of the other; both are nodes of the graph, whose edges join
    0 with 1 and 2 with 3 only, and the search finds no route. *)
Lemma findPath_no_route_witness :
  resolveRegion containsXZ (heapOf chv) (navOf chv) (ptQ (4#3) (5#3)) = Ok (Some 0) ∧
  resolveRegion containsXZ (heapOf chv) (navOf chv) (ptQ (38#3) (5#3)) = Ok (Some 3) ∧
  getClosestNodeIndexInRegion 64 (heapOf chv) (ptQ (4#3) (5#3)) (Some 0)
    (Some (ptQ (38#3) (5#3))) = Ok (Some 1%Z) ∧
  getClosestNodeIndexInRegion 64 (heapOf chv) (ptQ (38#3) (5#3)) (Some 3)
    (Some (ptQ (4#3) (5#3))) = Ok (Some 3%Z) ∧
  hasNode (graph (navOf chv)) (Some 1%Z) = true ∧
  hasNode (graph (navOf chv)) (Some 3%Z) = true ∧
  search (graph (navOf chv)) (Some 1%Z) (Some 3%Z) = None ∧
  findPath containsXZ search 64 (heapOf chv) (navOf chv) (ptQ (4#3) (5#3)) (ptQ (38#3) (5#3))
    = Ok [].
Proof.
  assert (H1 : resolveRegion containsXZ (heapOf chv) (navOf chv) (ptQ (4#3) (5#3))
               = Ok (Some 0)) by (vm_compute; reflexivity).
  assert (H2 : resolveRegion containsXZ (heapOf chv) (navOf chv) (ptQ (38#3) (5#3))
               = Ok (Some 3)) by (vm_compute; reflexivity).
  assert (H3 : getClosestNodeIndexInRegion 64 (heapOf chv) (ptQ (4#3) (5#3)) (Some 0)
                 (Some (ptQ (38#3) (5#3))) = Ok (Some 1%Z)) by (vm_compute; reflexivity).
  assert (H4 : getClosestNodeIndexInRegion 64 (heapOf chv) (ptQ (38#3) (5#3)) (Some 3)
                 (Some (ptQ (4#3) (5#3))) = Ok (Some 3%Z)) by (vm_compute; reflexivity).
  assert (H5 : search (graph (navOf chv)) (Some 1%Z) (Some 3%Z) = None)
    by (vm_compute; reflexivity).
  split; [exact H1|]. split; [exact H2|]. split; [exact H3|]. split; [exact H4|].
  split; [vm_compute; reflexivity|]. split; [vm_compute; reflexivity|].
  split; [exact H5|].
  apply (findPath_no_route containsXZ search 64 _ _ _ _ (Some 0) (Some 3)
           (Some 1%Z) (Some 3%Z) H1 H2); [discriminate|exact H3|exact H4|exact H5].
Defined.

Lemma clampMovement_inside_witness :
  getRegionForPoint containsXZ (heapOf rect) (navOf rect) (ptQ (3#2) (1#2)) None = Ok (Some 0) ∧
  clampMovement containsXZ 64 (heapOf rect) (navOf rect) scratch0 (Some 0)
      (ptQ (1#2) (1#2)) (ptQ (3#2) (1#2)) (pt 7 7)
    = Ok (Some 0, pt 7 7, scratch0).
Proof.
  assert (H : getRegionForPoint containsXZ (heapOf rect) (navOf rect) (ptQ (3#2) (1#2)) None
              = Ok (Some 0)) by (vm_compute; reflexivity).
  split; [exact H|].
  exact (clampMovement_inside containsXZ 64 _ _ scratch0 (Some 0) (ptQ (1#2) (1#2)) _ (pt 7 7) 0 H).
Defined.

(** At the inner corner of the three regions, a step from (9/10, 9/10) in the
    square towards (13/10, 13/10), a point of no region: the closest edge is
    edge 2, it and its predecessor, edge 1, have the twins 4 and 8. *)
Lemma clampMovement_both_twins_witness :
  getRegionForPoint containsXZ (heapOf crn) (navOf crn) (ptQ (13#10) (13#10)) None = Ok None ∧
  closestEdgeOf 64 (heapOf crn) (Some 0) (ptQ (9#10) (9#10)) = Ok (Some 2) ∧
  rd twin (heapOf crn) (Some 2) = Ok (Some 4) ∧
  rd prev (heapOf crn) (Some 2) = Ok (Some 1) ∧
  rd twin (heapOf crn) (Some 1) = Ok (Some 8) ∧
  clampMovement containsXZ 64 (heapOf crn) (navOf crn) scratch0 (Some 0)
      (ptQ (9#10) (9#10)) (ptQ (13#10) (13#10)) (pt 7 7)
    = Err TypeError.
Proof.
  assert (H1 : getRegionForPoint containsXZ (heapOf crn) (navOf crn) (ptQ (13#10) (13#10)) None
               = Ok None) by (vm_compute; reflexivity).
  assert (H2 : closestEdgeOf 64 (heapOf crn) (Some 0) (ptQ (9#10) (9#10)) = Ok (Some 2))
    by (vm_compute; reflexivity).
  assert (H3 : rd twin (heapOf crn) (Some 2) = Ok (Some 4)) by (vm_compute; reflexivity).
  assert (H4 : rd prev (heapOf crn) (Some 2) = Ok (Some 1)) by (vm_compute; reflexivity).
  assert (H5 : rd twin (heapOf crn) (Some 1) = Ok (Some 8)) by (vm_compute; reflexivity).
  repeat (split; [eassumption|]).
  exact (proj2 (clampMovement_both_twins containsXZ 64 _ _ scratch0 0 _ _ (pt 7 7)
                  _ _ _ _ H1 H2 H3 H4 H5)).
Defined.

End QueryExamples.

(** * Properties of the builder *)

Section BuilderFacts.

Context {G : Geometry}.

(** ** Loops *)

Lemma foldM_app {A S} (f : A → S → result S) l1 l2 s :
  foldM f (l1 ++ l2) s = (foldM f l1 s ≫= foldM f l2).
Proof.
  revert s. induction l1 as [|x l1 IH]; intros s; simpl; [done|].
  destruct (f x s); simpl; [apply IH | done].
Qed.

(** An invariant of the state that every round keeps holds at the end. *)
Lemma foldM_inv {A S} (f : A → S → result S) (I : S → Prop) l s s' :
  (∀ x s s1, x ∈ l → I s → f x s = Ok s1 → I s1) →
  I s → foldM f l s = Ok s' → I s'.
Proof.
  revert s. induction l as [|x l IH]; intros s Hstep Hs H; simpl in H.
  - by injection H as <-.
  - inv_bind H. eapply IH; [| |exact H].
    + intros y t t1 Hy. apply Hstep. by right.
    + eapply Hstep; [by left|exact Hs|done].
Qed.

(** The same with an invariant that knows the rounds already done. *)
Lemma foldM_inv_done {A S} (f : A → S → result S) (I : list A → S → Prop) l s s' :
  (∀ done x s s1, I done s → f x s = Ok s1 → I (done ++ [x]) s1) →
  I [] s → foldM f l s = Ok s' → I l s'.
Proof.
  intros Hstep.
  assert (Hgen : ∀ l done s, I done s → foldM f l s = Ok s' → I (done ++ l) s').
  { clear l s. induction l as [|x l IH]; intros done s Hs H; simpl in H.
    - injection H as <-. by rewrite app_nil_r.
    - inv_bind H. replace (done ++ x :: l) with ((done ++ [x]) ++ l)
        by (by rewrite <- app_assoc).
      eapply IH; [|exact H]. eapply Hstep; eauto. }
  intros Hs H. apply (Hgen l [] s Hs H).
Qed.

(** A loop round a polygon that leaves the store alone runs its body on a
    chain of edges that ends where [polygon.edge] begins. *)
Lemma doWhile_const {S} (h : Heap) fuel P (body : option ref → S → result S) e s s' :
  doWhile (λ _, h) fuel P body e s = Ok s' →
  ∃ start l, rdPoly edge h P = Ok start ∧ chain h (e :: l) start ∧
             foldM body (e :: l) s = Ok s'.
Proof.
  revert e s. induction fuel as [|k IH]; intros e s H; simpl in H; [done|].
  inv_bind H.
  destruct (decide (a0 = a1)) as [->|Hne].
  - injection H as <-. exists a1, []. simpl. rewrite E. done.
  - destruct (IH _ _ H) as (start & l & Hs & Hc & Hf).
    assert (start = a1) as -> by congruence.
    exists a1, (a0 :: l). split; [done|]. split; [simpl; done|].
    simpl. rewrite E. simpl. exact Hf.
Qed.

Lemma chain_closed h l stop e n :
  chain h l stop → e ∈ l → rd next h e = Ok n → n = stop ∨ n ∈ l.
Proof.
  revert e. induction l as [|x l IH]; intros e Hc He Hn; [done|].
  simpl in Hc. destruct l as [|y l].
  - apply list_elem_of_singleton in He as ->. left. congruence.
  - destruct Hc as (Hx & _ & Hc).
    apply elem_of_cons in He as [->|He].
    + assert (n = y) as -> by congruence. right. right. left.
    + destruct (IH _ Hc He Hn) as [?|?]; [by left|right; by right].
Qed.

(** Every edge reached from the first edge of a closed chain is in it. *)
Lemma chain_onCycle h e l x :
  chain h (e :: l) e → onCycle h e x → x ∈ e :: l.
Proof.
  intros Hc Hr.
  assert (Hgen : ∀ a b, onCycle h a b → a ∈ e :: l → b ∈ e :: l).
  { intros a b Hab. induction Hab as [a|a n b Hn Hnb IH]; intros Ha; [done|].
    apply IH. destruct (chain_closed _ _ _ _ _ Hc Ha Hn) as [Heq|?]; [|done].
    rewrite Heq. by left. }
  apply (Hgen e x Hr). by left.
Qed.

(** ** Reads and writes of the store *)

Lemma rd_Some {A} (f : HalfEdge → A) h a x :
  rd f h (Some a) = Ok x ↔ ∃ e, hedges h !! a = Some e ∧ f e = x.
Proof.
  unfold rd, deref. destruct (hedges h !! a) as [e|]; simpl; split.
  - intros [= <-]. by exists e.
  - intros (e' & [= <-] & <-). done.
  - done.
  - intros (e' & [=] & _).
Qed.

Lemma rd_Ok_Some {A} (f : HalfEdge → A) h o x :
  rd f h o = Ok x → ∃ a, o = Some a.
Proof. destruct o as [a|]; [by exists a|done]. Qed.

Lemma wr_Some u h a h' :
  wr u h (Some a) = Ok h' ↔
  ∃ e, hedges h !! a = Some e ∧ h' = mkHeap (<[a := u e]> (hedges h)) (hpolys h).
Proof.
  unfold wr, deref. destruct (hedges h !! a) as [e|]; simpl; split.
  - intros [= <-]. by exists e.
  - intros (e' & [= <-] & ->). done.
  - done.
  - intros (e' & [=] & _).
Qed.

Lemma wr_Ok_Some u h o h' : wr u h o = Ok h' → ∃ a, o = Some a.
Proof. destruct o as [a|]; [by exists a|]. unfold wr. simpl. done. Qed.

(** The store after a write, edge by edge. *)
Lemma wr_lookup u h a h' r :
  wr u h (Some a) = Ok h' →
  hedges h' !! r = (λ e, if decide (r = a) then u e else e) <$> hedges h !! r.
Proof.
  intros (e & He & ->)%wr_Some. simpl.
  destruct (decide (r = a)) as [->|Hne].
  - by rewrite lookup_insert_eq, He.
  - rewrite lookup_insert_ne by done. by destruct (hedges h !! r).
Qed.

Lemma wr_polys u h o h' : wr u h o = Ok h' → hpolys h' = hpolys h.
Proof.
  intros H. destruct (wr_Ok_Some _ _ _ _ H) as [a ->].
  apply wr_Some in H as (e & _ & ->). done.
Qed.

Lemma rd_wr {A} (f : HalfEdge → A) u h a h' r :
  wr u h (Some a) = Ok h' →
  rd f h' (Some r) = if decide (r = a) then rd (f ∘ u) h (Some r) else rd f h (Some r).
Proof.
  intros H. unfold rd, deref. rewrite (wr_lookup _ _ _ _ r H).
  destruct (hedges h !! r) as [e|]; simpl; by case_decide.
Qed.

Lemma wrPoly_Some u h a h' :
  wrPoly u h (Some a) = Ok h' ↔
  ∃ p, hpolys h !! a = Some p ∧ h' = mkHeap (hedges h) (<[a := u p]> (hpolys h)).
Proof.
  unfold wrPoly, derefPoly. destruct (hpolys h !! a) as [p|]; simpl; split.
  - intros [= <-]. by exists p.
  - intros (e' & [= <-] & ->). done.
  - done.
  - intros (e' & [=] & _).
Qed.

Lemma wrPoly_Ok_Some u h o h' : wrPoly u h o = Ok h' → ∃ a, o = Some a.
Proof. destruct o as [a|]; [by exists a|]. unfold wrPoly. simpl. done. Qed.

Lemma wrPoly_edges u h o h' : wrPoly u h o = Ok h' → hedges h' = hedges h.
Proof.
  intros H. destruct (wrPoly_Ok_Some _ _ _ _ H) as [a ->].
  apply wrPoly_Some in H as (e & _ & ->). done.
Qed.

Lemma rd_wrPoly {A} (f : HalfEdge → A) u h o h' r :
  wrPoly u h o = Ok h' → rd f h' r = rd f h r.
Proof. intros H. unfold rd, deref. by rewrite (wrPoly_edges _ _ _ _ H). Qed.

Lemma rdPoly_Some {A} (f : Polygon → A) h a x :
  rdPoly f h (Some a) = Ok x ↔ ∃ p, hpolys h !! a = Some p ∧ f p = x.
Proof.
  unfold rdPoly, derefPoly. destruct (hpolys h !! a) as [e|]; simpl; split.
  - intros [= <-]. by exists e.
  - intros (e' & [= <-] & <-). done.
  - done.
  - intros (e' & [=] & _).
Qed.

Lemma rdPoly_wr {A} (f : Polygon → A) u h o h' P :
  wr u h o = Ok h' → rdPoly f h' P = rdPoly f h P.
Proof. intros H. unfold rdPoly, derefPoly. by rewrite (wr_polys _ _ _ _ H). Qed.

(** ** The rollback of a merge *)

Lemma rd_wr_frame {A} (f : HalfEdge → A) u h o h' r :
  wr u h o = Ok h' → (∀ e, f (u e) = f e) → rd f h' r = rd f h r.
Proof.
  intros H Hf. destruct (wr_Ok_Some _ _ _ _ H) as [a ->].
  destruct r as [r|]; [|done].
  rewrite (rd_wr _ _ _ _ _ _ H). case_decide; [|done].
  unfold rd. destruct (deref h (Some r)); simpl; [|done]. by rewrite Hf.
Qed.

Lemma rd_wr_eq {A} (f : HalfEdge → A) u h a h' x :
  (∀ e, f (u e) = x) → wr u h (Some a) = Ok h' → rd f h' (Some a) = Ok x.
Proof.
  intros Hf H. rewrite (rd_wr _ _ _ _ _ _ H). rewrite decide_True by done.
  apply wr_Some in H as (e & He & _). apply rd_Some. exists e. split; [done|apply Hf].
Qed.

Lemma rd_wr_ne {A} (f : HalfEdge → A) u h a h' r :
  r ≠ a → wr u h (Some a) = Ok h' → rd f h' (Some r) = rd f h (Some r).
Proof. intros Hne H. rewrite (rd_wr _ _ _ _ _ _ H). by rewrite decide_False. Qed.

(** The four writes of [splice] when the candidate and its twin are doubly
    linked: the edges written and what is written. *)
Lemma splice_writes h c t p n tp tn h4 :
  rd twin h (Some c) = Ok (Some t) →
  rd prev h (Some c) = Ok (Some p) → rd next h (Some c) = Ok (Some n) →
  rd prev h (Some t) = Ok (Some tp) → rd next h (Some t) = Ok (Some tn) →
  splice h (Some c) = Ok h4 →
  ∃ n' x tn' p' h1 h2 h3,
    wr (set_next (Some tn)) h (Some p) = Ok h1 ∧
    wr (set_prev (Some tp)) h1 (Some n') = Ok h2 ∧
    wr (set_next x) h2 (Some tp) = Ok h3 ∧
    wr (set_prev p') h3 (Some tn') = Ok h4 ∧
    (n' = n ∨ n' = tn) ∧ (tn' = tn ∨ tn' = n').
Proof.
  intros Ht Hp Hn Htp Htn H. unfold splice in H. inv_bind H.
  repeat match goal with
  | Hw : wr _ ?h0 _ = Ok ?h1, Hr : rd twin ?h1 _ = _ |- _ =>
      rewrite (rd_wr_frame twin _ _ _ _ _ Hw (λ _, eq_refl)) in Hr
  end.
  repeat match goal with
  | Hr : rd twin h (Some c) = Ok ?x |- _ =>
      assert (x = Some t) as -> by congruence; clear Hr
  end.
  assert (a = Some p) as -> by congruence.
  assert (a1 = Some tn) as -> by congruence.
  (* the second write *)
  assert (Hn' : a3 = Some n ∨ a3 = Some tn).
  { rewrite (rd_wr _ _ _ _ _ _ E2) in E3. case_decide; [right|left; congruence].
    subst. apply rd_Some in E3 as (e & _ & <-). done. }
  assert (a5 = Some tp) as ->.
  { rewrite (rd_wr_frame prev _ _ _ _ _ E2 (λ _, eq_refl)) in E5. congruence. }
  destruct (wr_Ok_Some _ _ _ _ E6) as [n' ->].
  (* the third write *)
  assert (a8 = Some tp) as ->.
  { rewrite (rd_wr _ _ _ _ _ _ E6) in E8. case_decide.
    - apply rd_Some in E8 as (e & _ & <-). done.
    - rewrite (rd_wr_frame prev _ _ _ _ _ E2 (λ _, eq_refl)) in E8. congruence. }
  assert (a9 = Some n') as ->.
  { rewrite (rd_wr_frame next _ _ _ _ _ E6 (λ _, eq_refl)) in E9. congruence. }
  (* the fourth write *)
  assert (Htn' : a12 = Some tn ∨ a12 = Some n').
  { rewrite (rd_wr _ _ _ _ _ _ E10) in E12. case_decide.
    - right. apply rd_Some in E12 as (e & _ & <-). done.
    - left. rewrite (rd_wr_frame next _ _ _ _ _ E6 (λ _, eq_refl)) in E12.
      rewrite (rd_wr _ _ _ _ _ _ E2) in E12. case_decide; [|congruence].
      apply rd_Some in E12 as (e & _ & <-). done. }
  destruct (wr_Ok_Some _ _ _ _ H) as [tn' ->].
  exists n', (Some n'), tn', a13, a2, a6, a10.
  repeat split; try done.
  - destruct Hn' as [[= ->]|[= ->]]; auto.
  - destruct Htn' as [[= ->]|[= ->]]; auto.
Qed.

Lemma HalfEdge_ext (e e' : HalfEdge) :
  vertex e = vertex e' → next e = next e' → prev e = prev e' → twin e = twin e' →
  polygon e = polygon e' → nodeIndex e = nodeIndex e' → e = e'.
Proof. destruct e, e'. simpl. congruence. Qed.

(** The fields of an edge after a conditional write of [next] or [prev]. *)
Lemma next_if_set_next {P} (d : Decision P) v e :
  next (if d then set_next v e else e) = if d then v else next e.
Proof. by destruct d. Qed.
Lemma next_if_set_prev {P} (d : Decision P) v e :
  next (if d then set_prev v e else e) = next e.
Proof. by destruct d. Qed.
Lemma prev_if_set_prev {P} (d : Decision P) v e :
  prev (if d then set_prev v e else e) = if d then v else prev e.
Proof. by destruct d. Qed.
Lemma prev_if_set_next {P} (d : Decision P) v e :
  prev (if d then set_next v e else e) = prev e.
Proof. by destruct d. Qed.
Lemma other_if_set_next {P} (d : Decision P) v e :
  vertex (if d then set_next v e else e) = vertex e ∧
  twin (if d then set_next v e else e) = twin e ∧
  polygon (if d then set_next v e else e) = polygon e ∧
  nodeIndex (if d then set_next v e else e) = nodeIndex e.
Proof. by destruct d. Qed.
Lemma other_if_set_prev {P} (d : Decision P) v e :
  vertex (if d then set_prev v e else e) = vertex e ∧
  twin (if d then set_prev v e else e) = twin e ∧
  polygon (if d then set_prev v e else e) = polygon e ∧
  nodeIndex (if d then set_prev v e else e) = nodeIndex e.
Proof. by destruct d. Qed.

Lemma wr_succeeds u h a :
  is_Some (hedges h !! a) → ∃ h', wr u h (Some a) = Ok h'.
Proof. intros [e He]. eexists. apply wr_Some. by exists e. Qed.

Lemma wr_dom u h o h' r :
  wr u h o = Ok h' → is_Some (hedges h' !! r) ↔ is_Some (hedges h !! r).
Proof.
  intros H. destruct (wr_Ok_Some _ _ _ _ H) as [a ->].
  rewrite (wr_lookup _ _ _ _ r H). by rewrite fmap_is_Some.
Qed.

Lemma rd_is_Some {A} (f : HalfEdge → A) h a x :
  rd f h (Some a) = Ok x → is_Some (hedges h !! a).
Proof. intros (e & He & _)%rd_Some. by exists e. Qed.

Lemma trial_rollback fuel h c t rs entry h2 poly :
  entry_edge entry = Some c →
  rd twin h (Some c) = Ok (Some t) →
  doubly_linked h c → doubly_linked h t →
  trial h (Some c) = Ok (h2, poly) →
  convex fuel h2 poly = Ok false →
  ∃ A pA, poly = Some A ∧ rd polygon h (Some c) = Ok (Some A) ∧ hpolys h !! A = Some pA ∧
    mergeCandidate fuel entry (h, rs)
      = Ok (mkHeap (hedges h) (<[A := set_edge (Some c) pA]> (hpolys h)), rs).
Proof.
  intros Hentry Ht (p & n & Hp & Hn & Hpn & Hnp) (tp & tn & Htp & Htn & Htpn & Htnp) Htrial Hconv.
  unfold trial in Htrial. inv_bind Htrial. injection Htrial as <- <-.
  rename a into h4, a0 into poly, a1 into p', a2 into h5.
  destruct (splice_writes _ _ _ _ _ _ _ _ Ht Hp Hn Htp Htn E)
    as (n' & x & tn' & p'' & h1 & h2 & h3 & W1 & W2 & W3 & W4 & Hn' & Htn').
  destruct (wrPoly_Ok_Some _ _ _ _ E2) as [A ->].
  apply wrPoly_Some in E2 as (pA & HpA & ->).
  assert (Hpolys : hpolys h4 = hpolys h).
  { rewrite (wr_polys _ _ _ _ W4), (wr_polys _ _ _ _ W3), (wr_polys _ _ _ _ W2).
    apply (wr_polys _ _ _ _ W1). }
  assert (HA : rd polygon h (Some c) = Ok (Some A)).
  { rewrite <- E0.
    rewrite (rd_wr_frame polygon _ _ _ _ _ W4 (λ _, eq_refl)).
    rewrite (rd_wr_frame polygon _ _ _ _ _ W3 (λ _, eq_refl)).
    rewrite (rd_wr_frame polygon _ _ _ _ _ W2 (λ _, eq_refl)).
    by rewrite (rd_wr_frame polygon _ _ _ _ _ W1 (λ _, eq_refl)). }
  exists A, pA. split; [done|]. split; [done|]. rewrite <- Hpolys. split; [done|].
  set (h5 := mkHeap (hedges h4) (<[A:=set_edge p' pA]> (hpolys h4))) in *.
  (* the four writes of [restore] go through *)
  assert (Hdom : ∀ r, is_Some (hedges h5 !! r) ↔ is_Some (hedges h !! r)).
  { intros r. simpl. rewrite (wr_dom _ _ _ _ r W4), (wr_dom _ _ _ _ r W3),
      (wr_dom _ _ _ _ r W2). apply (wr_dom _ _ _ _ r W1). }
  destruct (wr_succeeds (set_next (Some c)) h5 p) as [r1 R1].
  { apply Hdom. eapply rd_is_Some, Hpn. }
  destruct (wr_succeeds (set_prev (Some c)) r1 n) as [r2 R2].
  { apply (wr_dom _ _ _ _ n R1), Hdom. eapply rd_is_Some, Hnp. }
  destruct (wr_succeeds (set_next (Some t)) r2 tp) as [r3 R3].
  { apply (wr_dom _ _ _ _ tp R2), (wr_dom _ _ _ _ tp R1), Hdom. eapply rd_is_Some, Htpn. }
  destruct (wr_succeeds (set_prev (Some t)) r3 tn) as [r4 R4].
  { apply (wr_dom _ _ _ _ tn R3), (wr_dom _ _ _ _ tn R2), (wr_dom _ _ _ _ tn R1), Hdom.
    eapply rd_is_Some, Htnp. }
  assert (Htw : ∀ hx, rd twin hx (Some c) = rd twin h (Some c) →
                rd twin hx (Some c) = Ok (Some t)) by (intros hx ->; exact Ht).
  assert (Ht5 : rd twin h5 (Some c) = rd twin h (Some c)).
  { unfold rd, deref. simpl. fold (deref h4 (Some c)). fold (rd twin h4 (Some c)).
    rewrite (rd_wr_frame twin _ _ _ _ _ W4 (λ _, eq_refl)).
    rewrite (rd_wr_frame twin _ _ _ _ _ W3 (λ _, eq_refl)).
    rewrite (rd_wr_frame twin _ _ _ _ _ W2 (λ _, eq_refl)).
    by rewrite (rd_wr_frame twin _ _ _ _ _ W1 (λ _, eq_refl)). }
  assert (Ht2 : rd twin r2 (Some c) = Ok (Some t)).
  { rewrite (rd_wr_frame twin _ _ _ _ _ R2 (λ _, eq_refl)).
    rewrite (rd_wr_frame twin _ _ _ _ _ R1 (λ _, eq_refl)). by apply Htw. }
  assert (Ht3 : rd twin r3 (Some c) = Ok (Some t)).
  { by rewrite (rd_wr_frame twin _ _ _ _ _ R3 (λ _, eq_refl)). }
  (* the store of edges is the one before the splice *)
  assert (Hedges : hedges r4 = hedges h).
  { apply map_eq. intros r.
    rewrite (wr_lookup _ _ _ _ r R4), (wr_lookup _ _ _ _ r R3),
      (wr_lookup _ _ _ _ r R2), (wr_lookup _ _ _ _ r R1). simpl.
    rewrite (wr_lookup _ _ _ _ r W4), (wr_lookup _ _ _ _ r W3),
      (wr_lookup _ _ _ _ r W2), (wr_lookup _ _ _ _ r W1).
    destruct (hedges h !! r) as [e|] eqn:He; simpl; [|done]. f_equal.
    assert (Fp : r = p → next e = Some c).
    { intros ->. apply rd_Some in Hpn as (e' & He' & <-). congruence. }
    assert (Fn : r = n → prev e = Some c).
    { intros ->. apply rd_Some in Hnp as (e' & He' & <-). congruence. }
    assert (Ftp : r = tp → next e = Some t).
    { intros ->. apply rd_Some in Htpn as (e' & He' & <-). congruence. }
    assert (Ftn : r = tn → prev e = Some t).
    { intros ->. apply rd_Some in Htnp as (e' & He' & <-). congruence. }
    clear - Fp Fn Ftp Ftn Hn' Htn'.
    apply HalfEdge_ext;
      repeat first
        [ rewrite (proj1 (other_if_set_next _ _ _))
        | rewrite (proj1 (other_if_set_prev _ _ _))
        | rewrite (proj1 (proj2 (other_if_set_next _ _ _)))
        | rewrite (proj1 (proj2 (other_if_set_prev _ _ _)))
        | rewrite (proj1 (proj2 (proj2 (other_if_set_next _ _ _))))
        | rewrite (proj1 (proj2 (proj2 (other_if_set_prev _ _ _))))
        | rewrite (proj2 (proj2 (proj2 (other_if_set_next _ _ _))))
        | rewrite (proj2 (proj2 (proj2 (other_if_set_prev _ _ _))))
        | rewrite next_if_set_next | rewrite next_if_set_prev
        | rewrite prev_if_set_prev | rewrite prev_if_set_next ];
      try done.
    - repeat case_decide; try done; symmetry; auto.
    - destruct Hn' as [->| ->]; destruct Htn' as [->| ->];
        repeat case_decide; try done; symmetry; auto. }
  unfold mergeCandidate. rewrite Hentry.
  unfold readCache. rewrite Hp; simpl. rewrite Hn; simpl. rewrite Ht; simpl.
  rewrite Htp; simpl. rewrite Htn; simpl.
  unfold trial. rewrite E; simpl. rewrite E0; simpl. rewrite E1; simpl.
  assert (Hw5 : wrPoly (set_edge p') h4 (Some A) = Ok h5).
  { apply wrPoly_Some. by exists pA. }
  rewrite Hw5; simpl. rewrite Hconv; simpl.
  unfold restore. simpl. rewrite R1; simpl. rewrite R2; simpl. rewrite Ht2; simpl.
  rewrite R3; simpl. rewrite Ht3; simpl. rewrite R4; simpl.
  assert (Hp4 : hpolys r4 = hpolys h5).
  { rewrite (wr_polys _ _ _ _ R4), (wr_polys _ _ _ _ R3), (wr_polys _ _ _ _ R2).
    apply (wr_polys _ _ _ _ R1). }
  unfold wrPoly, derefPoly. rewrite Hp4. simpl. rewrite lookup_insert_eq. simpl.
  rewrite Hedges, insert_insert_eq. done.
Qed.

(** C2, amended: when the candidate and its twin are doubly linked and the
    spliced cycle is not convex, the round returns with every edge of the
    store as it was before the splice and with the same regions; the [edge] of
    the candidate's polygon is the candidate, and nothing else of the
    polygons has changed. *)
Theorem rollback_restores_linkage fuel h rs entry c t h2 poly :
  entry_edge entry = Some c →
  rd twin h (Some c) = Ok (Some t) →
  doubly_linked h c → doubly_linked h t →
  trial h (Some c) = Ok (h2, poly) →
  convex fuel h2 poly = Ok false →
  ∃ h' A, mergeCandidate fuel entry (h, rs) = Ok (h', rs) ∧
    hedges h' = hedges h ∧
    poly = Some A ∧
    rdPoly edge h' (Some A) = Ok (Some c) ∧
    rdPoly centroid h' (Some A) = rdPoly centroid h (Some A) ∧
    ∀ P, P ≠ A → hpolys h' !! P = hpolys h !! P.
Proof.
  intros Hentry Ht Hc Htw Htrial Hconv.
  destruct (trial_rollback fuel h c t rs entry h2 poly Hentry Ht Hc Htw Htrial Hconv)
    as (A & pA & -> & HA & HpA & Hm).
  eexists _, A. split; [exact Hm|]. simpl. repeat split.
  - apply rdPoly_Some. eexists. simpl. rewrite lookup_insert_eq. done.
  - unfold rdPoly, derefPoly. simpl. rewrite lookup_insert_eq, HpA. done.
  - intros P HP. by rewrite lookup_insert_ne.
Qed.

(** ** The navigation graph *)

Lemma hasEdge_elem g i j :
  hasEdge g i j = true ↔ ∃ e, e ∈ edges g ∧ from e = i ∧ to e = j.
Proof.
  unfold hasEdge. rewrite existsb_exists. split.
  - intros (e & He & Hb). apply andb_prop in Hb as [H1 H2].
    apply bool_decide_eq_true in H1, H2. exists e.
    split; [by apply list_elem_of_In|done].
  - intros (e & He & H1 & H2). exists e. split; [by apply list_elem_of_In|].
    apply andb_true_intro. split; by apply bool_decide_eq_true.
Qed.

(** What the second loop of [_buildGraph] keeps: the graph is a digraph and
    the cost of every edge is the distance between the nodes at its ends. *)
Definition costs_ok (g : Graph) : Prop :=
  digraph g = true ∧ ∀ e, e ∈ edges g → navEdge g (from e) (to e).

Lemma navEdge_elem g e :
  costs_ok g → e ∈ edges g → navEdge g (from e) (to e).
Proof. intros [_ H]. apply H. Qed.

Lemma addNavEdge_spec g i j g' :
  costs_ok g → addNavEdge i j g = Ok g' →
  costs_ok g' ∧ nodes g' = nodes g ∧ (∀ e, e ∈ edges g → e ∈ edges g') ∧
  (i ≠ j → navEdge g' i j).
Proof.
  intros [Hd Hc] H. unfold addNavEdge in H.
  destruct (decide (i ≠ j)) as [Hne|Heq].
  - destruct (hasEdge g i j) eqn:Hhas; simpl in H.
    + injection H as <-. repeat split; try done.
      intros _. apply hasEdge_elem in Hhas as (e & He & <- & <-). by apply Hc.
    + inv_bind H. injection H as <-. unfold addEdge. rewrite Hd. simpl.
      assert (Hnew : navEdge (mkGraph true (nodes g) (edges g ++ [mkNavEdge i j
                 (distanceTo (position a) (position a0))])) i j).
      { exists (mkNavEdge i j (distanceTo (position a) (position a0))), a, a0.
        simpl. split; [apply elem_of_app; right; by left|done]. }
      repeat split; simpl; try done.
      * intros e He. apply elem_of_app in He as [He|He].
        -- destruct (Hc e He) as (e' & ni & nj & He' & Hf & Ht & Hi & Hj & Hcost).
           exists e', ni, nj. simpl. split; [apply elem_of_app; by left|done].
        -- apply list_elem_of_singleton in He as ->. exact Hnew.
      * intros e He. apply elem_of_app. by left.
  - injection H as <-. repeat split; try done.
Qed.

(** A state of the second loop: a graph on the nodes [ns] that has the right
    costs and holds the edges of [g0]. *)
Definition edges_grow (ns : list NavNode) (g0 g : Graph) : Prop :=
  costs_ok g ∧ nodes g = ns ∧ ∀ e, e ∈ edges g0 → e ∈ edges g.

Lemma edges_grow_refl g : costs_ok g → edges_grow (nodes g) g g.
Proof. intros H. split; [done|]. by split. Qed.

Lemma edges_grow_navEdge ns g0 g i j :
  nodes g0 = ns → edges_grow ns g0 g → navEdge g0 i j → navEdge g i j.
Proof.
  intros Hn (_ & Hns & Hsub) (e & ni & nj & He & Hf & Ht & Hi & Hj & Hc).
  exists e, ni, nj. unfold getNode in *. rewrite Hns, <- Hn. split; [by apply Hsub|done].
Qed.

Lemma edges_grow_trans ns g0 g1 g2 :
  nodes g1 = ns → edges_grow ns g0 g1 → edges_grow ns g1 g2 → edges_grow ns g0 g2.
Proof.
  intros _ (_ & _ & H01) (Hc & Hn & H12). split; [done|]. split; [done|].
  intros e He. by apply H12, H01.
Qed.

Lemma addNavEdges_inner i indices g g' :
  costs_ok g → foldM (λ to_ g, addNavEdge i to_ g) indices g = Ok g' →
  edges_grow (nodes g) g g' ∧ ∀ j, j ∈ indices → i ≠ j → navEdge g' i j.
Proof.
  revert g. induction indices as [|j0 l IH]; intros g Hc H; simpl in H.
  - injection H as <-. split; [by apply edges_grow_refl|]. intros j Hj. by apply elem_of_nil in Hj.
  - inv_bind H.
    destruct (addNavEdge_spec _ _ _ _ Hc E) as (Hc1 & Hn1 & Hsub1 & Hnew).
    destruct (IH _ Hc1 H) as (Hg & Hall).
    assert (Hg1 : edges_grow (nodes g) g a) by done.
    rewrite Hn1 in Hg.
    split; [by eapply edges_grow_trans|].
    intros j Hj Hne. apply elem_of_cons in Hj as [->|Hj]; [|by apply Hall].
    eapply edges_grow_navEdge; [exact Hn1|exact Hg|by apply Hnew].
Qed.

Lemma addNavEdges_outer froms indices g g' :
  costs_ok g →
  foldM (λ from_ g, foldM (λ to_ g, addNavEdge from_ to_ g) indices g) froms g = Ok g' →
  edges_grow (nodes g) g g' ∧
  ∀ i j, i ∈ froms → j ∈ indices → i ≠ j → navEdge g' i j.
Proof.
  revert g. induction froms as [|i0 l IH]; intros g Hc H; simpl in H.
  - injection H as <-. split; [by apply edges_grow_refl|]. intros i j Hi.
    by apply elem_of_nil in Hi.
  - inv_bind H.
    destruct (addNavEdges_inner _ _ _ _ Hc E) as (Hg1 & Hall1).
    assert (Hc1 : costs_ok a) by apply Hg1.
    assert (Hn1 : nodes a = nodes g) by apply Hg1.
    destruct (IH _ Hc1 H) as (Hg & Hall).
    rewrite Hn1 in Hg.
    split; [by eapply edges_grow_trans|].
    intros i j Hi Hj Hne. apply elem_of_cons in Hi as [->|Hi]; [|by apply Hall].
    eapply edges_grow_navEdge; [exact Hn1|exact Hg|by apply Hall1].
Qed.

Lemma addNavEdges_spec indices g g' :
  costs_ok g → addNavEdges indices g = Ok g' →
  edges_grow (nodes g) g g' ∧
  ∀ i j, i ∈ indices → j ∈ indices → i ≠ j → navEdge g' i j.
Proof. apply addNavEdges_outer. Qed.

Lemma addNavEdges_all lists g g' :
  costs_ok g → foldM addNavEdges lists g = Ok g' →
  edges_grow (nodes g) g g' ∧
  ∀ indices i j, indices ∈ lists → i ∈ indices → j ∈ indices → i ≠ j → navEdge g' i j.
Proof.
  revert g. induction lists as [|l0 ls IH]; intros g Hc H; simpl in H.
  - injection H as <-. split; [by apply edges_grow_refl|]. intros l i j Hl.
    by apply elem_of_nil in Hl.
  - inv_bind H.
    destruct (addNavEdges_spec _ _ _ Hc E) as (Hg1 & Hall1).
    assert (Hc1 : costs_ok a) by apply Hg1.
    assert (Hn1 : nodes a = nodes g) by apply Hg1.
    destruct (IH _ Hc1 H) as (Hg & Hall).
    rewrite Hn1 in Hg.
    split; [by eapply edges_grow_trans|].
    intros l i j Hl Hi Hj Hne. apply elem_of_cons in Hl as [->|Hl]; [|by eapply Hall].
    eapply edges_grow_navEdge; [exact Hn1|exact Hg|by apply Hall1].
Qed.

Lemma addNode_edges g n g' :
  addNode g n = Ok g' → edges g' = edges g ∧ digraph g' = digraph g.
Proof.
  unfold addNode. destruct (hasNode g (index n)); [done|]. by intros [= <-].
Qed.

Lemma gatherIndices_body_spec h e g acc g' acc' :
  gatherIndices_body h e (g, acc) = Ok (g', acc') →
  edges g' = edges g ∧ digraph g' = digraph g ∧
  (∀ i, i ∈ acc → i ∈ acc') ∧
  (∀ t i, rd twin h e = Ok (Some t) →
          rd nodeIndex h e = Ok i ∨ rd nodeIndex h (Some t) = Ok i → i ∈ acc').
Proof.
  unfold gatherIndices_body. intros H. inv_bind H.
  destruct (decide (a ≠ None)) as [Hsome|Hnone].
  - inv_bind H.
    assert (Hacc : acc' = acc ++ [a0; a2] ∧ edges g' = edges g ∧ digraph g' = digraph g).
    { destruct (negb (hasNode g a3)).
      - inv_bind H. injection H as <- <-.
        match goal with Ha : addNode _ _ = Ok _ |- _ => by destruct (addNode_edges _ _ _ Ha) end.
      - by injection H as <- <-. }
    destruct Hacc as (-> & He & Hd). repeat split; try done.
    + intros i Hi. apply elem_of_app. by left.
    + intros t i Ht Hi. apply elem_of_app. right.
      assert (a1 = Some t) as -> by congruence.
      destruct Hi as [Hi|Hi].
      * assert (i = a0) as -> by congruence. left.
      * assert (i = a2) as -> by congruence. right. left.
  - injection H as <- <-. repeat split; try done.
    intros t i Ht. apply dec_stable in Hnone. congruence.
Qed.

Lemma gatherIndices_fold h l g acc g' acc' :
  foldM (gatherIndices_body h) l (g, acc) = Ok (g', acc') →
  edges g' = edges g ∧ digraph g' = digraph g ∧
  (∀ i, i ∈ acc → i ∈ acc') ∧
  (∀ e t i, e ∈ l → rd twin h e = Ok (Some t) →
            rd nodeIndex h e = Ok i ∨ rd nodeIndex h (Some t) = Ok i → i ∈ acc').
Proof.
  revert g acc. induction l as [|e0 l IH]; intros g acc H; simpl in H.
  - injection H as <- <-. repeat split; try done. intros e t i He. by apply elem_of_nil in He.
  - inv_bind H. destruct a as [g1 acc1].
    destruct (gatherIndices_body_spec _ _ _ _ _ _ E) as (He1 & Hd1 & Hsub1 & Hnew1).
    destruct (IH _ _ H) as (He2 & Hd2 & Hsub2 & Hnew2).
    repeat split; try congruence.
    + intros i Hi. by apply Hsub2, Hsub1.
    + intros e t i He Ht Hi. apply elem_of_cons in He as [->|He].
      * eapply Hsub2, Hnew1; eauto.
      * eapply Hnew2; eauto.
Qed.

Lemma gatherIndices_spec fuel h region g lists g' lists' :
  gatherIndices fuel h region (g, lists) = Ok (g', lists') →
  edges g' = edges g ∧ digraph g' = digraph g ∧
  ∃ indices, lists' = lists ++ [indices] ∧ ∀ i, exposes h region i → i ∈ indices.
Proof.
  unfold gatherIndices. intros H. inv_bind H. destruct a0 as [g1 indices].
  injection H as <- <-.
  destruct (doWhile_const _ _ _ _ _ _ _ E0) as (start & l & Hs & Hc & Hf).
  assert (start = a) as -> by congruence.
  destruct (gatherIndices_fold _ _ _ _ _ _ Hf) as (He & Hd & _ & Hall).
  repeat split; try done. exists indices. split; [done|].
  intros i (e & t & (e0 & He0 & Hon) & Ht & Hi).
  assert (e0 = a) as -> by congruence.
  eapply Hall; eauto. by eapply chain_onCycle.
Qed.

Lemma gatherIndices_all fuel h rs g lists g' lists' :
  foldM (gatherIndices fuel h) rs (g, lists) = Ok (g', lists') →
  edges g' = edges g ∧ digraph g' = digraph g ∧
  (∀ l, l ∈ lists → l ∈ lists') ∧
  ∀ region, region ∈ rs →
    ∃ indices, indices ∈ lists' ∧ ∀ i, exposes h region i → i ∈ indices.
Proof.
  revert g lists. induction rs as [|r rs IH]; intros g lists H; simpl in H.
  - injection H as <- <-. repeat split; try done. intros r Hr. by apply elem_of_nil in Hr.
  - inv_bind H. destruct a as [g1 lists1].
    destruct (gatherIndices_spec _ _ _ _ _ _ _ E) as (He1 & Hd1 & indices & -> & Hall1).
    destruct (IH _ _ H) as (He2 & Hd2 & Hsub2 & Hall2).
    repeat split; try congruence.
    + intros l Hl. apply Hsub2, elem_of_app. by left.
    + intros region Hr. apply elem_of_cons in Hr as [->|Hr]; [|by apply Hall2].
      exists indices. split; [|done]. apply Hsub2, elem_of_app. right. by left.
Qed.

(** [_buildGraph] on a digraph without edges: any two distinct indices a
    region exposes are joined by an edge of the right cost. *)
Lemma _buildGraph_spec fuel h rs g g' :
  digraph g = true → edges g = [] →
  _buildGraph fuel h rs g = Ok g' →
  ∀ region i j, region ∈ rs → exposes h region i → exposes h region j → i ≠ j →
    navEdge g' i j.
Proof.
  intros Hd He H. unfold _buildGraph in H. inv_bind H. destruct a as [g1 lists].
  destruct (gatherIndices_all _ _ _ _ _ _ _ E) as (He1 & Hd1 & _ & Hall).
  assert (Hc : costs_ok g1).
  { split; [congruence|]. rewrite He1, He. intros e Hin. by apply elem_of_nil in Hin. }
  destruct (addNavEdges_all _ _ _ Hc H) as (_ & Hedges).
  intros region i j Hr Hi Hj Hne.
  destruct (Hall region Hr) as (indices & Hin & Hexp).
  eapply Hedges; eauto.
Qed.

(** C3: after [fromPolygons] every two distinct node indices exposed by a
    region are joined, in both directions, by an edge of the graph whose cost
    is the distance between the positions of the two nodes. *)
Theorem fromPolygons_region_connected fuel h nav polygons h' nav' region i j :
  digraph (graph nav) = true →
  fromPolygons fuel h nav polygons = Ok (h', nav') →
  region ∈ regions nav' →
  exposes h' region i → exposes h' region j → i ≠ j →
  navEdge (graph nav') i j ∧ navEdge (graph nav') j i.
Proof.
  intros Hd H Hr Hi Hj Hne. unfold fromPolygons in H. inv_bind H.
  destruct a as [[h1 rs] sortedEdgeList]. inv_bind H. destruct a as [h2 rs1].
  inv_bind H. injection H as <- <-. simpl in *.
  match goal with Hg : _buildGraph _ _ _ _ = Ok _ |- _ =>
    split; eapply (_buildGraph_spec _ _ _ (graph_clear (graph nav)) _ Hd eq_refl Hg); eauto
  end.
Qed.

End BuilderFacts.

(** * The builder on the example meshes *)

Section BuilderExamples.

#[local] Existing Instance Rat.geometry.
Import Examples.

Let crn := build corner [0; 1; 2].

Lemma corner_built : fromPolygons 64 corner emptyNavMesh [0; 1; 2] = Ok (heapOf crn, navOf crn).
Proof. apply built_ok. vm_compute. reflexivity. Qed.

(** The square of the corner mesh exposes node 0 at its edge 2 and node 1 at
    its edge 1; the graph joins them by edges of cost 1. *)
Lemma fromPolygons_region_connected_witness :
  digraph (graph emptyNavMesh) = true ∧
  fromPolygons 64 corner emptyNavMesh [0; 1; 2] = Ok (heapOf crn, navOf crn) ∧
  0 ∈ regions (navOf crn) ∧
  exposes (heapOf crn) 0 (Some 0%Z) ∧
  exposes (heapOf crn) 0 (Some 1%Z) ∧
  navEdge (graph (navOf crn)) (Some 0%Z) (Some 1%Z) ∧
  navEdge (graph (navOf crn)) (Some 1%Z) (Some 0%Z).
Proof.
  assert (H0 : 0 ∈ regions (navOf crn)) by (vm_compute; left).
  assert (H1 : exposes (heapOf crn) 0 (Some 0%Z)).
  { exists (Some 2), 4. split; [|split; [vm_compute; reflexivity|left; vm_compute; reflexivity]].
    exists (Some 2). split; [vm_compute; reflexivity|constructor]. }
  assert (H2 : exposes (heapOf crn) 0 (Some 1%Z)).
  { exists (Some 1), 8. split; [|split; [vm_compute; reflexivity|left; vm_compute; reflexivity]].
    exists (Some 2). split; [vm_compute; reflexivity|].
    apply (onCycle_next _ _ (Some 3)); [vm_compute; reflexivity|].
    apply (onCycle_next _ _ (Some 0)); [vm_compute; reflexivity|].
    apply (onCycle_next _ _ (Some 1)); [vm_compute; reflexivity|]. constructor. }
  split; [reflexivity|]. split; [exact corner_built|].
  split; [exact H0|]. split; [exact H1|]. split; [exact H2|].
  apply (fromPolygons_region_connected 64 corner emptyNavMesh [0; 1; 2] _ _ 0
           (Some 0%Z) (Some 1%Z) eq_refl corner_built H0 H1 H2).
  discriminate.
Defined.

End BuilderExamples.

(** * The builder on the example meshes, continued *)

Section RegionExamples.

#[local] Existing Instance Rat.geometry.
Import Examples.

Lemma chevron_setup :
  setupEdges 64 chevron [] [0; 1] = Ok (chevronLinked, [0; 1], [chevronEntry]).
Proof.
  etransitivity; [apply (get_ok (emptyHeap, [], [])); vm_compute; reflexivity|].
  f_equal.
Qed.

Lemma chevron_trial : trial chevronLinked (Some 1) = Ok (chevronTrial.1, Some 0).
Proof.
  etransitivity; [apply (get_ok (emptyHeap, None)); vm_compute; reflexivity|].
  f_equal.
Qed.

Lemma chevron_not_convex : convex 64 chevronTrial.1 (Some 0) = Ok false.
Proof. vm_compute. reflexivity. Qed.

Lemma chevron_merged :
  mergeCandidate 64 chevronEntry (chevronLinked, [0; 1]) = Ok chevronMerged.
Proof. apply get_ok. vm_compute. reflexivity. Qed.

(** C2 as claimed fails on the chevron: the two triangles are not merged, and
    after the rollback the [edge] of polygon 0 is edge 1, the candidate; it
    was edge 0 before. *)
Lemma rollback_moves_polygon_edge :
  rdPoly edge chevronLinked (Some 0) = Ok (Some 0) ∧
  rdPoly edge chevronMerged.1 (Some 0) = Ok (Some 1) ∧
  ¬ rollback_exact 64 chevronEntry chevronLinked [0; 1].
Proof.
  assert (H0 : rdPoly edge chevronLinked (Some 0) = Ok (Some 0)) by (vm_compute; reflexivity).
  assert (H1 : rdPoly edge chevronMerged.1 (Some 0) = Ok (Some 1)) by (vm_compute; reflexivity).
  split; [exact H0|]. split; [exact H1|].
  intros Hclaim.
  destruct (Hclaim chevronTrial.1 (Some 0) chevronMerged.1 chevronMerged.2
              chevron_trial chevron_not_convex) as (_ & Hedge & _).
  - transitivity (Ok chevronMerged); [exact chevron_merged|by destruct chevronMerged].
  - discriminate (eq_trans (eq_sym H1) (eq_trans Hedge H0)).
Qed.

Lemma rollback_restores_linkage_witness :
  entry_edge chevronEntry = Some 1 ∧
  rd twin chevronLinked (Some 1) = Ok (Some 3) ∧
  doubly_linked chevronLinked 1 ∧ doubly_linked chevronLinked 3 ∧
  trial chevronLinked (Some 1) = Ok (chevronTrial.1, Some 0) ∧
  convex 64 chevronTrial.1 (Some 0) = Ok false ∧
  ∃ h' A, mergeCandidate 64 chevronEntry (chevronLinked, [0; 1]) = Ok (h', [0; 1]) ∧
    hedges h' = hedges chevronLinked ∧
    Some 0 = Some A ∧
    rdPoly edge h' (Some A) = Ok (Some 1) ∧
    rdPoly centroid h' (Some A) = rdPoly centroid chevronLinked (Some A) ∧
    ∀ P, P ≠ A → hpolys h' !! P = hpolys chevronLinked !! P.
Proof.
  assert (Ht : rd twin chevronLinked (Some 1) = Ok (Some 3)) by (vm_compute; reflexivity).
  assert (Hc : doubly_linked chevronLinked 1).
  { exists 0, 2. repeat split; vm_compute; reflexivity. }
  assert (Htw : doubly_linked chevronLinked 3).
  { exists 5, 4. repeat split; vm_compute; reflexivity. }
  split; [reflexivity|]. split; [exact Ht|]. split; [exact Hc|]. split; [exact Htw|].
  split; [exact chevron_trial|]. split; [exact chevron_not_convex|].
  exact (rollback_restores_linkage 64 chevronLinked [0; 1] chevronEntry 1 3 _ _
           eq_refl Ht Hc Htw chevron_trial chevron_not_convex).
Defined.

Let drt := build dart [0].

Lemma dart_built : fromPolygons 64 dart emptyNavMesh [0] = Ok (heapOf drt, navOf drt).
Proof. apply built_ok. vm_compute. reflexivity. Qed.

(** C1 as claimed fails on the dart: a single polygon with a reflex corner
    has nothing to be merged with, stays a region and is not convex. *)
Lemma dart_not_convex :
  0 ∈ regions (navOf drt) ∧
  convex 64 (heapOf drt) (Some 0) = Ok false ∧
  ¬ regions_convex 64 dart emptyNavMesh [0].
Proof.
  assert (H0 : 0 ∈ regions (navOf drt)) by (vm_compute; left).
  assert (H1 : convex 64 (heapOf drt) (Some 0) = Ok false) by (vm_compute; reflexivity).
  split; [exact H0|]. split; [exact H1|].
  intros Hclaim. specialize (Hclaim _ _ dart_built 0 H0).
  discriminate (eq_trans (eq_sym Hclaim) H1).
Qed.

End RegionExamples.

(** * The twin search *)

Section TwinSearch.
Context {G : Geometry}.

(** ** The list of all edges *)

Lemma chain_elem_onCycle h e l stop x :
  chain h (e :: l) stop → x ∈ e :: l → onCycle h e x.
Proof.
  revert e. induction l as [|y l IH]; intros e Hc Hx.
  - apply list_elem_of_singleton in Hx as ->. constructor.
  - simpl in Hc. destruct Hc as (Hn & _ & Hc).
    apply elem_of_cons in Hx as [->|Hx]; [constructor|].
    eapply onCycle_next; [exact Hn|]. by apply IH.
Qed.

Lemma collectEdges_spec fuel h poly l0 rs0 l rs :
  collectEdges fuel h poly (l0, rs0) = Ok (l, rs) →
  rs = set_add poly rs0 ∧
  ∀ e, e ∈ l ↔ e ∈ l0 ∨ boundary h poly e.
Proof.
  unfold collectEdges. intros H. inv_bind H. injection H as <- <-. simpl in *.
  split; [done|].
  destruct (doWhile_const _ _ _ _ _ _ _ E0) as (start & vis & Hs & Hc & Hf).
  assert (start = a) as -> by congruence.
  assert (Hl : a0 = l0 ++ a :: vis).
  { clear - Hf. revert Hf. generalize (a :: vis) as v. intros v. revert l0.
    induction v as [|x v IH]; intros l0 H; simpl in H.
    - injection H as <-. by rewrite app_nil_r.
    - rewrite (IH _ H). by rewrite <- app_assoc. }
  subst a0. intros e. rewrite elem_of_app. split.
  - intros [?|He]; [by left|right]. exists a. split; [done|].
    by eapply chain_elem_onCycle.
  - intros [?|(e0 & He0 & Hon)]; [by left|right].
    assert (e0 = a) as -> by congruence. by eapply chain_onCycle.
Qed.

Lemma collectEdges_all fuel h polygons l0 rs0 l rs :
  foldM (collectEdges fuel h) polygons (l0, rs0) = Ok (l, rs) →
  rs = foldl (λ rs p, set_add p rs) rs0 polygons ∧
  ∀ e, e ∈ l ↔ e ∈ l0 ∨ inputEdge h polygons e.
Proof.
  revert l0 rs0. induction polygons as [|p ps IH]; intros l0 rs0 H; simpl in H.
  - injection H as <- <-. split; [done|]. intros e. split; [by left|].
    intros [?|(p & Hp & _)]; [done|]. by apply elem_of_nil in Hp.
  - inv_bind H. destruct a as [l1 rs1].
    destruct (collectEdges_spec _ _ _ _ _ _ _ E) as (-> & Hl1).
    destruct (IH _ _ H) as (-> & Hl). split; [done|].
    intros e. rewrite Hl, Hl1. split.
    + intros [[?|Hb]|(q & Hq & Hb)]; [by left| |].
      * right. exists p. split; [by left|done].
      * right. exists q. split; [by right|done].
    + intros [?|(q & Hq & Hb)]; [by left; left|].
      apply elem_of_cons in Hq as [->|Hq]; [left; by right|right; by exists q].
Qed.

Lemma rd_const {A} (f : HalfEdge → A) h a x :
  is_Some (hedges h !! a) → (∀ e, f e = x) → rd f h (Some a) = Ok x.
Proof. intros [e He] Hf. apply rd_Some. by exists e. Qed.

Lemma wr_is_Some u h a h' : wr u h (Some a) = Ok h' → is_Some (hedges h !! a).
Proof. intros (e & He & _)%wr_Some. by exists e. Qed.

(** ** Twin discovery *)

Lemma rev_sym h e0 e1 : equals_sym → rev h e0 e1 → rev h e1 e0.
Proof.
  intros Hs (f0 & t1 & t0 & f1 & H1 & H2 & H3 & H4 & H5 & H6).
  exists f1, t0, t1, f0. repeat split; auto.
Qed.

Lemma rev_parallel h e0 e1 e2 :
  equals_sym → equals_trans → rev h e0 e1 → rev h e1 e2 → parallel h e0 e2.
Proof.
  intros Hs Ht (f0 & t1 & t0 & f1 & H1 & H2 & H3 & H4 & H5 & H6)
    (f1' & t2 & t1' & f2 & K1 & K2 & K3 & K4 & K5 & K6).
  assert (f1' = f1) as -> by congruence. assert (t1' = t1) as -> by congruence.
  exists f0, f2, t0, t2. repeat split; eauto.
Qed.

Lemma findTwin_spec h edge0 l edge1 :
  findTwin h edge0 l = Ok (Some edge1) → edge1 ∈ l ∧ rev h edge0 edge1.
Proof.
  induction l as [|x l IH]; simpl; [done|]. intros H. inv_bind H.
  destruct (equals a a0) eqn:Heq1.
  - inv_bind H. destruct (equals a1 a2) eqn:Heq2.
    + injection H as <-. split; [by left|]. by exists a, a0, a1, a2.
    + destruct (IH H) as [? ?]. split; [by right|done].
  - destruct (IH H) as [? ?]. split; [by right|done].
Qed.

(** Two stores that differ in the [twin] references only. *)
Definition same_but_twin (h h' : Heap) : Prop :=
  hpolys h' = hpolys h ∧
  ∀ r, rd vertex h' r = rd vertex h r ∧ rd next h' r = rd next h r ∧
       rd prev h' r = rd prev h r ∧ rd polygon h' r = rd polygon h r ∧
       rd nodeIndex h' r = rd nodeIndex h r.

Lemma same_but_twin_refl h : same_but_twin h h.
Proof. by split. Qed.

Lemma same_but_twin_wr h0 h v o h' :
  same_but_twin h0 h → wr (set_twin v) h o = Ok h' → same_but_twin h0 h'.
Proof.
  intros [Hp Hr] H. split; [by rewrite (wr_polys _ _ _ _ H)|].
  intros r. destruct (Hr r) as (H1 & H2 & H3 & H4 & H5).
  rewrite <- H1, <- H2, <- H3, <- H4, <- H5.
  repeat split; by apply (rd_wr_frame _ _ _ _ _ _ H).
Qed.

Lemma rev_same h0 h e0 e1 : same_but_twin h0 h → rev h e0 e1 ↔ rev h0 e0 e1.
Proof.
  intros [_ Hr]. unfold rev, edge_from, edge_to.
  assert (Hto : ∀ e, (rd next h e ≫= rd vertex h) = (rd next h0 e ≫= rd vertex h0)).
  { intros e. destruct (Hr e) as (_ & -> & _). destruct (rd next h0 e); simpl; [|done].
    apply Hr. }
  rewrite !Hto. rewrite !(proj1 (Hr _)). done.
Qed.

Section Linking.

Hypothesis Hsym : equals_sym.
Hypothesis Htrans : equals_trans.

Variable h0 : Heap.
Variable L : list (option ref).

(** No two distinct edges of the list are parallel. *)
Hypothesis Hmanifold :
  ∀ r r', Some r ∈ L → Some r' ∈ L → r ≠ r' → ¬ parallel h0 (Some r) (Some r').

(** What the loop of the twin search keeps: the store differs from the first
    one in twins only, and the twin of an edge of the list is an edge of the
    list that has the edge as twin and passes the test with it. *)
Definition twins_ok (h : Heap) : Prop :=
  same_but_twin h0 h ∧
  ∀ e t, e ∈ L → rd twin h e = Ok (Some t) →
    Some t ∈ L ∧ rd twin h (Some t) = Ok e ∧ rev h0 e (Some t).

Lemma linkTwin_twins_ok edge0 h sorted h' sorted' :
  edge0 ∈ L → twins_ok h →
  linkTwin L edge0 (h, sorted) = Ok (h', sorted') →
  twins_ok h'.
Proof.
  intros HL [Hsame Hs] H. unfold linkTwin in H. inv_bind H.
  destruct (decide (a ≠ None)) as [?|Hnone]; [by injection H as <- <-|].
  apply dec_stable in Hnone. subst a. inv_bind H.
  destruct a as [edge1|]; [|by injection H as <- <-].
  inv_bind H. injection H as <- <-. rename a into h1, a0 into h2.
  destruct (findTwin_spec _ _ _ _ E0) as [HL1 Hrev].
  apply (rev_same _ _ _ _ Hsame) in Hrev.
  destruct (wr_Ok_Some _ _ _ _ E1) as [r0 ->].
  destruct (wr_Ok_Some _ _ _ _ E2) as [r1 ->].
  split; [eapply same_but_twin_wr, E2; eapply same_but_twin_wr, E1; done|].
  assert (Htw2 : ∀ r, rd twin h2 (Some r) =
            if decide (r = r1) then Ok (Some r0)
            else if decide (r = r0) then Ok (Some r1) else rd twin h (Some r)).
  { intros r. rewrite (rd_wr _ _ _ _ _ _ E2). case_decide.
    - subst. apply rd_const; [by eapply wr_is_Some|done].
    - rewrite (rd_wr _ _ _ _ _ _ E1). case_decide; [|done].
      subst. apply rd_const; [by eapply wr_is_Some|done]. }
  intros e t He Ht. destruct (rd_Ok_Some _ _ _ _ Ht) as [r ->].
  rewrite Htw2 in Ht. rewrite Htw2.
  destruct (decide (r = r1)) as [->|Hr1].
  - injection Ht as <-. split; [done|]. split.
    + case_decide; [by subst|]. by rewrite decide_True.
    + by apply rev_sym.
  - destruct (decide (r = r0)) as [->|Hr0].
    + injection Ht as <-. split; [done|]. split; [by rewrite decide_True|done].
    + destruct (Hs _ _ He Ht) as (HtL & Htt & Hrt).
      split; [done|]. split; [|done].
      destruct (decide (t = r1)) as [->|Ht1].
      * (* edge1 had a twin already: it is parallel to edge0 *)
        exfalso. apply (Hmanifold r0 r HL He); [done|].
        eapply rev_parallel; eauto. by apply rev_sym.
      * case_decide; [|done]. subst t. congruence.
Qed.

Lemma linkTwins_twins_ok l h sorted h' sorted' :
  (∀ e, e ∈ l → e ∈ L) → twins_ok h →
  foldM (linkTwin L) l (h, sorted) = Ok (h', sorted') →
  twins_ok h'.
Proof.
  intros Hl Hok H.
  apply (foldM_inv (linkTwin L) (λ s, twins_ok s.1) l (h, sorted) (h', sorted')); try done.
  intros x [h1 s1] [h2 s2] Hx Hok1 Hstep. simpl in *.
  eapply linkTwin_twins_ok; eauto.
Qed.

(** *** The pairs of twins found *)

(** The twin of an edge, for an edge that has one. *)
Definition twin_of (h : Heap) (c : ref) : ref :=
  match hedges h !! c with
  | Some e => default c (twin e)
  | None => c
  end.

Lemma twin_of_rd h c t : rd twin h (Some c) = Ok (Some t) → twin_of h c = t.
Proof. intros (e & He & Ht)%rd_Some. unfold twin_of. by rewrite He, Ht. Qed.

(** The candidates of a list of entries and, after each, its twin. *)
Definition candidates (entries : list Entry) : list ref := omap entry_edge entries.

Definition pair_list (h : Heap) (cands : list ref) : list ref :=
  cands ≫= λ c, [c; twin_of h c].

Hypothesis Hnondeg : ∀ r, Some r ∈ L → nondeg h0 r.

(** The entries found so far: each holds an edge of the list that has a twin
    other than itself, and no edge is in two pairs. *)
Definition pairs_ok (h : Heap) (sorted : list Entry) : Prop :=
  (∀ en, en ∈ sorted → is_Some (entry_edge en)) ∧
  NoDup (pair_list h (candidates sorted)) ∧
  (∀ c, c ∈ candidates sorted →
     Some c ∈ L ∧ ∃ t, rd twin h (Some c) = Ok (Some t) ∧ c ≠ t).

(** The edge the search finds for an edge without twin has no twin. *)
Lemma found_has_no_twin h r0 r1 t' :
  twins_ok h → Some r0 ∈ L → Some r1 ∈ L →
  rd twin h (Some r0) = Ok None → rev h0 (Some r0) (Some r1) →
  rd twin h (Some r1) = Ok (Some t') → False.
Proof.
  intros [_ Hs] H0 H1 Hnone Hrev Ht'.
  destruct (Hs _ _ H1 Ht') as (Ht'L & Htt & Hrt).
  apply (Hmanifold r0 t' H0 Ht'L).
  - intros <-. congruence.
  - eapply rev_parallel; eauto.
Qed.

Lemma pair_list_app h l1 l2 : pair_list h (l1 ++ l2) = pair_list h l1 ++ pair_list h l2.
Proof. unfold pair_list. by rewrite bind_app. Qed.

Lemma elem_of_pair_list h cands x :
  x ∈ pair_list h cands ↔ ∃ c, c ∈ cands ∧ (x = c ∨ x = twin_of h c).
Proof.
  unfold pair_list. rewrite list_elem_of_bind. split.
  - intros (c & Hx & Hc). exists c. split; [done|].
    apply elem_of_cons in Hx as [->|Hx]; [by left|].
    apply list_elem_of_singleton in Hx as ->. by right.
  - intros (c & Hc & [->| ->]); exists c; (split; [|done]); [by left|right; by left].
Qed.

Lemma candidates_app l1 l2 : candidates (l1 ++ l2) = candidates l1 ++ candidates l2.
Proof. unfold candidates. by rewrite omap_app. Qed.

Lemma pair_list_ext h h' cands :
  (∀ c, c ∈ cands → twin_of h' c = twin_of h c) → pair_list h' cands = pair_list h cands.
Proof.
  induction cands as [|c cands IH]; intros H; [done|].
  change (pair_list h' (c :: cands)) with ([c; twin_of h' c] ++ pair_list h' cands).
  change (pair_list h (c :: cands)) with ([c; twin_of h c] ++ pair_list h cands).
  rewrite IH, H; [done|by left|]. intros x Hx. apply H. by right.
Qed.

Lemma linkTwin_pairs_ok edge0 h sorted h' sorted' :
  edge0 ∈ L → twins_ok h → pairs_ok h sorted →
  linkTwin L edge0 (h, sorted) = Ok (h', sorted') →
  pairs_ok h' sorted'.
Proof.
  intros HL Hok (Hsome & Hnd & Hc) H. pose proof Hok as [Hsame Hs].
  unfold linkTwin in H. inv_bind H.
  destruct (decide (a ≠ None)) as [?|Hnone]; [by injection H as <- <-|].
  apply dec_stable in Hnone. subst a. inv_bind H.
  destruct a as [edge1|]; [|by injection H as <- <-].
  inv_bind H. injection H as <- <-. rename a into h1, a0 into h2.
  destruct (findTwin_spec _ _ _ _ E0) as [HL1 Hrev].
  apply (rev_same _ _ _ _ Hsame) in Hrev.
  destruct (wr_Ok_Some _ _ _ _ E1) as [r0 ->].
  destruct (wr_Ok_Some _ _ _ _ E2) as [r1 ->].
  assert (Hfree : ∀ t', rd twin h (Some r1) = Ok (Some t') → False).
  { intros t' Ht'. exact (found_has_no_twin h r0 r1 t' Hok HL HL1 E Hrev Ht'). }
  assert (Hne : r0 ≠ r1).
  { intros <-. destruct Hrev as (f0 & t1 & t0 & f1 & H1 & H2 & H3 & _).
    rewrite (Hnondeg r0 HL f0 t1) in H3; done. }
  assert (Htw2 : ∀ r, rd twin h2 (Some r) =
            if decide (r = r1) then Ok (Some r0)
            else if decide (r = r0) then Ok (Some r1) else rd twin h (Some r)).
  { intros r. rewrite (rd_wr _ _ _ _ _ _ E2). case_decide.
    - subst. apply rd_const; [by eapply wr_is_Some|done].
    - rewrite (rd_wr _ _ _ _ _ _ E1). case_decide; [|done].
      subst. apply rd_const; [by eapply wr_is_Some|done]. }
  assert (Hold : ∀ c, c ∈ candidates sorted → c ≠ r0 ∧ c ≠ r1 ∧
                   twin_of h c ≠ r0 ∧ twin_of h c ≠ r1 ∧ twin_of h2 c = twin_of h c).
  { intros c Hcin. destruct (Hc c Hcin) as (HcL & t & Ht & Hct).
    assert (c ≠ r0) by (intros ->; congruence).
    assert (c ≠ r1) by (intros ->; eauto).
    rewrite (twin_of_rd _ _ _ Ht).
    destruct (Hs _ _ HcL Ht) as (HtL & Htt & _).
    assert (t ≠ r0) by (intros ->; congruence).
    assert (t ≠ r1) by (intros ->; eauto).
    repeat split; try done. apply twin_of_rd. rewrite Htw2.
    by rewrite !decide_False. }
  assert (Hnew : twin_of h2 r0 = r1).
  { apply twin_of_rd. rewrite Htw2. rewrite decide_False by done. by rewrite decide_True. }
  split; [|split].
  - intros en [Hen|Hen]%elem_of_app; [by apply Hsome|].
    apply list_elem_of_singleton in Hen as ->. by eexists.
  - rewrite candidates_app, pair_list_app.
    change (candidates [mkEntry a1 (Some r0)]) with [r0].
    rewrite (pair_list_ext h h2) by (intros c Hcin; by apply Hold).
    change (pair_list h2 [r0]) with [r0; twin_of h2 r0]. rewrite Hnew.
    apply NoDup_app. split; [done|]. split.
    + intros x Hx Hx'. apply elem_of_pair_list in Hx as (c & Hcin & Hxc).
      destruct (Hold c Hcin) as (? & ? & ? & ? & _).
      apply elem_of_cons in Hx' as [->|Hx']; [by destruct Hxc|].
      apply list_elem_of_singleton in Hx' as ->. by destruct Hxc.
    + apply NoDup_cons. split; [by intros ->%list_elem_of_singleton|].
      apply NoDup_singleton.
  - rewrite candidates_app. change (candidates [mkEntry a1 (Some r0)]) with [r0].
    intros c [Hcin|Hcin]%elem_of_app.
    + destruct (Hc c Hcin) as (HcL & t & Ht & Hct). split; [done|]. exists t.
      split; [|done]. destruct (Hold c Hcin) as (? & ? & _). rewrite Htw2.
      by rewrite !decide_False.
    + apply list_elem_of_singleton in Hcin as ->. split; [done|]. exists r1.
      split; [|done]. rewrite Htw2. rewrite decide_False by done. by rewrite decide_True.
Qed.

Lemma linkTwins_ok l h sorted h' sorted' :
  (∀ e, e ∈ l → e ∈ L) → twins_ok h → pairs_ok h sorted →
  foldM (linkTwin L) l (h, sorted) = Ok (h', sorted') →
  twins_ok h' ∧ pairs_ok h' sorted'.
Proof.
  intros Hl Hok Hp H.
  apply (foldM_inv (linkTwin L) (λ s, twins_ok s.1 ∧ pairs_ok s.1 s.2) l (h, sorted)
           (h', sorted')); try done.
  intros x [h1 s1] [h2 s2] Hx [Hok1 Hp1] Hstep. simpl in *. split.
  - eapply linkTwin_twins_ok; eauto.
  - eapply linkTwin_pairs_ok; eauto.
Qed.

End Linking.

End TwinSearch.

(** * Fields the phases of the build leave alone *)

Section FrameFacts.
Context {G : Geometry}.

(** ** Fields a method leaves alone *)

Lemma doWhile_inv {S} (heapOf : S → Heap) (I : S → Prop) fuel P body e s s' :
  (∀ e s s1, I s → body e s = Ok s1 → I s1) →
  I s → doWhile heapOf fuel P body e s = Ok s' → I s'.
Proof.
  intros Hstep. revert e s. induction fuel as [|k IH]; intros e s Hs H; simpl in H; [done|].
  inv_bind H. case_decide.
  - injection H as <-. eauto.
  - eapply IH; [|exact H]. eauto.
Qed.

Lemma keeps_refl {A} (f : HalfEdge → A) h : keeps f h h.
Proof. done. Qed.

Lemma keeps_trans {A} (f : HalfEdge → A) h1 h2 h3 :
  keeps f h1 h2 → keeps f h2 h3 → keeps f h1 h3.
Proof. intros H1 H2 r. by rewrite H2. Qed.

Lemma keeps_wr {A} (f : HalfEdge → A) u h o h' :
  (∀ e, f (u e) = f e) → wr u h o = Ok h' → keeps f h h'.
Proof. intros Hf H r. by apply (rd_wr_frame _ _ _ _ _ _ H). Qed.

Lemma keeps_wrPoly {A} (f : HalfEdge → A) u h o h' :
  wrPoly u h o = Ok h' → keeps f h h'.
Proof. intros H r. by apply (rd_wrPoly _ _ _ _ _ _ H). Qed.

(** A field that no write of the region, index and graph phases touches:
    [vertex] and [twin] are such fields. *)
Definition untouched {A} (f : HalfEdge → A) : Prop :=
  (∀ v e, f (set_next v e) = f e) ∧ (∀ v e, f (set_prev v e) = f e) ∧
  (∀ v e, f (set_polygon v e) = f e) ∧ (∀ v e, f (set_nodeIndex v e) = f e).

Lemma untouched_twin : untouched twin.
Proof. by repeat split. Qed.

Lemma untouched_vertex : untouched vertex.
Proof. by repeat split. Qed.

Section Untouched.

Context {A : Type} (f : HalfEdge → A).
Hypothesis Hf : untouched f.

Ltac step_keeps :=
  match goal with
  | H : wr (set_next _) ?h _ = Ok ?h' |- keeps f ?h _ =>
      apply (keeps_trans f h h'); [apply (keeps_wr f _ _ _ _ (proj1 Hf _) H)|]
  | H : wr (set_prev _) ?h _ = Ok ?h' |- keeps f ?h _ =>
      apply (keeps_trans f h h'); [apply (keeps_wr f _ _ _ _ (proj1 (proj2 Hf) _) H)|]
  | H : wr (set_polygon _) ?h _ = Ok ?h' |- keeps f ?h _ =>
      apply (keeps_trans f h h'); [apply (keeps_wr f _ _ _ _ (proj1 (proj2 (proj2 Hf)) _) H)|]
  | H : wr (set_nodeIndex _) ?h _ = Ok ?h' |- keeps f ?h _ =>
      apply (keeps_trans f h h'); [apply (keeps_wr f _ _ _ _ (proj2 (proj2 (proj2 Hf)) _) H)|]
  | H : wrPoly _ ?h _ = Ok ?h' |- keeps f ?h _ =>
      apply (keeps_trans f h h'); [apply (keeps_wrPoly f _ _ _ _ H)|]
  end.

Lemma splice_keeps h c h' : splice h c = Ok h' → keeps f h h'.
Proof. unfold splice. intros H. inv_bind H. repeat step_keeps. apply keeps_refl. Qed.

Lemma trial_keeps h c h' poly : trial h c = Ok (h', poly) → keeps f h h'.
Proof.
  unfold trial. intros H. inv_bind H. injection H as <- <-.
  eapply keeps_trans; [by eapply splice_keeps|]. step_keeps. apply keeps_refl.
Qed.

Lemma restore_keeps h cache c poly h' : restore h cache c poly = Ok h' → keeps f h h'.
Proof.
  unfold restore. intros H. inv_bind H. repeat step_keeps. apply keeps_refl.
Qed.

Lemma commit_keeps fuel h rs c poly h' rs' :
  commit fuel h rs c poly = Ok (h', rs') → keeps f h h'.
Proof.
  unfold commit. intros H. inv_bind H. injection H as <- <-.
  eapply (doWhile_inv id (λ s, keeps f h s)); [|apply keeps_refl|done].
  intros e s s1 Hs Hw. simpl in Hw. eapply keeps_trans; [exact Hs|].
  apply (keeps_wr f _ _ _ _ (proj1 (proj2 (proj2 Hf)) _) Hw).
Qed.

Lemma mergeCandidate_keeps fuel entry h rs h' rs' :
  mergeCandidate fuel entry (h, rs) = Ok (h', rs') → keeps f h h'.
Proof.
  unfold mergeCandidate. intros H. inv_bind H.
  match goal with Ht : trial _ _ = Ok ?x |- _ => destruct x as [h2 poly] end.
  inv_bind H.
  eapply keeps_trans; [by eapply trial_keeps|].
  match goal with Hc : convex _ _ _ = Ok ?b |- _ => destruct b end.
  - by eapply commit_keeps.
  - inv_bind H. injection H as <- <-. by eapply restore_keeps.
Qed.

Lemma computeCentroid_keeps fuel h P h' : computeCentroid fuel h P = Ok h' → keeps f h h'.
Proof. unfold computeCentroid. intros H. inv_bind H. by eapply keeps_wrPoly. Qed.

Lemma _buildRegions_keeps fuel edgeList h rs h' rs' :
  _buildRegions fuel edgeList h rs = Ok (h', rs') → keeps f h h'.
Proof.
  unfold _buildRegions. intros H. inv_bind H. destruct a as [h1 rs1]. inv_bind H.
  injection H as <- <-.
  eapply keeps_trans.
  - apply (foldM_inv (mergeCandidate fuel) (λ s, keeps f h s.1) edgeList (h, rs) (h1, rs1));
      [|apply keeps_refl|done].
    intros x [ha ra] [hb rb] _ Ha Hb. simpl in *.
    eapply keeps_trans; [exact Ha|]. by eapply mergeCandidate_keeps.
  - match goal with Hc : foldM _ rs1 h1 = Ok ?hc |- _ =>
      apply (foldM_inv (λ region h, computeCentroid fuel h (Some region)) (λ s, keeps f h1 s)
               rs1 h1 hc); [|apply keeps_refl|done] end.
    intros x ha hb _ Ha Hb. eapply keeps_trans; [exact Ha|]. by eapply computeCentroid_keeps.
Qed.

End Untouched.

(** [_buildNodeIndices] writes node indices only. *)
Definition not_nodeIndex {A} (f : HalfEdge → A) : Prop := ∀ v e, f (set_nodeIndex v e) = f e.

Lemma nodeIndices_body_keeps {A} (f : HalfEdge → A) e s s' :
  not_nodeIndex f → nodeIndices_body e s = Ok s' → keeps f s.1.1 s'.1.1 ∧ hpolys s'.1.1 = hpolys s.1.1.
Proof.
  intros Hf. destruct s as [[h m] k]. unfold nodeIndices_body. intros H. inv_bind H.
  case_decide; [|by injection H as <-].
  inv_bind H.
  destruct (decide (lookupPosition m a0 = (-1)%Z)); inv_bind H; injection H as <-; simpl;
    (split; [eapply keeps_trans; eapply keeps_wr; eauto|]);
    repeat match goal with Hw : wr _ _ _ = Ok _ |- _ => rewrite (wr_polys _ _ _ _ Hw); clear Hw end;
    done.
Qed.

Lemma _buildNodeIndices_keeps {A} (f : HalfEdge → A) fuel h rs h' :
  not_nodeIndex f → _buildNodeIndices fuel h rs = Ok h' → keeps f h h' ∧ hpolys h' = hpolys h.
Proof.
  intros Hf. unfold _buildNodeIndices. intros H. inv_bind H. injection H as <-.
  apply (foldM_inv (nodeIndices_region fuel)
           (λ s : NodeIndexState, keeps f h s.1.1 ∧ hpolys s.1.1 = hpolys h) rs (h, [], 0%Z) a);
    [|by split|done].
  intros x s s1 _ [Hk Hp] Hs. unfold nodeIndices_region in Hs. inv_bind Hs.
  apply (doWhile_inv (λ s : NodeIndexState, s.1.1)
           (λ s : NodeIndexState, keeps f h s.1.1 ∧ hpolys s.1.1 = hpolys h)
           _ _ _ _ _ _ ) in Hs; [done| |done].
  intros e t t1 [Hk1 Hp1] Ht. destruct (nodeIndices_body_keeps f _ _ _ Hf Ht) as [Hk2 Hp2].
  split; [by eapply keeps_trans|congruence].
Qed.

End FrameFacts.

(** * Twins after the build *)

Section TwinSymmetry.
Context {G : Geometry}.

Lemma setupEdges_twins_ok fuel h rs0 polygons h1 rs sorted :
  equals_sym → equals_trans →
  twins_consistent h polygons → manifold h polygons →
  setupEdges fuel h rs0 polygons = Ok (h1, rs, sorted) →
  ∃ L, (∀ e, e ∈ L ↔ inputEdge h polygons e) ∧ twins_ok h L h1.
Proof.
  intros Hsym Htrans Hcons Hman H. unfold setupEdges in H. inv_bind H.
  destruct a as [L rs1]. inv_bind H. destruct a as [h1' sorted']. injection H as <- <- <-.
  destruct (collectEdges_all _ _ _ _ _ _ _ E) as (_ & HL).
  assert (HL' : ∀ e, e ∈ L ↔ inputEdge h polygons e).
  { intros e. rewrite HL. split; [|by right]. intros [Hn|?]; [|done]. by apply elem_of_nil in Hn. }
  exists L. split; [done|].
  eapply (linkTwins_twins_ok Hsym Htrans h L); [| | |exact E0].
  - intros r r' Hr Hr'. apply Hman; by apply HL'.
  - done.
  - split; [apply same_but_twin_refl|].
    intros e t He Ht. apply HL' in He. destruct (Hcons _ _ He Ht) as (H1 & H2 & H3).
    split; [by apply HL'|done].
Qed.

(** X1: after [fromPolygons] the twin of an input edge has that edge as its
    twin, when the twin search meets no two parallel edges. *)
Theorem fromPolygons_twins_symmetric fuel h nav polygons h' nav' e t :
  equals_sym → equals_trans →
  twins_consistent h polygons → manifold h polygons →
  fromPolygons fuel h nav polygons = Ok (h', nav') →
  inputEdge h polygons (Some e) →
  rd twin h' (Some e) = Ok (Some t) →
  rd twin h' (Some t) = Ok (Some e) ∧ inputEdge h polygons (Some t).
Proof.
  intros Hsym Htrans Hcons Hman H He Ht. unfold fromPolygons in H. inv_bind H.
  destruct a as [[h1 rs] sorted]. inv_bind H. destruct a as [h2 rs1]. inv_bind H.
  injection H as <- <-.
  destruct (setupEdges_twins_ok _ _ _ _ _ _ _ Hsym Htrans Hcons Hman E) as (L & HL & _ & Hok).
  assert (Hk : keeps twin h1 a).
  { eapply keeps_trans.
    - eapply _buildRegions_keeps; [apply untouched_twin|done].
    - eapply _buildNodeIndices_keeps; [|done]. done. }
  rewrite Hk in Ht. rewrite Hk.
  destruct (Hok (Some e) t) as (H1 & H2 & _); [by apply HL|done|].
  split; [done|by apply HL].
Qed.

End TwinSymmetry.

(** * Cycles of edges *)

Section CycleFacts.
Context {G : Geometry}.

(** ** Cycles of edges *)

Lemma path_cons h a b l : path h (a :: b :: l) ↔ link h a b ∧ path h (b :: l).
Proof. done. Qed.

Lemma path_one h a : path h [a] ↔ True.
Proof. done. Qed.

Lemma path_app h l1 a l2 :
  path h (l1 ++ a :: l2) ↔ path h (l1 ++ [a]) ∧ path h (a :: l2).
Proof.
  induction l1 as [|x l1 IH].
  - simpl. split; [by intros ?|by intros [_ ?]].
  - destruct l1 as [|y l1].
    + simpl. split; [intros [? ?]|intros [[? _] ?]]; done.
    + change (path h (x :: y :: (l1 ++ a :: l2)) ↔
              path h (x :: y :: (l1 ++ [a])) ∧ path h (a :: l2)).
      rewrite !path_cons. change (y :: l1 ++ a :: l2) with ((y :: l1) ++ a :: l2).
      rewrite IH. simpl. tauto.
Qed.

#[local] Arguments path : simpl never.

Lemma cyc_rotate h l1 x l2 : cyc_list h (l1 ++ x :: l2) → cyc_list h (x :: l2 ++ l1).
Proof.
  destruct l1 as [|e0 l1]; simpl.
  - by rewrite app_nil_r.
  - intros H.
    replace (e0 :: (l1 ++ x :: l2) ++ [e0]) with ((e0 :: l1) ++ x :: (l2 ++ [e0])) in H
      by (simpl; by rewrite <- app_assoc).
    apply path_app in H as [H1 H2].
    replace (x :: (l2 ++ e0 :: l1) ++ [x]) with ((x :: l2) ++ e0 :: (l1 ++ [x]))
      by (simpl; by rewrite <- !app_assoc).
    apply path_app. split; [done|]. exact H1.
Qed.

Lemma path_frame h h' l :
  path h l →
  (∀ a, a ∈ removelast l → rd next h' (Some a) = rd next h (Some a)) →
  (∀ b, b ∈ tail l → rd prev h' (Some b) = rd prev h (Some b)) →
  path h' l.
Proof.
  induction l as [|a l IH]; [done|]. destruct l as [|b l]; [done|].
  intros [[Hn Hp] Hl] Hnext Hprev. split.
  - split.
    + rewrite Hnext; [done|]. simpl. by left.
    + rewrite Hprev; [done|]. simpl. by left.
  - apply IH; [done| |].
    + intros x Hx. apply Hnext. simpl. right. exact Hx.
    + intros x Hx. apply Hprev. simpl. right. exact Hx.
Qed.

(** In a cycle every edge has its successor and its predecessor in the
    cycle. *)
Lemma path_succ h l x :
  path h l → x ∈ removelast l → ∃ y, y ∈ tail l ∧ link h x y.
Proof.
  induction l as [|a l IH]; [by intros _ ?%elem_of_nil|].
  destruct l as [|b l]; [by intros _ ?%elem_of_nil|].
  intros [Hab Hl] Hx. change (removelast (a :: b :: l)) with (a :: removelast (b :: l)) in Hx.
  apply elem_of_cons in Hx as [->|Hx].
  - exists b. split; [by left|done].
  - destruct (IH Hl Hx) as (y & Hy & Hxy). exists y. split; [|done].
    simpl. right. exact Hy.
Qed.

Lemma path_pred h l y :
  path h l → y ∈ tail l → ∃ x, x ∈ removelast l ∧ link h x y.
Proof.
  induction l as [|a l IH]; [by intros _ ?%elem_of_nil|].
  destruct l as [|b l]; [by intros _ ?%elem_of_nil|].
  intros [Hab Hl] Hy. change (removelast (a :: b :: l)) with (a :: removelast (b :: l)).
  simpl in Hy. apply elem_of_cons in Hy as [->|Hy].
  - exists a. split; [by left|done].
  - destruct (IH Hl) as (x & Hx & Hxy); [done|]. exists x. split; [by right|done].
Qed.

Lemma removelast_snoc {A} (l : list A) x : removelast (l ++ [x]) = l.
Proof. apply removelast_last. Qed.

Lemma cyc_succ h l x : cyc_list h l → x ∈ l → ∃ y, y ∈ l ∧ link h x y.
Proof.
  destruct l as [|e0 rest]; [done|]. intros Hc Hx. simpl in Hc.
  destruct (path_succ h (e0 :: rest ++ [e0]) x Hc) as (y & Hy & Hxy).
  - change (e0 :: rest ++ [e0]) with ((e0 :: rest) ++ [e0]). by rewrite removelast_snoc.
  - exists y. split; [|done]. simpl in Hy. apply elem_of_app in Hy as [?|Hy]; [by right|].
    apply list_elem_of_singleton in Hy as ->. by left.
Qed.

Lemma cyc_pred h l y : cyc_list h l → y ∈ l → ∃ x, x ∈ l ∧ link h x y.
Proof.
  destruct l as [|e0 rest]; [done|]. intros Hc Hy. simpl in Hc.
  destruct (path_pred h (e0 :: rest ++ [e0]) y Hc) as (x & Hx & Hxy).
  - simpl. apply elem_of_cons in Hy as [->|Hy]; apply elem_of_app; [right; by left|by left].
  - exists x. split; [|done].
    change (e0 :: rest ++ [e0]) with ((e0 :: rest) ++ [e0]) in Hx. by rewrite removelast_snoc in Hx.
Qed.

Lemma cyc_doubly_linked h l x : cyc_list h l → x ∈ l → doubly_linked h x.
Proof.
  intros Hc Hx. destruct (cyc_succ _ _ _ Hc Hx) as (n & _ & Hn1 & Hn2).
  destruct (cyc_pred _ _ _ Hc Hx) as (p & _ & Hp1 & Hp2).
  by exists p, n.
Qed.

(** ** Going round a cycle *)

Lemma path_chain h l e0 :
  l ≠ [] → path h (l ++ [e0]) → e0 ∉ tail l → chain h (Some <$> l) (Some e0).
Proof.
  induction l as [|a l IH]; [done|]. intros _ Hp Hnin.
  destruct l as [|b l].
  - simpl in *. destruct Hp as [[Hn _] _]. exact Hn.
  - change (path h (a :: b :: (l ++ [e0]))) in Hp. apply path_cons in Hp as [[Hn _] Hp].
    change (chain h (Some a :: Some b :: (Some <$> l)) (Some e0)).
    simpl. split; [done|]. split.
    + intros [= ->]. apply Hnin. simpl. by left.
    + apply IH; [done|done|]. intros Hin. apply Hnin. simpl. by right.
Qed.

Lemma cyc_chain h e0 rest :
  cyc_list h (e0 :: rest) → NoDup (e0 :: rest) → chain h (Some <$> (e0 :: rest)) (Some e0).
Proof.
  intros Hc Hnd. apply path_chain; [done|exact Hc|]. simpl. by apply NoDup_cons in Hnd as [? _].
Qed.

Lemma chain_det h e l l' stop :
  chain h (e :: l) stop → chain h (e :: l') stop → l = l'.
Proof.
  revert e l'. induction l as [|a l IH]; intros e l' H1 H2.
  - destruct l' as [|b l']; [done|]. simpl in *. destruct H2 as (H2 & Hne & _). congruence.
  - destruct l' as [|b l'].
    + simpl in *. destruct H1 as (H1 & Hne & _). congruence.
    + simpl in H1, H2. destruct H1 as (H1 & _ & H1'), H2 as (H2 & _ & H2').
      assert (a = b) as -> by congruence. f_equal. by eapply IH.
Qed.

(** The reads a loop round a polygon depends on are those of [h0]. *)
Definition nav_same (h0 h : Heap) : Prop :=
  keeps next h0 h ∧ ∀ P, rdPoly edge h P = rdPoly edge h0 P.

Lemma nav_same_refl h : nav_same h h.
Proof. by split. Qed.

(** A loop round a polygon whose body keeps [next] and [polygon.edge] runs
    its body on a chain of edges that ends where [polygon.edge] begins. *)
Lemma doWhile_walk {S} (heapOf : S → Heap) h0 fuel P body e s s' :
  (∀ e s s1, nav_same h0 (heapOf s) → body e s = Ok s1 → nav_same h0 (heapOf s1)) →
  nav_same h0 (heapOf s) →
  doWhile heapOf fuel P body e s = Ok s' →
  ∃ start l, rdPoly edge h0 P = Ok start ∧ chain h0 (e :: l) start ∧
             length (e :: l) ≤ fuel ∧
             foldM body (e :: l) s = Ok s' ∧ nav_same h0 (heapOf s').
Proof.
  intros Hbody. revert e s. induction fuel as [|k IH]; intros e s Hs H; simpl in H; [done|].
  inv_bind H. rename a into s1.
  assert (Hs1 : nav_same h0 (heapOf s1)) by eauto.
  destruct Hs1 as [Hn1 Hp1]. rewrite Hn1 in E0. rewrite Hp1 in E1.
  destruct (decide (a0 = a1)) as [->|Hne].
  - injection H as <-. exists a1, []. simpl. rewrite E. repeat split; try done. lia.
  - destruct (IH _ _ (conj Hn1 Hp1) H) as (start & l & Hst & Hc & Hlen & Hf & Hsame).
    assert (start = a1) as -> by congruence.
    exists a1, (a0 :: l). split; [done|]. split; [simpl; done|].
    split; [simpl in *; lia|]. split; [|done].
    simpl. rewrite E. simpl. exact Hf.
Qed.

(** On a cycle that begins at [polygon.edge] the chain is the cycle. *)
Lemma doWhile_cycle {S} (heapOf : S → Heap) h0 fuel P body e0 rest s s' :
  (∀ e s s1, nav_same h0 (heapOf s) → body e s = Ok s1 → nav_same h0 (heapOf s1)) →
  nav_same h0 (heapOf s) →
  rdPoly edge h0 P = Ok (Some e0) →
  cyc_list h0 (e0 :: rest) → NoDup (e0 :: rest) →
  doWhile heapOf fuel P body (Some e0) s = Ok s' →
  foldM body (Some <$> (e0 :: rest)) s = Ok s' ∧ length (e0 :: rest) ≤ fuel ∧
  nav_same h0 (heapOf s').
Proof.
  intros Hbody Hs He0 Hc Hnd H.
  destruct (doWhile_walk _ _ _ _ _ _ _ _ Hbody Hs H) as (start & l & Hst & Hch & Hlen & Hf & Hsame).
  assert (start = Some e0) as -> by congruence.
  pose proof (cyc_chain _ _ _ Hc Hnd) as Hch'.
  change (Some <$> e0 :: rest) with (Some e0 :: (Some <$> rest)) in *.
  rewrite (chain_det _ _ _ _ _ Hch Hch') in *.
  split; [done|]. split; [|done]. simpl in *. by rewrite length_fmap in Hlen.
Qed.

(** ** The convexity test on a cycle *)

Lemma convex_loop_true fuel h P e start :
  rdPoly edge h P = Ok start →
  convex_loop fuel h P e = Ok true ↔
  ∃ l, chain h (e :: l) start ∧ length (e :: l) ≤ fuel ∧ ∀ x, x ∈ e :: l → triple_ok h x.
Proof.
  intros Hst. split.
  - revert e. induction fuel as [|k IH]; intros e H; simpl in H; [done|].
    inv_bind H. destruct (leftOn a a0 a2) eqn:Hleft; simpl in H; [|done].
    inv_bind H. assert (a3 = start) as -> by congruence.
    assert (Hok : triple_ok h e) by (by exists a, a0, a1, a2).
    destruct (decide (a1 = start)) as [->|Hne].
    + exists []. simpl. split; [done|]. split; [lia|].
      intros x ->%list_elem_of_singleton. done.
    + destruct (IH _ H) as (l & Hc & Hlen & Hall). exists (a1 :: l).
      split; [simpl; done|]. split; [simpl in *; lia|].
      intros x [->|Hx]%elem_of_cons; [done|by apply Hall].
  - intros (l & Hc & Hlen & Hall). revert e fuel Hc Hlen Hall.
    induction l as [|b l IH]; intros e fuel Hc Hlen Hall.
    + destruct fuel as [|k]; [simpl in Hlen; lia|]. simpl in Hc.
      destruct (Hall e) as (v1 & v2 & n & v3 & H1 & H2 & H3 & H4 & H5); [by left|].
      assert (n = start) as -> by congruence.
      simpl. rewrite H1; simpl. rewrite H2; simpl. rewrite H3; simpl. rewrite H4; simpl.
      rewrite H5; simpl. rewrite Hst; simpl. by rewrite decide_True.
    + destruct fuel as [|k]; [simpl in Hlen; lia|]. simpl in Hc. destruct Hc as (Hn & Hne & Hc).
      destruct (Hall e) as (v1 & v2 & n & v3 & H1 & H2 & H3 & H4 & H5); [by left|].
      assert (n = b) as -> by congruence.
      simpl. rewrite H1; simpl. rewrite H2; simpl. rewrite H3; simpl. rewrite H4; simpl.
      rewrite H5; simpl. rewrite Hst; simpl. rewrite decide_False by done.
      apply IH; [done|simpl in *; lia|]. intros x Hx. apply Hall. by right.
Qed.

(** On a cycle through [polygon.edge], the test answers true exactly when
    the fuel lasts for the cycle and every triple passes. *)
Lemma convex_true_cycle fuel h P l e0 :
  rdPoly edge h (Some P) = Ok (Some e0) →
  cyc_list h l → NoDup l → e0 ∈ l →
  convex fuel h (Some P) = Ok true ↔
  length l ≤ fuel ∧ ∀ x, x ∈ l → triple_ok h (Some x).
Proof.
  intros He0 Hc Hnd Hin.
  apply list_elem_of_split in Hin as (l1 & l2 & ->).
  pose proof (cyc_rotate _ _ _ _ Hc) as Hc'.
  assert (Hperm : e0 :: l2 ++ l1 ≡ₚ l1 ++ e0 :: l2).
  { rewrite (Permutation_app_comm l1). done. }
  assert (Hnd' : NoDup (e0 :: l2 ++ l1)) by (by rewrite Hperm).
  pose proof (cyc_chain _ _ _ Hc' Hnd') as Hch.
  unfold convex. rewrite He0. simpl.
  rewrite (convex_loop_true _ _ _ _ _ He0).
  change (Some <$> e0 :: l2 ++ l1) with (Some e0 :: (Some <$> l2 ++ l1)) in Hch.
  assert (Hlen' : length (l1 ++ e0 :: l2) = length (e0 :: l2 ++ l1)) by (by rewrite Hperm).
  split.
  - intros (l & Hcl & Hlen & Hall).
    rewrite (chain_det _ _ _ _ _ Hcl Hch) in *.
    split; [rewrite Hlen'; simpl in *; by rewrite length_fmap in Hlen|].
    intros x Hx. rewrite <- Hperm in Hx. apply Hall.
    change (Some x ∈ Some <$> (e0 :: l2 ++ l1)). by apply list_elem_of_fmap_2.
  - intros (Hlen & Hall). exists (Some <$> l2 ++ l1). split; [done|].
    split; [rewrite Hlen' in Hlen; simpl in *; by rewrite length_fmap|].
    intros x Hx. change (x ∈ Some <$> (e0 :: l2 ++ l1)) in Hx.
    apply list_elem_of_fmap in Hx as (y & -> & Hy). apply Hall. by rewrite <- Hperm.
Qed.

End CycleFacts.

(** * The splice on cycles and the invariant of the region loop *)

#[local] Arguments path : simpl never.

Section RegionInvariant.
Context {G : Geometry}.

(** ** Cycles by their ends *)

Lemma path_snoc h l a b : path h (l ++ [a; b]) ↔ path h (l ++ [a]) ∧ link h a b.
Proof.
  rewrite (path_app h l a [b]). rewrite path_cons, path_one. tauto.
Qed.

(** A cycle is a path whose last edge is linked to its first. *)
Lemma cyc_list_ends h l :
  cyc_list h l ↔ path h l ∧ ∃ a b, head l = Some a ∧ last l = Some b ∧ link h b a.
Proof.
  destruct l as [|e0 rest]; simpl.
  - split; [done|]. by intros (_ & a & b & [=] & _).
  - destruct (exists_last (l := e0 :: rest)) as (front & b & Hfb); [done|].
    change (e0 :: rest ++ [e0]) with ((e0 :: rest) ++ [e0]). rewrite Hfb.
    rewrite <- app_assoc. change ([b] ++ [e0]) with [b; e0]. rewrite path_snoc.
    rewrite last_snoc. split.
    + intros [Hp Hl]. split; [done|]. by exists e0, b.
    + intros (Hp & a & b' & [= <-] & [= <-] & Hl). done.
Qed.

(** Two paths joined by a link. *)
Lemma path_join h l1 l2 a b :
  path h l1 → path h l2 → last l1 = Some a → head l2 = Some b → link h a b →
  path h (l1 ++ l2).
Proof.
  intros H1 H2 Ha Hb Hl. destruct l2 as [|b' l2]; [done|]. injection Hb as ->.
  destruct (exists_last (l := l1)) as (front & a' & ->);
    [intros ->; simpl in Ha; discriminate|].
  rewrite last_snoc in Ha. injection Ha as ->.
  rewrite <- app_assoc. apply path_app. split; [done|].
  change ([a] ++ b :: l2) with (a :: b :: l2). by apply path_cons.
Qed.

Lemma path_app_l h l1 l2 : path h (l1 ++ l2) → path h l1.
Proof.
  induction l1 as [|x l1 IH]; [done|]. destruct l1 as [|y l1]; [done|]. intros H.
  change (path h (x :: y :: (l1 ++ l2))) in H. apply path_cons in H as [Hl H].
  apply path_cons. split; [done|]. by apply IH.
Qed.

Lemma path_app_r h l1 l2 : path h (l1 ++ l2) → path h l2.
Proof.
  destruct l2 as [|a l2]; [done|]. by intros [_ H]%path_app.
Qed.

Lemma path_app_link h l1 l2 a b :
  path h (l1 ++ l2) → last l1 = Some a → head l2 = Some b → link h a b.
Proof.
  intros H Ha Hb. destruct l2 as [|b' l2]; [done|]. injection Hb as ->.
  destruct (exists_last (l := l1)) as (front & a' & ->);
    [intros ->; simpl in Ha; discriminate|].
  rewrite last_snoc in Ha. injection Ha as ->.
  rewrite <- app_assoc in H. apply path_app in H as [_ H].
  change ([a] ++ b :: l2) with (a :: b :: l2) in H. by apply path_cons in H as [? _].
Qed.

(** ** The splice of two cycles *)

(** The store after [splice], when neither the candidate nor its twin is
    its own neighbour: four references are rewritten. *)
Lemma splice_fields h c t p n tp tn h4 :
  rd twin h (Some c) = Ok (Some t) →
  rd prev h (Some c) = Ok (Some p) → rd next h (Some c) = Ok (Some n) →
  rd prev h (Some t) = Ok (Some tp) → rd next h (Some t) = Ok (Some tn) →
  rd prev h (Some n) = Ok (Some c) →
  c ≠ p → t ≠ tp →
  splice h (Some c) = Ok h4 →
  (∀ r, rd next h4 (Some r) =
        if decide (r = tp) then Ok (Some n)
        else if decide (r = p) then Ok (Some tn)
        else rd next h (Some r)) ∧
  (∀ r, rd prev h4 (Some r) =
        if decide (r = tn) then Ok (Some p)
        else if decide (r = n) then Ok (Some tp)
        else rd prev h (Some r)) ∧
  keeps vertex h h4 ∧ keeps twin h h4 ∧ keeps polygon h h4 ∧ keeps nodeIndex h h4 ∧
  hpolys h4 = hpolys h.
Proof.
  intros Ht Hp Hn Htp Htn Hnp Hcp Http H.
  assert (Hkv := splice_keeps vertex untouched_vertex _ _ _ H).
  assert (Hkt := splice_keeps twin untouched_twin _ _ _ H).
  unfold splice in H. inv_bind H.
  repeat match goal with
  | Hw : wr _ ?h0 _ = Ok ?h1, Hr : rd twin ?h1 _ = _ |- _ =>
      rewrite (rd_wr_frame twin _ _ _ _ _ Hw (λ _, eq_refl)) in Hr
  end.
  repeat match goal with
  | Hr : rd twin h (Some c) = Ok ?x |- _ =>
      assert (x = Some t) as -> by congruence; clear Hr
  end.
  assert (a = Some p) as -> by congruence.
  assert (a1 = Some tn) as -> by congruence.
  rename a2 into h1, a6 into h2, a10 into h3.
  assert (a3 = Some n) as ->.
  { rewrite (rd_wr_ne _ _ _ _ _ _ Hcp E2) in E3. congruence. }
  assert (a5 = Some tp) as ->.
  { rewrite (rd_wr_frame prev _ _ _ _ _ E2 (λ _, eq_refl)) in E5. congruence. }
  assert (a8 = Some tp) as ->.
  { rewrite (rd_wr _ _ _ _ _ _ E6) in E8. case_decide.
    - apply rd_Some in E8 as (e & _ & <-). done.
    - rewrite (rd_wr_frame prev _ _ _ _ _ E2 (λ _, eq_refl)) in E8. congruence. }
  assert (a9 = Some n) as ->.
  { rewrite (rd_wr_frame next _ _ _ _ _ E6 (λ _, eq_refl)) in E9.
    rewrite (rd_wr_ne _ _ _ _ _ _ Hcp E2) in E9. congruence. }
  assert (a12 = Some tn) as ->.
  { rewrite (rd_wr_ne _ _ _ _ _ _ Http E10) in E12.
    rewrite (rd_wr_frame next _ _ _ _ _ E6 (λ _, eq_refl)) in E12.
    rewrite (rd_wr _ _ _ _ _ _ E2) in E12. case_decide; [|congruence].
    apply rd_Some in E12 as (e & _ & <-). done. }
  assert (Hcn : c ≠ n).
  { intros <-. congruence. }
  assert (a13 = Some p) as ->.
  { rewrite (rd_wr_frame prev _ _ _ _ _ E10 (λ _, eq_refl)) in E13.
    rewrite (rd_wr_ne _ _ _ _ _ _ Hcn E6) in E13.
    rewrite (rd_wr_frame prev _ _ _ _ _ E2 (λ _, eq_refl)) in E13. congruence. }
  split; [|split; [|split; [done|split; [done|split; [|split]]]]].
  - intros r. rewrite (rd_wr_frame next _ _ _ _ _ H (λ _, eq_refl)).
    rewrite (rd_wr _ _ _ _ _ _ E10). case_decide.
    + subst r. apply rd_const; [by eapply wr_is_Some|done].
    + rewrite (rd_wr_frame next _ _ _ _ _ E6 (λ _, eq_refl)).
      rewrite (rd_wr _ _ _ _ _ _ E2). case_decide; [|done].
      subst r. apply rd_const; [by eapply wr_is_Some|done].
  - intros r. rewrite (rd_wr _ _ _ _ _ _ H). case_decide.
    + subst r. apply rd_const; [by eapply wr_is_Some|done].
    + rewrite (rd_wr_frame prev _ _ _ _ _ E10 (λ _, eq_refl)).
      rewrite (rd_wr _ _ _ _ _ _ E6). case_decide.
      * subst r. apply rd_const; [by eapply wr_is_Some|done].
      * by rewrite (rd_wr_frame prev _ _ _ _ _ E2 (λ _, eq_refl)).
  - intros r. rewrite (rd_wr_frame polygon _ _ _ _ _ H (λ _, eq_refl)).
    rewrite (rd_wr_frame polygon _ _ _ _ _ E10 (λ _, eq_refl)).
    rewrite (rd_wr_frame polygon _ _ _ _ _ E6 (λ _, eq_refl)).
    by rewrite (rd_wr_frame polygon _ _ _ _ _ E2 (λ _, eq_refl)).
  - intros r. rewrite (rd_wr_frame nodeIndex _ _ _ _ _ H (λ _, eq_refl)).
    rewrite (rd_wr_frame nodeIndex _ _ _ _ _ E10 (λ _, eq_refl)).
    rewrite (rd_wr_frame nodeIndex _ _ _ _ _ E6 (λ _, eq_refl)).
    by rewrite (rd_wr_frame nodeIndex _ _ _ _ _ E2 (λ _, eq_refl)).
  - rewrite (wr_polys _ _ _ _ H), (wr_polys _ _ _ _ E10), (wr_polys _ _ _ _ E6).
    apply (wr_polys _ _ _ _ E2).
Qed.

Lemma rdPoly_wrPoly {A} (f : Polygon → A) u h a h' P :
  wrPoly u h (Some a) = Ok h' →
  rdPoly f h' (Some P) = if decide (P = a) then rdPoly (f ∘ u) h (Some P) else rdPoly f h (Some P).
Proof.
  intros (p & Hp & ->)%wrPoly_Some. unfold rdPoly, derefPoly. simpl.
  case_decide.
  - subst. by rewrite lookup_insert_eq, Hp.
  - by rewrite lookup_insert_ne.
Qed.

(** The store after [trial]: the splice, and [polygon.edge] is the
    predecessor of the candidate. *)
Lemma trial_fields h c t p n tp tn h2 poly :
  rd twin h (Some c) = Ok (Some t) →
  rd prev h (Some c) = Ok (Some p) → rd next h (Some c) = Ok (Some n) →
  rd prev h (Some t) = Ok (Some tp) → rd next h (Some t) = Ok (Some tn) →
  rd prev h (Some n) = Ok (Some c) →
  c ≠ p → t ≠ tp →
  trial h (Some c) = Ok (h2, poly) →
  ∃ A, poly = Some A ∧ rd polygon h (Some c) = Ok (Some A) ∧
  (∀ P, rdPoly edge h2 (Some P) =
        if decide (P = A) then Ok (Some p) else rdPoly edge h (Some P)) ∧
  (∀ r, rd next h2 (Some r) =
        if decide (r = tp) then Ok (Some n)
        else if decide (r = p) then Ok (Some tn)
        else rd next h (Some r)) ∧
  (∀ r, rd prev h2 (Some r) =
        if decide (r = tn) then Ok (Some p)
        else if decide (r = n) then Ok (Some tp)
        else rd prev h (Some r)) ∧
  keeps vertex h h2 ∧ keeps twin h h2 ∧ keeps polygon h h2 ∧ keeps nodeIndex h h2.
Proof.
  intros Ht Hp Hn Htp Htn Hnp Hcp Http H. unfold trial in H. inv_bind H.
  injection H as <- <-. rename a into h4.
  destruct (splice_fields _ _ _ _ _ _ _ _ Ht Hp Hn Htp Htn Hnp Hcp Http E)
    as (Hnx & Hpv & Hkv & Hkt & Hkp & Hki & Hpolys).
  destruct (wrPoly_Ok_Some _ _ _ _ E2) as [A ->].
  assert (a1 = Some p) as ->.
  { rewrite Hpv in E1. assert (c ≠ n) by (intros <-; congruence).
    case_decide; [congruence|]. rewrite decide_False in E1 by done. congruence. }
  exists A. split; [done|]. split; [by rewrite <- Hkp|].
  split; [|split; [|split; [|split; [|split; [|split]]]]].
  - intros P. rewrite (rdPoly_wrPoly _ _ _ _ _ _ E2). case_decide.
    + subst. apply wrPoly_Some in E2 as (pA & HpA & _). apply rdPoly_Some. by exists pA.
    + unfold rdPoly, derefPoly. by rewrite Hpolys.
  - intros r. by rewrite (rd_wrPoly _ _ _ _ _ _ E2).
  - intros r. by rewrite (rd_wrPoly _ _ _ _ _ _ E2).
  - intros r. by rewrite (rd_wrPoly _ _ _ _ _ _ E2).
  - intros r. by rewrite (rd_wrPoly _ _ _ _ _ _ E2).
  - intros r. by rewrite (rd_wrPoly _ _ _ _ _ _ E2).
  - intros r. by rewrite (rd_wrPoly _ _ _ _ _ _ E2).
Qed.

(** ** The commit of a merge *)

Lemma foldM_set_polygon v l h h' :
  foldM (λ e h, wr (set_polygon v) h e) (Some <$> l) h = Ok h' →
  keeps next h h' ∧ keeps prev h h' ∧ keeps vertex h h' ∧ keeps twin h h' ∧
  keeps nodeIndex h h' ∧ hpolys h' = hpolys h ∧
  ∀ r, rd polygon h' (Some r) = if decide (r ∈ l) then Ok v else rd polygon h (Some r).
Proof.
  revert h. induction l as [|a l IH]; intros h H.
  - injection H as <-. repeat split; done.
  - change (Some <$> a :: l) with (Some a :: (Some <$> l)) in H. simpl in H. inv_bind H.
    rename a0 into h1.
    destruct (IH _ H) as (K1 & K2 & K3 & K4 & K5 & K6 & K7).
    split; [|split; [|split; [|split; [|split; [|split]]]]].
    + eapply keeps_trans; [|exact K1]. eapply keeps_wr; [|exact E]; done.
    + eapply keeps_trans; [|exact K2]. eapply keeps_wr; [|exact E]; done.
    + eapply keeps_trans; [|exact K3]. eapply keeps_wr; [|exact E]; done.
    + eapply keeps_trans; [|exact K4]. eapply keeps_wr; [|exact E]; done.
    + eapply keeps_trans; [|exact K5]. eapply keeps_wr; [|exact E]; done.
    + rewrite K6. by eapply wr_polys.
    + intros r. rewrite K7. destruct (decide (r ∈ l)) as [Hin|Hnin].
      * rewrite decide_True; [done|by right].
      * rewrite (rd_wr _ _ _ _ _ _ E). destruct (decide (r = a)) as [->|Hne].
        -- rewrite decide_True by (by left). apply rd_const; [by eapply wr_is_Some|done].
        -- rewrite decide_False; [done|]. by intros [?|?]%elem_of_cons.
Qed.

Lemma commit_fields fuel h2 rs c A p V h6 rs' :
  rdPoly edge h2 (Some A) = Ok (Some p) →
  cyc_list h2 V → NoDup V → p ∈ V →
  commit fuel h2 rs (Some c) (Some A) = Ok (h6, rs') →
  keeps next h2 h6 ∧ keeps prev h2 h6 ∧ keeps vertex h2 h6 ∧ keeps twin h2 h6 ∧
  keeps nodeIndex h2 h6 ∧ hpolys h6 = hpolys h2 ∧
  (∀ r, rd polygon h6 (Some r) =
        if decide (r ∈ V) then Ok (Some A) else rd polygon h2 (Some r)) ∧
  ∃ t B, rd twin h2 (Some c) = Ok t ∧ rd polygon h6 t = Ok B ∧ rs' = set_delete B rs.
Proof.
  intros Hedge Hc Hnd Hp H. unfold commit in H. inv_bind H. injection H as <- <-.
  assert (a = Some p) as -> by congruence.
  apply list_elem_of_split in Hp as (l1 & l2 & ->).
  pose proof (cyc_rotate _ _ _ _ Hc) as Hc'.
  assert (Hperm : p :: l2 ++ l1 ≡ₚ l1 ++ p :: l2).
  { rewrite (Permutation_app_comm l1). done. }
  assert (Hnd' : NoDup (p :: l2 ++ l1)) by (by rewrite Hperm).
  apply (doWhile_cycle id h2 _ _ _ p (l2 ++ l1)) in E0 as (Hf & _ & _);
    [|intros e s s1 [Hn Hpl] Hw; split;
        [eapply keeps_trans; [exact Hn|eapply keeps_wr; [|exact Hw]; done]
        |intros P; rewrite <- Hpl; by eapply rdPoly_wr]
     |apply nav_same_refl|done|done|done].
  destruct (foldM_set_polygon _ _ _ _ Hf) as (K1 & K2 & K3 & K4 & K5 & K6 & K7).
  repeat (split; [done|]). split.
  - intros r. rewrite K7. destruct (decide (r ∈ p :: l2 ++ l1)) as [Hin|Hnin].
    + rewrite decide_True; [done|]. by rewrite <- Hperm.
    + rewrite decide_False; [done|]. by rewrite <- Hperm.
  - exists a1, a2. rewrite <- K4. done.
Qed.

(** ** What the loop of [_buildRegions] keeps *)

(** The test of the twin search holds for an edge and its twin. *)
Definition geo (h : Heap) (e t : ref) : Prop := rev h (Some e) (Some t).

(** The regions of which nothing is known: input polygons that do not pass
    the convexity test. *)
Variable Q : pref → Prop.

Record region_inv (fuel : nat) (h : Heap) (rs : list pref) (cands : list ref)
    (cyc : list (list ref)) : Prop := {
  (* the cycles are disjoint lists of distinct edges, each doubly linked *)
  ri_nodup : NoDup (concat cyc);
  ri_cyc : ∀ l, l ∈ cyc → cyc_list h l ∧ 2 ≤ length l;
  (* the edges of a cycle refer to one polygon *)
  ri_owner : ∀ l, l ∈ cyc → ∃ P, ∀ e, e ∈ l → rd polygon h (Some e) = Ok (Some P);
  ri_rs : NoDup rs;
  (* the cycle of a region holds its edge and all the edges that refer to
     the region; unless the region is one of the unknown ones, the test
     passes at each of its edges *)
  ri_region : ∀ R, R ∈ rs → ∃ l e0, l ∈ cyc ∧
      rdPoly edge h (Some R) = Ok (Some e0) ∧ e0 ∈ l ∧
      rd polygon h (Some e0) = Ok (Some R) ∧
      (∀ e, e ∈ concat cyc → rd polygon h (Some e) = Ok (Some R) → e ∈ l) ∧
      (Q R ∨ (length l ≤ fuel ∧ ∀ x, x ∈ l → triple_ok h (Some x)));
  (* twins are in the cycles, symmetric, and pass the test of the search *)
  ri_twin : ∀ e t, e ∈ concat cyc → rd twin h (Some e) = Ok (Some t) →
      t ∈ concat cyc ∧ t ≠ e ∧ rd twin h (Some t) = Ok (Some e) ∧ geo h e t;
  ri_nondeg : ∀ e, e ∈ concat cyc → nondeg h e;
  (* the candidates to come are edges of the cycles in distinct pairs *)
  ri_cands : NoDup (pair_list h cands) ∧
      ∀ c, c ∈ cands → c ∈ concat cyc ∧ ∃ t, rd twin h (Some c) = Ok (Some t)
}.

Lemma path_keeps h h' l : keeps next h h' → keeps prev h h' → path h l → path h' l.
Proof. intros Hn Hp H. eapply path_frame; [exact H| |]; intros; [apply Hn|apply Hp]. Qed.

Lemma cyc_list_keeps h h' l :
  keeps next h h' → keeps prev h h' → cyc_list h l → cyc_list h' l.
Proof. destruct l; [done|]. apply path_keeps. Qed.

Lemma edge_to_keeps h h' e :
  keeps next h h' → keeps vertex h h' → edge_to h' e = edge_to h e.
Proof.
  intros Hn Hv. unfold edge_to. rewrite Hn. destruct (rd next h e); simpl; [apply Hv|done].
Qed.

Lemma triple_ok_keeps h h' x :
  keeps next h h' → keeps vertex h h' → triple_ok h x → triple_ok h' x.
Proof.
  intros Hn Hv (v1 & v2 & n & v3 & H1 & H2 & H3 & H4 & H5). exists v1, v2, n, v3.
  unfold edge_from. rewrite !(edge_to_keeps h h') by done. rewrite Hn, Hv. done.
Qed.

Lemma rev_keeps h h' e t :
  keeps next h h' → keeps vertex h h' → rev h e t → rev h' e t.
Proof.
  intros Hn Hv (f0 & t1 & t0 & f1 & H1 & H2 & H3 & H4 & H5 & H6). exists f0, t1, t0, f1.
  unfold edge_from. rewrite !(edge_to_keeps h h') by done. rewrite !Hv. done.
Qed.

Lemma nondeg_keeps h h' e :
  keeps next h h' → keeps vertex h h' → nondeg h e → nondeg h' e.
Proof.
  intros Hn Hv H f t. unfold edge_from. rewrite (edge_to_keeps h h') by done. rewrite Hv. apply H.
Qed.

Lemma twin_of_keeps h h' c : keeps twin h h' → twin_of h' c = twin_of h c.
Proof.
  intros Hk. specialize (Hk (Some c)). unfold rd, deref, twin_of in *.
  destruct (hedges h' !! c), (hedges h !! c); simpl in *; congruence.
Qed.

Lemma pair_list_keeps h h' cands : keeps twin h h' → pair_list h' cands = pair_list h cands.
Proof. intros Hk. apply pair_list_ext. intros c _. by apply twin_of_keeps. Qed.

(** The invariant passes to a store with the same edges, where the edge of a
    region may have moved to another edge that refers to the region. *)
Lemma region_inv_transfer fuel h h' rs cands cyc :
  keeps next h h' → keeps prev h h' → keeps vertex h h' → keeps twin h h' →
  keeps polygon h h' →
  (∀ R e0, R ∈ rs → rdPoly edge h (Some R) = Ok (Some e0) →
     ∃ e0', rdPoly edge h' (Some R) = Ok (Some e0') ∧
            (e0' = e0 ∨ (e0' ∈ concat cyc ∧ rd polygon h (Some e0') = Ok (Some R)))) →
  region_inv fuel h rs cands cyc → region_inv fuel h' rs cands cyc.
Proof.
  intros Hn Hp Hv Ht Hpl Hedge [I1 I2 I3 I4 I5 I6 I7 I8]. split.
  - done.
  - intros l Hl. destruct (I2 l Hl). split; [by eapply cyc_list_keeps|done].
  - intros l Hl. destruct (I3 l Hl) as [P HP]. exists P. intros e He. rewrite Hpl. by apply HP.
  - done.
  - intros R HR. destruct (I5 R HR) as (l & e0 & Hl & He0 & Hin & Hpoly & Huniq & Hconv).
    destruct (Hedge R e0 HR He0) as (e0' & He0' & Hcase).
    exists l, e0'. split; [done|]. split; [done|].
    assert (e0' ∈ l ∧ rd polygon h (Some e0') = Ok (Some R)) as [? ?].
    { destruct Hcase as [->|[? ?]]; [done|]. split; [by apply Huniq|done]. }
    split; [done|]. split; [by rewrite Hpl|]. split.
    + intros e He. rewrite Hpl. by apply Huniq.
    + destruct Hconv as [?|[Hlen Hok]]; [by left|right].
      split; [done|]. intros x Hx. eapply triple_ok_keeps; eauto.
  - intros e t He. rewrite !Ht. intros Hte. destruct (I6 e t He Hte) as (? & ? & ? & ?).
    repeat split; try done. by eapply rev_keeps.
  - intros e He. eapply nondeg_keeps; eauto.
  - destruct I8 as [Hnd Hc]. rewrite (pair_list_keeps h h') by done. split; [done|].
    intros c Hc'. rewrite Ht. by apply Hc.
Qed.

End RegionInvariant.

(** * A round of the region loop keeps the invariant *)

Section MergeFacts.
Context {G : Geometry}.
Hypothesis Hsym : equals_sym.
Hypothesis Htrans : equals_trans.
Variable Q : pref → Prop.
#[local] Abbreviation region_inv := (region_inv Q).

(** Two points that are the same or pass [equals]. *)
Definition eqv (a b : Vector3) : Prop := a = b ∨ equals a b = true.

Lemma equals_eqv a b a' b' :
  eqv a a' → eqv b b' → equals a b = true → equals a' b' = true.
Proof.
  intros Ha Hb H.
  assert (H1 : equals a' b = true).
  { destruct Ha as [->|Ha]; [done|]. eapply Htrans; [|exact H]. by apply Hsym. }
  destruct Hb as [->|Hb]; [done|]. eapply Htrans; eauto.
Qed.

Lemma eqv_sym a b : eqv a b → eqv b a.
Proof. intros [->|H]; [by left|right; by apply Hsym]. Qed.

(** *** The points of the edges after a splice *)
Section Spliced.
Variables (h h6 : Heap) (c t p n tp tn : ref).
Hypothesis Hnext6 : ∀ r, rd next h6 (Some r) =
  if decide (r = tp) then Ok (Some n)
  else if decide (r = p) then Ok (Some tn) else rd next h (Some r).
Hypothesis Hvertex : keeps vertex h h6.
Hypothesis Hpc : rd next h (Some p) = Ok (Some c).
Hypothesis Hcn : rd next h (Some c) = Ok (Some n).
Hypothesis Htpt : rd next h (Some tp) = Ok (Some t).
Hypothesis Httn : rd next h (Some t) = Ok (Some tn).
Hypothesis Hgeo : geo h c t.

Lemma spliced_edge_to r :
  (∀ v, edge_to h (Some r) = Ok v → ∃ v', edge_to h6 (Some r) = Ok v' ∧ eqv v v') ∧
  (∀ v', edge_to h6 (Some r) = Ok v' → ∃ v, edge_to h (Some r) = Ok v ∧ eqv v v').
Proof.
  destruct Hgeo as (f0 & t1 & t0 & f1 & H1 & H2 & H3 & H4 & H5 & H6).
  unfold edge_from, edge_to in *. rewrite Hcn in H4. rewrite Httn in H2. simpl in *.
  rewrite Hnext6. destruct (decide (r = tp)) as [->|?]; [|destruct (decide (r = p)) as [->|?]].
  - rewrite Htpt. simpl. rewrite !Hvertex, H4, H5. split.
    + intros v [= <-]. exists t0. split; [done|]. right. by apply Hsym.
    + intros v [= <-]. exists f1. split; [done|]. right. by apply Hsym.
  - rewrite Hpc. simpl. rewrite !Hvertex, H1, H2. split.
    + intros v [= <-]. exists t1. split; [done|]. by right.
    + intros v [= <-]. exists f0. split; [done|]. by right.
  - destruct (rd next h (Some r)) as [x|]; simpl; [|done]. rewrite Hvertex. split.
    + intros v Hv. exists v. split; [done|by left].
    + intros v Hv. exists v. split; [done|by left].
Qed.

Lemma spliced_rev e e' : rev h (Some e) (Some e') → rev h6 (Some e) (Some e').
Proof.
  intros (f0 & t1 & t0 & f1 & H1 & H2 & H3 & H4 & H5 & H6).
  destruct (proj1 (spliced_edge_to e') _ H2) as (t1' & K2 & E2).
  destruct (proj1 (spliced_edge_to e) _ H4) as (t0' & K4 & E4).
  exists f0, t1', t0', f1. unfold edge_from in *. rewrite !Hvertex.
  repeat split; try done.
  - eapply equals_eqv; [by left|exact E2|done].
  - eapply equals_eqv; [exact E4|by left|done].
Qed.

Lemma spliced_nondeg e : nondeg h e → nondeg h6 e.
Proof.
  intros H f v'. unfold edge_from. rewrite Hvertex. intros Hf Hv'.
  destruct (proj2 (spliced_edge_to e) _ Hv') as (v & Hv & E).
  specialize (H f v Hf Hv). destruct (equals f v') eqn:Heq; [|done].
  rewrite <- H. symmetry. eapply equals_eqv; [by left|apply eqv_sym, E|done].
Qed.

End Spliced.

(** *** Lists of cycles *)

Lemma elem_of_concat {A} (ls : list (list A)) x : x ∈ concat ls ↔ ∃ l, l ∈ ls ∧ x ∈ l.
Proof.
  induction ls as [|l ls IH]; simpl.
  - split; [by intros ?%elem_of_nil|by intros (l & ?%elem_of_nil & _)].
  - rewrite elem_of_app, IH. split.
    + intros [H|(l' & H1 & H2)]; [exists l; split; [by left|done]|exists l'; split; [by right|done]].
    + intros (l' & [->|H1]%elem_of_cons & H2); [by left|right; by exists l'].
Qed.

Lemma concat_Permutation {A} (ls ls' : list (list A)) : ls ≡ₚ ls' → concat ls ≡ₚ concat ls'.
Proof.
  induction 1 as [|x l l' _ IH|x y l|l l' l'' _ IH1 _ IH2]; simpl.
  - done.
  - by rewrite IH.
  - rewrite !app_assoc. by rewrite (Permutation_app_comm y x).
  - by rewrite IH1.
Qed.

(** Two cycles of a disjoint family that share an edge are the same. *)
Lemma cycle_unique {A} (ls : list (list A)) l l' x :
  NoDup (concat ls) → l ∈ ls → l' ∈ ls → x ∈ l → x ∈ l' → l = l'.
Proof.
  induction ls as [|k ls IH]; [by intros _ ?%elem_of_nil|]. simpl.
  intros (Hk & Hdisj & Hls)%NoDup_app [->|Hl]%elem_of_cons [->|Hl']%elem_of_cons Hx Hx'.
  - done.
  - exfalso. apply (Hdisj x Hx). apply elem_of_concat. by exists l'.
  - exfalso. apply (Hdisj x Hx'). apply elem_of_concat. by exists l.
  - by apply IH.
Qed.

(** *** A committed merge keeps the invariant

    [olds] are the cycles of the candidate and of its twin, [news] the
    cycles the splice leaves of them. *)
Section CommitInv.
Variables (fuel : nat) (h h6 : Heap) (rs : list pref) (cands : list ref).
Variables (cyc olds others news : list (list ref)) (c t p n tp tn : ref) (A B : pref).
Hypothesis Hinv : region_inv fuel h rs (c :: cands) cyc.
Hypothesis Hperm : cyc ≡ₚ olds ++ others.
Hypothesis Holds : ∀ l, l ∈ olds → c ∈ l ∨ t ∈ l.
Hypothesis Hc : c ∈ concat olds.
Hypothesis Ht : t ∈ concat olds.
Hypothesis Hp : p ∈ concat olds.
Hypothesis Hn : n ∈ concat olds.
Hypothesis Htp : tp ∈ concat olds.
Hypothesis Htn : tn ∈ concat olds.
Hypothesis Htwin : rd twin h (Some c) = Ok (Some t).
Hypothesis HA : rd polygon h (Some c) = Ok (Some A).
Hypothesis HB : rd polygon h (Some t) = Ok (Some B).
Hypothesis Hpc : rd next h (Some p) = Ok (Some c).
Hypothesis Hcn : rd next h (Some c) = Ok (Some n).
Hypothesis Htpt : rd next h (Some tp) = Ok (Some t).
Hypothesis Httn : rd next h (Some t) = Ok (Some tn).
Hypothesis Hnext6 : ∀ r, rd next h6 (Some r) =
  if decide (r = tp) then Ok (Some n)
  else if decide (r = p) then Ok (Some tn) else rd next h (Some r).
Hypothesis Hprev6 : ∀ r, rd prev h6 (Some r) =
  if decide (r = tn) then Ok (Some p)
  else if decide (r = n) then Ok (Some tp) else rd prev h (Some r).
Hypothesis Hvertex : keeps vertex h h6.
Hypothesis Htwin6 : keeps twin h h6.
Hypothesis Hpoly_others : ∀ r, r ∉ concat olds → rd polygon h6 (Some r) = rd polygon h (Some r).
Hypothesis Hpoly_news : ∀ r, r ∈ concat news → rd polygon h6 (Some r) = Ok (Some A).
Hypothesis Hedge6 : ∀ P, rdPoly edge h6 (Some P) =
  if decide (P = A) then Ok (Some p) else rdPoly edge h (Some P).
Hypothesis Hnews_nodup : NoDup (concat news).
Hypothesis Hnews_elem : ∀ e, e ∈ concat news ↔ e ∈ concat olds ∧ e ≠ c ∧ e ≠ t.
Hypothesis Hnews_cyc : ∀ l, l ∈ news → cyc_list h6 l ∧ 2 ≤ length l.
Hypothesis Hlive : A ∈ set_delete (Some B) rs →
  ∃ l, news = [l] ∧ p ∈ l ∧ length l ≤ fuel ∧ ∀ x, x ∈ l → triple_ok h6 (Some x).

Let Hnd : NoDup (concat olds ++ concat others).
Proof. rewrite <- concat_app, <- (concat_Permutation _ _ Hperm). apply Hinv. Qed.

Let Hdisj : ∀ e, e ∈ concat olds → e ∉ concat others.
Proof. apply NoDup_app in Hnd as (_ & H & _). exact H. Qed.

Let Hcyc_elem : ∀ e, e ∈ concat cyc ↔ e ∈ concat olds ∨ e ∈ concat others.
Proof. intros e. by rewrite (concat_Permutation _ _ Hperm), concat_app, elem_of_app. Qed.

Let Hothers_next : ∀ x, x ∉ concat olds → rd next h6 (Some x) = rd next h (Some x).
Proof.
  intros x Hx. rewrite Hnext6. rewrite !decide_False; [done| |]; by intros ->.
Qed.

Let Hothers_prev : ∀ x, x ∉ concat olds → rd prev h6 (Some x) = rd prev h (Some x).
Proof.
  intros x Hx. rewrite Hprev6. rewrite !decide_False; [done| |]; by intros ->.
Qed.

Let Hothers_in : ∀ l x, l ∈ others → x ∈ l → x ∉ concat olds.
Proof.
  intros l x Hl Hx Ho. apply (Hdisj x Ho). apply elem_of_concat. by exists l.
Qed.

Let Hothers_cyc : ∀ l, l ∈ others → l ∈ cyc.
Proof. intros l Hl. rewrite Hperm. apply elem_of_app. by right. Qed.

Let Hgeo : geo h c t.
Proof.
  destruct Hinv as [_ _ _ _ _ I6 _ _]. apply (I6 c t); [|done].
  apply Hcyc_elem. by left.
Qed.

Lemma commit_inv : region_inv fuel h6 (set_delete (Some B) rs) cands (news ++ others).
Proof.
  destruct Hinv as [I1 I2 I3 I4 I5 I6 I7 I8]. split.
  - rewrite concat_app. apply NoDup_app. split; [done|]. split.
    + intros e He. apply Hdisj. by apply Hnews_elem.
    + by apply NoDup_app in Hnd as (_ & _ & ?).
  - intros l [Hl|Hl]%elem_of_app; [by apply Hnews_cyc|].
    destruct (I2 l (Hothers_cyc l Hl)) as [Hcl Hlen]. split; [|done].
    destruct l as [|e0 rest]; [done|]. unfold cyc_list in *.
    eapply path_frame; [exact Hcl| |].
    + intros a Ha. apply Hothers_next. apply (Hothers_in _ _ Hl).
      rewrite app_comm_cons, removelast_snoc in Ha. done.
    + intros b Hb. apply Hothers_prev. apply (Hothers_in _ _ Hl).
      simpl in Hb. apply elem_of_app in Hb as [Hb|Hb%list_elem_of_singleton]; [by right|subst b; by left].
  - intros l [Hl|Hl]%elem_of_app.
    + exists A. intros e He. apply Hpoly_news. apply elem_of_concat. by exists l.
    + destruct (I3 l (Hothers_cyc l Hl)) as [P HP]. exists P. intros e He.
      rewrite Hpoly_others; [by apply HP|]. by apply (Hothers_in _ _ Hl).
  - simpl. by apply NoDup_filter.
  - intros R HR. destruct (decide (R = A)) as [->|HRA].
    + destruct (Hlive HR) as (l & -> & Hpl & Hlen & Hok).
      simpl in HR. apply list_elem_of_filter in HR as [HAB HArs].
      exists l, p. split; [by left|]. split; [by rewrite Hedge6, decide_True|].
      split; [done|]. split; [apply Hpoly_news; simpl; rewrite app_nil_r; done|].
      split; [|by right].
      intros e He Hpe. simpl in He.
      apply elem_of_app in He as [He|He]; [done|]. exfalso.
      assert (Heo : e ∉ concat olds) by (intros Heo; by apply (Hdisj e Heo)).
      rewrite Hpoly_others in Hpe by done.
      destruct (I5 A HArs) as (lA & e0 & HlA & _ & _ & _ & Huniq & _).
      assert (HcA : c ∈ lA). { apply Huniq; [|done]. apply Hcyc_elem. by left. }
      assert (HeA : e ∈ lA). { apply Huniq; [|done]. apply Hcyc_elem. by right. }
      apply Heo. rewrite Hperm in HlA. apply elem_of_app in HlA as [HlA|HlA].
      * apply elem_of_concat. by exists lA.
      * exfalso. apply (Hdisj c Hc). apply elem_of_concat. by exists lA.
    + simpl in HR. apply list_elem_of_filter in HR as [HRB HRrs].
      destruct (I5 R HRrs) as (l & e0 & Hl & He0 & Hin & Hpoly & Huniq & Hconv).
      assert (Hlo : l ∈ others).
      { pose proof Hl as Hl'. rewrite Hperm in Hl'. apply elem_of_app in Hl' as [Hl'|Hl']; [|done].
        exfalso. destruct (I3 l Hl) as [P HP].
        assert (P = R) as -> by (specialize (HP e0 Hin); congruence).
        destruct (Holds l Hl') as [Hx|Hx]; specialize (HP _ Hx); congruence. }
      exists l, e0. split; [apply elem_of_app; by right|].
      split; [by rewrite Hedge6, decide_False|]. split; [done|].
      split; [rewrite Hpoly_others; [done|by apply (Hothers_in _ _ Hlo)]|].
      split; [|destruct Hconv as [?|[Hlen Hok]]; [by left|right; split; [done|]]].
      * intros e He Hpe. rewrite concat_app in He. apply elem_of_app in He as [He|He].
        { rewrite Hpoly_news in Hpe by done. congruence. }
        assert (Heo : e ∉ concat olds) by (intros Heo; by apply (Hdisj e Heo)).
        rewrite Hpoly_others in Hpe by done. apply Huniq; [|done]. apply Hcyc_elem. by right.
      * intros x Hx. destruct (Hok x Hx) as (v1 & v2 & nx & v3 & H1 & H2 & H3 & H4 & H5).
        destruct (cyc_succ h l x (proj1 (I2 l Hl)) Hx) as (y & Hy & [Hxy _]).
        assert (nx = Some y) as -> by congruence.
        exists v1, v2, (Some y), v3. unfold edge_from, edge_to in *.
        rewrite !Hothers_next by (by eapply Hothers_in). rewrite Hxy in *. simpl in *.
        destruct (rd next h (Some y)) as [ny|]; simpl in *; [|done].
        rewrite !Hvertex. done.
  - intros e t' He. rewrite !Htwin6. intros Hte.
    assert (Hec : e ∈ concat cyc ∧ e ≠ c ∧ e ≠ t).
    { rewrite concat_app in He. apply elem_of_app in He as [He|He].
      - apply Hnews_elem in He as (? & ? & ?). split; [apply Hcyc_elem; by left|done].
      - split; [apply Hcyc_elem; by right|]. split; intros ->; [exact (Hdisj _ Hc He)|exact (Hdisj _ Ht He)]. }
    destruct Hec as (Hec & Hnc & Hnt).
    destruct (I6 e t' Hec Hte) as (Ht'c & Hne & Hback & Hg).
    destruct (I6 c t) as (_ & _ & Hback' & _); [apply Hcyc_elem; by left|done|].
    assert (t' ≠ c) by (intros ->; congruence).
    assert (t' ≠ t) by (intros ->; congruence).
    split; [|split; [done|split; [done|]]].
    + rewrite concat_app. apply elem_of_app. apply Hcyc_elem in Ht'c as [Ho|Ho].
      * left. by apply Hnews_elem.
      * by right.
    + by apply (spliced_rev h h6 c t p n tp tn).
  - intros e He. apply (spliced_nondeg h h6 c t p n tp tn); try done. apply I7.
    rewrite concat_app in He. apply elem_of_app in He as [He|He].
    + apply Hnews_elem in He as (? & _). apply Hcyc_elem. by left.
    + apply Hcyc_elem. by right.
  - destruct I8 as [Hndp Hcs]. rewrite (pair_list_keeps h h6) by done.
    change (pair_list h (c :: cands)) with ([c; twin_of h c] ++ pair_list h cands) in Hndp.
    rewrite (twin_of_rd _ _ _ Htwin) in Hndp.
    apply NoDup_app in Hndp as (_ & Hd & Hndp). split; [done|].
    intros c' Hc'. rewrite Htwin6. destruct (Hcs c') as (Hin & t' & Ht'); [by right|].
    split; [|by exists t'].
    assert (Hpl : c' ∈ pair_list h cands).
    { apply elem_of_pair_list. exists c'. split; [done|by left]. }
    assert (c' ≠ c) by (intros ->; apply (Hd c); [by left|done]).
    assert (c' ≠ t) by (intros ->; apply (Hd t); [right; by left|done]).
    rewrite concat_app. apply elem_of_app. apply Hcyc_elem in Hin as [Ho|Ho].
    + left. by apply Hnews_elem.
    + by right.
Qed.

End CommitInv.

(** *** Arcs: the edges from one edge to another *)

Definition arc (h : Heap) (a : ref) (X : list ref) (b : ref) : Prop := path h (a :: X ++ [b]).

Lemma arc_nil h a b : arc h a [] b ↔ link h a b.
Proof. unfold arc. simpl. rewrite path_cons, path_one. tauto. Qed.

Lemma arc_ends h a X b :
  arc h a X b → X ≠ [] →
  ∃ x y, head X = Some x ∧ last X = Some y ∧ link h a x ∧ link h y b ∧ path h X.
Proof.
  unfold arc. intros H HX. destruct X as [|x X]; [done|]. clear HX.
  destruct (last (x :: X)) as [y|] eqn:Hy; [|by apply last_None in Hy].
  exists x, y. simpl. split; [done|]. split; [done|].
  change (path h (a :: x :: (X ++ [b]))) in H. apply path_cons in H as [Hax H]. split; [done|].
  change (path h ((x :: X) ++ [b])) in H. split.
  - by apply (path_app_link h (x :: X) [b] y b).
  - by apply path_app_l in H.
Qed.

Lemma cyc_list_arcs h c X t Y :
  cyc_list h (c :: X ++ t :: Y) ↔ arc h c X t ∧ arc h t Y c.
Proof.
  unfold cyc_list, arc.
  replace (c :: (X ++ t :: Y) ++ [c]) with ((c :: X) ++ t :: (Y ++ [c]))
    by (simpl; by rewrite <- app_assoc).
  apply path_app.
Qed.

Lemma elem_removelast {A} (l : list A) x y :
  NoDup l → last l = Some y → x ∈ removelast l → x ∈ l ∧ x ≠ y.
Proof.
  intros Hnd Hy Hx. destruct (last_Some l y) as [[l' ->] _]; [done|].
  rewrite removelast_snoc in Hx. split; [apply elem_of_app; by left|].
  intros ->. apply NoDup_app in Hnd as (_ & Hd & _). apply (Hd y Hx). by left.
Qed.

Lemma elem_tail {A} (l : list A) x y :
  NoDup l → head l = Some y → x ∈ tail l → x ∈ l ∧ x ≠ y.
Proof.
  destruct l as [|a l]; [done|]. simpl. intros [Ha _]%NoDup_cons [= ->] Hx.
  split; [by right|]. by intros ->.
Qed.

(** A stretch of edges stays linked when the splice changes the [next] of
    its last edge and the [prev] of its first edge at most. *)
Lemma seg_frame h h2 X x y :
  path h X → NoDup X → head X = Some x → last X = Some y →
  (∀ r, r ∈ X → r ≠ y → rd next h2 (Some r) = rd next h (Some r)) →
  (∀ r, r ∈ X → r ≠ x → rd prev h2 (Some r) = rd prev h (Some r)) →
  path h2 X.
Proof.
  intros HX Hnd Hx Hy Hnext Hprev. eapply path_frame; [exact HX| |].
  - intros a [? ?]%(elem_removelast _ _ y); auto.
  - intros b [? ?]%(elem_tail _ _ x); auto.
Qed.

(** No edge joins the end of an edge to the end of its twin. *)
Lemma no_digon h c t x :
  geo h c t → rd next h (Some c) = Ok (Some x) → rd next h (Some x) = Ok (Some t) →
  nondeg h x → False.
Proof.
  intros (f0 & t1 & t0 & f1 & H1 & H2 & H3 & H4 & H5 & H6) Hcx Hxt Hnd.
  unfold edge_from, edge_to in *. rewrite Hcx in H4. simpl in H4.
  specialize (Hnd t0 f1). unfold edge_from, edge_to in Hnd. rewrite Hxt in Hnd. simpl in Hnd.
  rewrite Hnd in H6; done.
Qed.

(** A walk along [next] that enters a set of edges closed under [next]
    never reaches an edge outside of it. *)
Lemma chain_stuck h (S : list ref) x l stop :
  (∀ a, a ∈ S → ∃ b, b ∈ S ∧ rd next h (Some a) = Ok (Some b)) →
  x ∈ S → stop ∉ S → chain h (Some x :: l) (Some stop) → False.
Proof.
  intros Hclosed. revert x. induction l as [|y l IH]; intros x Hx Hstop Hc.
  - simpl in Hc. destruct (Hclosed x Hx) as (b & Hb & Hxb).
    assert (b = stop) as -> by congruence. done.
  - simpl in Hc. destruct Hc as (Hn & _ & Hc). destruct (Hclosed x Hx) as (b & Hb & Hxb).
    assert (y = Some b) as -> by congruence. by apply (IH b).
Qed.

Lemma region_inv_cands_tail fuel h rs c cands cyc :
  region_inv fuel h rs (c :: cands) cyc → region_inv fuel h rs cands cyc.
Proof.
  intros [I1 I2 I3 I4 I5 I6 I7 [Hnd Hc]]. split; try done. split.
  - change (pair_list h (c :: cands)) with ([c; twin_of h c] ++ pair_list h cands) in Hnd.
    by apply NoDup_app in Hnd as (_ & _ & ?).
  - intros c' Hc'. apply Hc. by right.
Qed.

(** The edges of the candidate and of its twin, by the invariant. *)
Lemma region_inv_candidate fuel h rs c cands cyc :
  region_inv fuel h rs (c :: cands) cyc →
  ∃ t lc lt, rd twin h (Some c) = Ok (Some t) ∧ t ≠ c ∧ geo h c t ∧
    lc ∈ cyc ∧ c ∈ lc ∧ lt ∈ cyc ∧ t ∈ lt.
Proof.
  intros [I1 I2 I3 I4 I5 I6 I7 [Hnd Hc]].
  destruct (Hc c) as (Hin & t & Ht); [by left|].
  destruct (I6 c t Hin Ht) as (Htin & Hne & _ & Hg).
  apply elem_of_concat in Hin as (lc & ? & ?). apply elem_of_concat in Htin as (lt & ? & ?).
  by exists t, lc, lt.
Qed.

(** *** A candidate that is rolled back *)
Lemma rollback_inv fuel entry c h rs cands cyc h2 poly h' rs' :
  entry_edge entry = Some c →
  region_inv fuel h rs (c :: cands) cyc →
  trial h (Some c) = Ok (h2, poly) →
  convex fuel h2 poly = Ok false →
  mergeCandidate fuel entry (h, rs) = Ok (h', rs') →
  region_inv fuel h' rs' cands cyc.
Proof.
  intros Hentry Hinv Htrial Hconv Hm.
  destruct (region_inv_candidate _ _ _ _ _ _ Hinv) as (t & lc & lt & Ht & Hne & Hg & Hlc & Hc & Hlt & Htl).
  pose proof Hinv as [I1 I2 I3 I4 I5 I6 I7 I8].
  assert (Hdc : doubly_linked h c) by (eapply cyc_doubly_linked; [apply (I2 lc Hlc)|done]).
  assert (Hdt : doubly_linked h t) by (eapply cyc_doubly_linked; [apply (I2 lt Hlt)|done]).
  destruct (trial_rollback fuel h c t rs entry h2 poly Hentry Ht Hdc Hdt Htrial Hconv)
    as (A & pA & -> & HA & HpA & Hm').
  rewrite Hm' in Hm. injection Hm as <- <-.
  apply region_inv_cands_tail in Hinv.
  eapply region_inv_transfer; [..|exact Hinv]; try (intros r; reflexivity).
  intros R e0 HR He0. destruct (decide (R = A)) as [->|HRA].
  - exists c. split.
    + unfold rdPoly, derefPoly. simpl. by rewrite lookup_insert_eq.
    + right. split; [|done]. apply elem_of_concat. by exists lc.
  - exists e0. split; [|by left].
    unfold rdPoly, derefPoly in *. simpl. by rewrite lookup_insert_ne.
Qed.

Lemma head_elem {A} (l : list A) x : head l = Some x → x ∈ l.
Proof. destruct l; [done|]. intros [= ->]. by left. Qed.

Lemma last_elem {A} (l : list A) x : last l = Some x → x ∈ l.
Proof. intros [l' ->]%last_Some. apply elem_of_app. right. by left. Qed.

(** A cycle turned so that a given edge comes first. *)
Lemma cyc_from h l x :
  cyc_list h l → x ∈ l → ∃ X, cyc_list h (x :: X) ∧ x :: X ≡ₚ l.
Proof.
  intros Hc (l1 & l2 & ->)%list_elem_of_split. exists (l2 ++ l1). split.
  - by apply cyc_rotate.
  - rewrite (Permutation_app_comm l1). done.
Qed.

(** The edges of a candidate [c] with twin [t], before the splice. *)
Record around (h : Heap) (c t p n tp tn : ref) : Prop := {
  ar_twin : rd twin h (Some c) = Ok (Some t);
  ar_pc : link h p c;
  ar_cn : link h c n;
  ar_tpt : link h tp t;
  ar_ttn : link h t tn;
  ar_cp : c ≠ p;
  ar_ttp : t ≠ tp
}.

(** What the trial and the commit do to the store, for a cycle [V] through
    the new edge of the polygon. *)
Lemma committed fuel h c t p n tp tn h2 poly rs h6 rs' V B :
  around h c t p n tp tn →
  trial h (Some c) = Ok (h2, poly) →
  commit fuel h2 rs (Some c) poly = Ok (h6, rs') →
  (∀ h2, (∀ r, rd next h2 (Some r) =
            if decide (r = tp) then Ok (Some n)
            else if decide (r = p) then Ok (Some tn) else rd next h (Some r)) →
         (∀ r, rd prev h2 (Some r) =
            if decide (r = tn) then Ok (Some p)
            else if decide (r = n) then Ok (Some tp) else rd prev h (Some r)) →
         cyc_list h2 V) →
  NoDup V → p ∈ V →
  rd polygon h (Some t) = Ok (Some B) →
  ∃ A, poly = Some A ∧ rd polygon h (Some c) = Ok (Some A) ∧
    (∀ P, rdPoly edge h6 (Some P) =
          if decide (P = A) then Ok (Some p) else rdPoly edge h (Some P)) ∧
    (∀ P, rdPoly edge h2 (Some P) =
          if decide (P = A) then Ok (Some p) else rdPoly edge h (Some P)) ∧
    (∀ r, rd next h6 (Some r) =
          if decide (r = tp) then Ok (Some n)
          else if decide (r = p) then Ok (Some tn) else rd next h (Some r)) ∧
    (∀ r, rd prev h6 (Some r) =
          if decide (r = tn) then Ok (Some p)
          else if decide (r = n) then Ok (Some tp) else rd prev h (Some r)) ∧
    keeps vertex h h6 ∧ keeps twin h h6 ∧
    keeps next h2 h6 ∧ keeps prev h2 h6 ∧ keeps vertex h2 h6 ∧
    cyc_list h2 V ∧
    (∀ r, rd polygon h6 (Some r) =
          if decide (r ∈ V) then Ok (Some A) else rd polygon h (Some r)) ∧
    rs' = set_delete (if decide (t ∈ V) then Some A else Some B) rs.
Proof.
  intros [Ht [Hpc1 Hpc2] [Hcn1 Hcn2] [Htpt1 Htpt2] [Httn1 Httn2] Hcp Http] Htrial Hcommit HV Hnd HpV HB.
  destruct (trial_fields _ _ _ _ _ _ _ _ _ Ht Hpc2 Hcn1 Htpt2 Httn1 Hcn2 Hcp Http Htrial)
    as (A & -> & HA & Hedge2 & Hnext2 & Hprev2 & Hv2 & Ht2 & Hp2 & _).
  specialize (HV h2 Hnext2 Hprev2).
  assert (HeA : rdPoly edge h2 (Some A) = Ok (Some p)) by (by rewrite Hedge2, decide_True).
  destruct (commit_fields _ _ _ _ _ _ _ _ _ HeA HV Hnd HpV Hcommit)
    as (Kn & Kp & Kv & Kt & _ & Kpolys & Kpoly & t' & B' & Ht' & HB' & ->).
  exists A. split; [done|]. split; [done|].
  assert (Hedge6 : ∀ P, rdPoly edge h6 (Some P) = rdPoly edge h2 (Some P)).
  { intros P. unfold rdPoly, derefPoly. by rewrite Kpolys. }
  split; [intros P; by rewrite Hedge6|]. split; [done|].
  split; [intros r; by rewrite Kn|]. split; [intros r; by rewrite Kp|].
  split; [by eapply keeps_trans|]. split; [by eapply keeps_trans|].
  do 4 (split; [done|]).
  split; [intros r; rewrite Kpoly; by rewrite Hp2|].
  rewrite Ht2, Ht in Ht'. injection Ht' as <-.
  rewrite Kpoly in HB'. f_equal. destruct (decide (t ∈ V)); [congruence|].
  rewrite Hp2, HB in HB'. congruence.
Qed.

Lemma NoDup_two {A} (c t : A) X Y :
  NoDup (c :: X ++ t :: Y) →
  (c ∉ X) ∧ (c ∉ Y) ∧ c ≠ t ∧ (t ∉ X) ∧ (t ∉ Y) ∧ (∀ x, x ∈ X → x ∉ Y) ∧ NoDup X ∧ NoDup Y.
Proof.
  intros [Hc (HX & Hd & [HtY HY]%NoDup_cons)%NoDup_app]%NoDup_cons.
  repeat split; try done.
  - intros H. apply Hc, elem_of_app. by left.
  - intros H. apply Hc, elem_of_app. right. by right.
  - intros ->. apply Hc, elem_of_app. right. by left.
  - intros H. apply (Hd t); [done|by left].
  - intros x Hx HxY. apply (Hd x Hx). by right.
Qed.

(** *** The twin is in another cycle: the two cycles become one *)
Lemma commit_join fuel h rs c cands cyc t lc lt X Y others h2 poly h6 rs' :
  region_inv fuel h rs (c :: cands) cyc →
  rd twin h (Some c) = Ok (Some t) →
  cyc ≡ₚ [lc; lt] ++ others →
  c :: X ≡ₚ lc → t :: Y ≡ₚ lt →
  cyc_list h (c :: X) → cyc_list h (t :: Y) →
  trial h (Some c) = Ok (h2, poly) →
  convex fuel h2 poly = Ok true →
  commit fuel h2 rs (Some c) poly = Ok (h6, rs') →
  region_inv fuel h6 rs' cands ([X ++ Y] ++ others).
Proof.
  intros Hinv Ht Hperm HpX HpY HcX HcY Htrial Hconv Hcommit.
  pose proof Hinv as [I1 I2 I3 I4 I5 I6 I7 I8].
  assert (Hlc : lc ∈ cyc) by (rewrite Hperm; simpl; by left).
  assert (Hlt : lt ∈ cyc) by (rewrite Hperm; simpl; right; by left).
  assert (HXne : X ≠ []).
  { destruct (I2 lc Hlc) as [_ Hlen]. rewrite <- HpX in Hlen. by destruct X; [simpl in Hlen; lia|]. }
  assert (HYne : Y ≠ []).
  { destruct (I2 lt Hlt) as [_ Hlen]. rewrite <- HpY in Hlen. by destruct Y; [simpl in Hlen; lia|]. }
  assert (Hnd : NoDup (c :: X ++ t :: Y)).
  { rewrite (concat_Permutation _ _ Hperm) in I1. simpl in I1. rewrite app_assoc in I1.
    apply NoDup_app in I1 as (I1 & _). rewrite <- HpX, <- HpY in I1. done. }
  destruct (NoDup_two _ _ _ _ Hnd) as (HcnX & HcnY & Hct & HtnX & HtnY & HXY & HndX & HndY).
  destruct (arc_ends h c X c HcX HXne) as (n & p & HhX & HlX & Hcn & Hpc & HpathX).
  destruct (arc_ends h t Y t HcY HYne) as (tn & tp & HhY & HlY & Httn & Htpt & HpathY).
  pose proof (head_elem _ _ HhX) as HnX. pose proof (last_elem _ _ HlX) as HpX'.
  pose proof (head_elem _ _ HhY) as HtnY'. pose proof (last_elem _ _ HlY) as HtpY.
  assert (Har : around h c t p n tp tn).
  { split; try done; intros ->; done. }
  destruct (I3 lt Hlt) as [B HB].
  assert (HBt : rd polygon h (Some t) = Ok (Some B)).
  { apply HB. rewrite <- HpY. by left. }
  assert (HndV : NoDup (X ++ Y)) by (apply NoDup_app; done).
  destruct (committed fuel h c t p n tp tn h2 poly rs h6 rs' (X ++ Y) B Har Htrial Hcommit)
    as (A & -> & HA & Hedge6 & Hedge2 & Hnext6 & Hprev6 & Kv & Kt & Kn2 & Kp2 & Kv2 & HV & Hpoly6 & ->);
    [|done|apply elem_of_app; by left|done|].
  { intros h' Hnext Hprev. apply cyc_list_ends. split.
    - apply (path_join h' X Y p tn); [| |done|done|].
      + apply (seg_frame h h' X n p); try done.
        * intros r Hr Hrp. rewrite Hnext, !decide_False; [done|done|]. intros ->. by apply (HXY tp).
        * intros r Hr Hrn. rewrite Hprev, !decide_False; [done|done|]. intros ->. by apply (HXY tn).
      + apply (seg_frame h h' Y tn tp); try done.
        * intros r Hr Hrp. rewrite Hnext, !decide_False; [done| |done]. intros ->. by apply (HXY p).
        * intros r Hr Hrn. rewrite Hprev, !decide_False; [done| |done]. intros ->. by apply (HXY n).
      + split; [rewrite Hnext, decide_False, decide_True; [done|done|]|rewrite Hprev, decide_True; done].
        intros ->. by apply (HXY tp).
    - exists n, tp. split; [rewrite head_app, HhX; done|]. split; [rewrite last_app, HlY; done|].
      split; [rewrite Hnext, decide_True; done|rewrite Hprev, decide_False, decide_True; [done|done|]].
      intros ->. by apply (HXY tn). }
  rewrite decide_False by (rewrite elem_of_app; tauto).
  assert (Holds_elem : ∀ e, e ∈ concat [lc; lt] ↔ e ∈ c :: X ++ t :: Y).
  { intros e. simpl. rewrite app_nil_r, <- HpX, <- HpY. simpl.
    rewrite !elem_of_cons, !elem_of_app, !elem_of_cons. tauto. }
  assert (Hin : ∀ e, e ∈ X ∨ e ∈ Y → e ∈ concat [lc; lt]).
  { intros e He. apply Holds_elem. rewrite elem_of_cons, elem_of_app, elem_of_cons. tauto. }
  destruct Hpc as [Hpc1 Hpc2], Hcn as [Hcn1 Hcn2], Htpt as [Htpt1 Htpt2], Httn as [Httn1 Httn2].
  eapply (commit_inv fuel h h6 rs cands cyc [lc; lt] others [X ++ Y] c t p n tp tn A B);
    try done; try (apply Hin; tauto).
  - intros l [->|[->|[]%elem_of_nil]%elem_of_cons]%elem_of_cons.
    + left. rewrite <- HpX. by left.
    + right. rewrite <- HpY. by left.
  - apply Holds_elem. by left.
  - apply Holds_elem. rewrite elem_of_cons, elem_of_app, elem_of_cons. tauto.
  - intros r Hr. rewrite Hpoly6, decide_False; [done|]. intros Hr'%elem_of_app. by apply Hr, Hin.
  - intros r Hr. simpl in Hr. rewrite app_nil_r in Hr. by rewrite Hpoly6, decide_True.
  - simpl. by rewrite app_nil_r.
  - intros e. rewrite Holds_elem. simpl. rewrite app_nil_r.
    rewrite elem_of_cons, !elem_of_app, elem_of_cons. split.
    + intros [He|He]; (split; [tauto|]); split; intros ->; done.
    + intros ([->|[?|[->|?]]] & ? & ?); tauto.
  - intros l ->%list_elem_of_singleton. split.
    + by eapply cyc_list_keeps.
    + rewrite length_app. destruct X, Y; simpl; try done; lia.
  - intros _. exists (X ++ Y). split; [done|]. split; [apply elem_of_app; by left|].
    assert (HeA : rdPoly edge h2 (Some A) = Ok (Some p)) by (by rewrite Hedge2, decide_True).
    destruct (proj1 (convex_true_cycle fuel h2 A (X ++ Y) p HeA HV HndV
                       ltac:(apply elem_of_app; by left)) Hconv) as [Hlen Hok].
    split; [done|]. intros x Hx. eapply triple_ok_keeps; [done|done|]. by apply Hok.
Qed.

(** *** The twin is in the same cycle *)

(** The twin comes right before the candidate: the walk of the test starts
    at the twin, which the splice leaves out of the cycle, and never
    returns to it. *)
Lemma split_never_convex fuel h c t X h2 poly :
  rd twin h (Some c) = Ok (Some t) →
  NoDup (c :: X ++ [t]) → X ≠ [] →
  cyc_list h (c :: X ++ [t]) →
  trial h (Some c) = Ok (h2, poly) →
  convex fuel h2 poly = Ok true → False.
Proof.
  intros Ht Hnd HXne Hcyc Htrial Hconv.
  destruct (NoDup_two _ _ _ _ Hnd) as (HcnX & _ & Hct & HtnX & _ & _ & HndX & _).
  apply cyc_list_arcs in Hcyc as [HaX HaY]. apply arc_nil in HaY.
  destruct (arc_ends h c X t HaX HXne) as (n & tp & HhX & HlX & Hcn & Htpt & HpathX).
  pose proof (head_elem _ _ HhX) as HnX. pose proof (last_elem _ _ HlX) as HtpX.
  destruct HaY as [Htc1 Htc2], Hcn as [Hcn1 Hcn2], Htpt as [Htpt1 Htpt2].
  destruct (trial_fields h c t t n tp c h2 poly) as (A & -> & HA & Hedge2 & Hnext2 & _); try done.
  { by intros ->. }
  unfold convex in Hconv. rewrite Hedge2, decide_True in Hconv by done. simpl in Hconv.
  apply (convex_loop_true _ _ _ _ (Some t)) in Hconv as (l & Hch & _);
    [|by rewrite Hedge2, decide_True].
  assert (Hnt : rd next h2 (Some t) = Ok (Some c)).
  { rewrite Hnext2, decide_False, decide_True; [done|done|by intros ->]. }
  assert (Hnc : rd next h2 (Some c) = Ok (Some n)).
  { rewrite Hnext2, !decide_False; [done|done|by intros ->]. }
  destruct l as [|y l]; simpl in Hch; [congruence|]. destruct Hch as (Hy & _ & Hch).
  assert (y = Some c) as -> by congruence.
  destruct l as [|z l]; simpl in Hch.
  { assert (n = t) as -> by congruence. done. }
  destruct Hch as (Hz & _ & Hch). assert (z = Some n) as -> by congruence.
  apply (chain_stuck h2 X n l t); try done.
  intros a Ha. rewrite Hnext2. destruct (decide (a = tp)) as [->|Hatp]; [by exists n|].
  rewrite decide_False by (by intros ->).
  destruct (last_Some X tp) as [[X' ->] _]; [done|].
  apply elem_of_app in Ha as [Ha|Ha%list_elem_of_singleton]; [|done].
  destruct (path_succ h (X' ++ [tp]) a HpathX) as (b & Hb & [Hab _]).
  { by rewrite removelast_snoc. }
  exists b. split; [|done]. destruct (X' ++ [tp]); [done|]. by right.
Qed.

(** The candidate and its twin are a cycle of their own: the store stays
    as it is and their polygon leaves the regions. *)
Lemma commit_digon fuel h rs c cands cyc t lc others h2 poly h6 rs' :
  region_inv fuel h rs (c :: cands) cyc →
  rd twin h (Some c) = Ok (Some t) →
  cyc ≡ₚ [lc] ++ others →
  [c; t] ≡ₚ lc →
  cyc_list h [c; t] →
  trial h (Some c) = Ok (h2, poly) →
  commit fuel h2 rs (Some c) poly = Ok (h6, rs') →
  region_inv fuel h6 rs' cands ([] ++ others).
Proof.
  intros Hinv Ht Hperm HpX Hcyc Htrial Hcommit.
  pose proof Hinv as [I1 I2 I3 I4 I5 I6 I7 I8].
  assert (Hlc : lc ∈ cyc) by (rewrite Hperm; simpl; by left).
  assert (Hnd : NoDup [c; t]).
  { rewrite (concat_Permutation _ _ Hperm) in I1. simpl in I1.
    apply NoDup_app in I1 as (I1 & _). by rewrite <- HpX in I1. }
  assert (Hct : c ≠ t).
  { apply NoDup_cons in Hnd as [Hc _]. intros ->. apply Hc. by left. }
  pose proof Hcyc as Hcyc'.
  apply (cyc_list_arcs h c [] t []) in Hcyc as [[Hct1 Hct2]%arc_nil [Htc1 Htc2]%arc_nil].
  assert (Har : around h c t t t c c) by (split; done).
  destruct (I3 lc Hlc) as [P HP].
  assert (HPc : rd polygon h (Some c) = Ok (Some P)) by (apply HP; rewrite <- HpX; by left).
  assert (HPt : rd polygon h (Some t) = Ok (Some P)).
  { apply HP. rewrite <- HpX. right. by left. }
  destruct (committed fuel h c t t t c c h2 poly rs h6 rs' [c; t] P Har Htrial Hcommit)
    as (A & -> & HA & Hedge6 & Hedge2 & Hnext6 & Hprev6 & Kv & Kt & Kn2 & Kp2 & Kv2 & HV & Hpoly6 & ->);
    [|done|right; by left|done|].
  { intros h' Hnext Hprev. apply (cyc_list_arcs h' c [] t []). rewrite !arc_nil. repeat split.
    - by rewrite Hnext, decide_True.
    - rewrite Hprev, decide_False, decide_True; done.
    - rewrite Hnext, decide_False, decide_True; done.
    - by rewrite Hprev, decide_True. }
  assert (P = A) as -> by congruence.
  replace (if decide (t ∈ [c; t]) then Some A else Some A) with (Some A) by (by destruct (decide _)).
  assert (Holds_elem : ∀ e, e ∈ concat [lc] ↔ e = c ∨ e = t).
  { intros e. simpl. rewrite app_nil_r, <- HpX. rewrite !elem_of_cons, elem_of_nil. tauto. }
  eapply (commit_inv fuel h h6 rs cands cyc [lc] others [] c t t t c c A A);
    try done; try (apply Holds_elem; tauto).
  - intros l ->%list_elem_of_singleton. left. rewrite <- HpX. by left.
  - intros r Hr. rewrite Hpoly6, decide_False; [done|].
    intros Hr'. apply Hr, Holds_elem. rewrite !elem_of_cons, elem_of_nil in Hr'. tauto.
  - by intros r ?%elem_of_nil.
  - constructor.
  - intros e. rewrite Holds_elem. simpl. rewrite elem_of_nil. tauto.
  - by intros l ?%elem_of_nil.
  - simpl. intros [? _]%list_elem_of_filter. done.
Qed.

(** The cycle splits: the edges after the twin stay a cycle of the polygon,
    the edges between the candidate and the twin, if any, become a cycle
    of their own, and the polygon leaves the regions. *)
Lemma commit_split fuel h rs c cands cyc t lc X Y others h2 poly h6 rs' :
  region_inv fuel h rs (c :: cands) cyc →
  rd twin h (Some c) = Ok (Some t) →
  cyc ≡ₚ [lc] ++ others →
  c :: X ++ t :: Y ≡ₚ lc →
  cyc_list h (c :: X ++ t :: Y) →
  Y ≠ [] →
  trial h (Some c) = Ok (h2, poly) →
  commit fuel h2 rs (Some c) poly = Ok (h6, rs') →
  region_inv fuel h6 rs' cands ((if decide (X = []) then [Y] else [X; Y]) ++ others).
Proof.
  intros Hinv Ht Hperm HpX Hcyc HYne Htrial Hcommit.
  pose proof Hinv as [I1 I2 I3 I4 I5 I6 I7 I8].
  assert (Hlc : lc ∈ cyc) by (rewrite Hperm; simpl; by left).
  assert (Hnd : NoDup (c :: X ++ t :: Y)).
  { rewrite (concat_Permutation _ _ Hperm) in I1. simpl in I1.
    apply NoDup_app in I1 as (I1 & _). by rewrite <- HpX in I1. }
  destruct (NoDup_two _ _ _ _ Hnd) as (HcnX & HcnY & Hct & HtnX & HtnY & HXY & HndX & HndY).
  assert (Holds_elem : ∀ e, e ∈ concat [lc] ↔ e ∈ c :: X ++ t :: Y).
  { intros e. simpl. by rewrite app_nil_r, <- HpX. }
  assert (Hcin : c ∈ concat cyc).
  { rewrite (concat_Permutation _ _ Hperm), concat_app. apply elem_of_app. left.
    apply Holds_elem. by left. }
  assert (Hin : ∀ e, e ∈ c :: X ++ t :: Y → e ∈ concat cyc).
  { intros e He. rewrite (concat_Permutation _ _ Hperm), concat_app. apply elem_of_app. left.
    by apply Holds_elem. }
  destruct (I6 c t Hcin Ht) as (_ & _ & _ & Hgeo).
  apply cyc_list_arcs in Hcyc as [HaX HaY].
  destruct (arc_ends h t Y c HaY HYne) as (tn & p & HhY & HlY & Httn & Hpc & HpathY).
  pose proof (head_elem _ _ HhY) as HtnY'. pose proof (last_elem _ _ HlY) as HpY.
  assert (HX : ∃ n tp, link h c n ∧ link h tp t ∧ (n ∉ Y) ∧ (tp ∉ Y) ∧ tp ≠ t ∧
             n ∈ c :: X ++ t :: Y ∧ tp ∈ c :: X ++ t :: Y ∧
             (X ≠ [] → head X = Some n ∧ last X = Some tp ∧ path h X)).
  { destruct (decide (X = [])) as [->|HXne].
    - apply arc_nil in HaX. exists t, c. split; [done|]. split; [done|]. split; [done|]. split; [done|].
      split; [by intros ->|]. split; [right; apply elem_of_app; right; by left|].
      split; [by left|done].
    - destruct (arc_ends h c X t HaX HXne) as (n & tp & HhX & HlX & Hcn & Htpt & HpathX).
      pose proof (head_elem _ _ HhX) as HnX. pose proof (last_elem _ _ HlX) as HtpX.
      exists n, tp. split; [done|]. split; [done|]. split; [by apply HXY|]. split; [by apply HXY|].
      split; [by intros ->|]. split; [right; apply elem_of_app; by left|].
      split; [right; apply elem_of_app; by left|done]. }
  destruct HX as (n & tp & Hcn & Htpt & HnY & HtpY & Htpt' & Hnin & Htpin & HXfacts).
  assert (Har : around h c t p n tp tn).
  { split; try done; by intros ->. }
  destruct (I3 lc Hlc) as [P HP].
  assert (HPc : rd polygon h (Some c) = Ok (Some P)) by (apply HP; rewrite <- HpX; by left).
  assert (HPt : rd polygon h (Some t) = Ok (Some P)).
  { apply HP. rewrite <- HpX. right. apply elem_of_app. right. by left. }
  assert (Hptp : p ≠ tp) by (by intros ->).
  assert (Hntn : n ≠ tn) by (by intros ->).
  destruct (committed fuel h c t p n tp tn h2 poly rs h6 rs' Y P Har Htrial Hcommit)
    as (A & -> & HA & Hedge6 & Hedge2 & Hnext6 & Hprev6 & Kv & Kt & Kn2 & Kp2 & Kv2 & HV & Hpoly6 & ->);
    [|done|done|done|].
  { intros h' Hnext Hprev. apply cyc_list_ends. split.
    - apply (seg_frame h h' Y tn p); try done.
      + intros r Hr Hrp. rewrite Hnext, !decide_False; [done|done|by intros ->].
      + intros r Hr Hrn. rewrite Hprev, !decide_False; [done|by intros ->|done].
    - exists tn, p. split; [done|]. split; [done|]. split.
      + by rewrite Hnext, decide_False, decide_True.
      + by rewrite Hprev, decide_True. }
  assert (P = A) as -> by congruence.
  replace (if decide (t ∈ Y) then Some A else Some A) with (Some A) by (by destruct (decide _)).
  destruct Hpc as [Hpc1 Hpc2], Hcn as [Hcn1 Hcn2], Htpt as [Htpt1 Htpt2], Httn as [Httn1 Httn2].
  assert (HlenY : 2 ≤ length Y).
  { destruct Y as [|y [|y' Y]]; [done| |simpl; lia]. exfalso.
    simpl in HhY, HlY. injection HhY as ->. injection HlY as ->.
    apply (no_digon h t c p); [by apply rev_sym|done|done|]. apply I7, Hin.
    right. apply elem_of_app. right. right. by left. }
  assert (Hnews : ∀ e, e ∈ concat (if decide (X = []) then [Y] else [X; Y]) ↔ e ∈ X ∨ e ∈ Y).
  { intros e. destruct (decide (X = [])) as [->|_]; simpl.
    - rewrite app_nil_r, elem_of_nil. tauto.
    - by rewrite app_nil_r, elem_of_app. }
  eapply (commit_inv fuel h h6 rs cands cyc [lc] others _ c t p n tp tn A A);
    try done; try (apply Holds_elem; try done; right; apply elem_of_app; right; by right).
  - intros l ->%list_elem_of_singleton. left. rewrite <- HpX. by left.
  - apply Holds_elem. by left.
  - apply Holds_elem. right. apply elem_of_app. right. by left.
  - intros r Hr. rewrite Hpoly6, decide_False; [done|].
    intros Hr'. apply Hr, Holds_elem. right. apply elem_of_app. right. by right.
  - intros r Hr%Hnews. rewrite Hpoly6. destruct (decide (r ∈ Y)); [done|].
    apply HP. rewrite <- HpX. right. apply elem_of_app. left. tauto.
  - destruct (decide (X = [])); simpl; rewrite app_nil_r; [done|]. by apply NoDup_app.
  - intros e. rewrite Hnews, Holds_elem, elem_of_cons, elem_of_app, elem_of_cons. split.
    + intros [He|He]; (split; [tauto|]); split; intros ->; done.
    + intros ([->|[?|[->|?]]] & ? & ?); tauto.
  - intros l Hl.
    assert (Hl' : l = Y ∨ (X ≠ [] ∧ l = X)).
    { destruct (decide (X = [])).
      - apply list_elem_of_singleton in Hl. by left.
      - apply elem_of_cons in Hl as [->|Hl%list_elem_of_singleton]; [by right|by left]. }
    destruct Hl' as [->|[HXne ->]].
    + split; [by eapply cyc_list_keeps|done].
    + destruct (HXfacts HXne) as (HhX & HlX & HpathX).
      pose proof (head_elem _ _ HhX) as HnX. pose proof (last_elem _ _ HlX) as HtpX. split.
      * apply cyc_list_ends. split.
        -- apply (seg_frame h h6 X n tp); try done.
           ++ intros r Hr Hrp. rewrite Hnext6, !decide_False; [done| |done]. intros ->. by apply (HXY p).
           ++ intros r Hr Hrn. rewrite Hprev6, !decide_False; [done|done|]. intros ->. by apply (HXY tn).
        -- exists n, tp. split; [done|]. split; [done|]. split.
           ++ by rewrite Hnext6, decide_True.
           ++ by rewrite Hprev6, decide_False, decide_True.
      * destruct X as [|x [|x' X]]; [done| |simpl; lia]. exfalso.
        simpl in HhX, HlX. injection HhX as ->. injection HlX as ->.
        apply (no_digon h c t tp); [done|done|done|]. apply I7, Hin. right. by left.
  - simpl. intros [? _]%list_elem_of_filter. done.
Qed.

(** *** One round of the loop keeps the invariant *)
Lemma mergeCandidate_inv fuel entry c h rs cands cyc h' rs' :
  entry_edge entry = Some c →
  region_inv fuel h rs (c :: cands) cyc →
  mergeCandidate fuel entry (h, rs) = Ok (h', rs') →
  ∃ cyc', region_inv fuel h' rs' cands cyc'.
Proof.
  intros Hentry Hinv Hm. pose proof Hm as Hm'.
  unfold mergeCandidate in Hm. rewrite Hentry in Hm. inv_bind Hm.
  destruct a0 as [h2 poly]. inv_bind Hm. destruct a0; simpl in Hm.
  2:{ exists cyc. by eapply rollback_inv. }
  destruct (region_inv_candidate _ _ _ _ _ _ Hinv)
    as (t & lc & lt & Ht & Hne & Hg & Hlc & Hc & Hlt & Htl).
  pose proof Hinv as [I1 I2 I3 I4 I5 I6 I7 I8].
  destruct (cyc_from h lc c (proj1 (I2 lc Hlc)) Hc) as (X0 & HcX & HpX).
  pose proof Hlc as Hlc'. apply elem_of_Permutation in Hlc' as [k Hk].
  destruct (decide (lc = lt)) as [<-|Hdiff].
  - assert (HtX : t ∈ X0).
    { rewrite <- HpX in Htl. by apply elem_of_cons in Htl as [?|?]. }
    apply list_elem_of_split in HtX as (X & Y & ->).
    destruct (decide (Y = [])) as [->|HY].
    + destruct (decide (X = [])) as [->|HX].
      * exists ([] ++ k). by eapply (commit_digon fuel h rs c cands cyc t lc k).
      * exfalso. eapply (split_never_convex fuel h c t X); try done.
        rewrite (concat_Permutation _ _ Hk) in I1. simpl in I1.
        apply NoDup_app in I1 as (I1 & _). by rewrite <- HpX in I1.
    + eexists. by eapply (commit_split fuel h rs c cands cyc t lc X Y k).
  - destruct (cyc_from h lt t (proj1 (I2 lt Hlt)) Htl) as (Y & HcY & HpY).
    assert (Hltk : lt ∈ k).
    { rewrite Hk in Hlt. by apply elem_of_cons in Hlt as [?|?]. }
    apply elem_of_Permutation in Hltk as [others Ho].
    eexists. eapply (commit_join fuel h rs c cands cyc t lc lt X0 Y others); try done.
    rewrite Hk, Ho. done.
Qed.

End MergeFacts.

(** * The regions after the build *)

Section RegionFacts.
Context {G : Geometry}.
Hypothesis Hsym : equals_sym.
Hypothesis Htrans : equals_trans.
Variable Q : pref → Prop.
#[local] Abbreviation region_inv := (region_inv Q).

(** ** The sorted list holds the entries of the list *)

Lemma sort_insert_Permutation cmp x l : sort_insert cmp x l ≡ₚ x :: l.
Proof.
  induction l as [|y l IH]; simpl; [done|].
  destruct (cmp x y <=? 0)%Z; [done|]. rewrite IH. apply Permutation_swap.
Qed.

Lemma sort_Permutation cmp l : sort cmp l ≡ₚ l.
Proof.
  unfold sort. induction l as [|x l IH]; simpl; [done|].
  by rewrite sort_insert_Permutation, IH.
Qed.

Lemma candidates_Permutation l l' : l ≡ₚ l' → candidates l ≡ₚ candidates l'.
Proof. unfold candidates. by intros ->. Qed.

Lemma pair_list_Permutation h l l' : l ≡ₚ l' → pair_list h l ≡ₚ pair_list h l'.
Proof. unfold pair_list. by intros ->. Qed.

Lemma region_inv_cands fuel h rs cands cands' cyc :
  cands ≡ₚ cands' → region_inv fuel h rs cands cyc → region_inv fuel h rs cands' cyc.
Proof.
  intros Hp [I1 I2 I3 I4 I5 I6 I7 [Hnd Hc]]. split; try done. split.
  - by rewrite <- (pair_list_Permutation h _ _ Hp).
  - intros c Hc'. apply Hc. by rewrite Hp.
Qed.

(** ** The loop of [_buildRegions] *)

Lemma mergeCandidates_inv fuel edgeList h rs cyc h' rs' :
  region_inv fuel h rs (candidates edgeList) cyc →
  foldM (mergeCandidate fuel) edgeList (h, rs) = Ok (h', rs') →
  ∃ cyc', region_inv fuel h' rs' [] cyc'.
Proof.
  revert h rs cyc. induction edgeList as [|en l IH]; intros h rs cyc Hinv H.
  - injection H as <- <-. by exists cyc.
  - apply (bind_Ok (mergeCandidate fuel en (h, rs)) _ _) in H as ([h1 rs1] & E & H).
    destruct (entry_edge en) as [c|] eqn:Hen.
    + unfold candidates in Hinv. simpl in Hinv. rewrite Hen in Hinv.
      destruct (mergeCandidate_inv Hsym Htrans Q fuel en c h rs _ cyc h1 rs1 Hen Hinv E) as [cyc1 Hinv1].
      by apply (IH h1 rs1 cyc1).
    + unfold mergeCandidate in E. rewrite Hen in E. unfold readCache in E. simpl in E. done.
Qed.

Lemma computeCentroid_frame fuel h P h' :
  computeCentroid fuel h P = Ok h' →
  (∀ A (f : HalfEdge → A), keeps f h h') ∧ ∀ R, rdPoly edge h' (Some R) = rdPoly edge h (Some R).
Proof.
  unfold computeCentroid. intros H. inv_bind H. split.
  - intros A f. by eapply keeps_wrPoly.
  - intros R. destruct (wrPoly_Ok_Some _ _ _ _ H) as [x ->].
    rewrite (rdPoly_wrPoly edge _ _ _ _ _ H). by destruct (decide (R = x)).
Qed.

Lemma centroids_inv fuel l h rs cyc h' :
  region_inv fuel h rs [] cyc →
  foldM (λ region h, computeCentroid fuel h (Some region)) l h = Ok h' →
  region_inv fuel h' rs [] cyc.
Proof.
  intros Hinv H.
  apply (foldM_inv (λ region h, computeCentroid fuel h (Some region))
           (λ h, region_inv fuel h rs [] cyc) l h h'); [|done|done].
  intros x s s1 _ Hs Hc. destruct (computeCentroid_frame _ _ _ _ Hc) as [Hk He].
  eapply region_inv_transfer; [apply Hk..| |exact Hs].
  intros R e0 _ HR. exists e0. split; [by rewrite He|by left].
Qed.

Lemma _buildRegions_inv fuel edgeList h rs cyc h' rs' :
  region_inv fuel h rs (candidates edgeList) cyc →
  _buildRegions fuel edgeList h rs = Ok (h', rs') →
  ∃ cyc', region_inv fuel h' rs' [] cyc'.
Proof.
  intros Hinv H. unfold _buildRegions in H. inv_bind H. destruct a as [h1 rs1]. inv_bind H.
  injection H as <- <-.
  destruct (mergeCandidates_inv _ _ _ _ _ _ _ Hinv E) as [cyc' Hinv'].
  exists cyc'. by eapply centroids_inv.
Qed.

(** The regions of the invariant pass the test. *)
Lemma region_inv_convex fuel h rs cands cyc R :
  region_inv fuel h rs cands cyc → R ∈ rs → ¬ Q R → convex fuel h (Some R) = Ok true.
Proof.
  intros [I1 I2 I3 I4 I5 I6 I7 I8] HR HQ.
  destruct (I5 R HR) as (l & e0 & Hl & He0 & Hin & _ & _ & [?|[Hlen Hok]]); [done|].
  apply (convex_true_cycle fuel h R l e0); try done.
  - by apply I2.
  - clear -I1 Hl. induction cyc as [|k cyc IH]; [by apply elem_of_nil in Hl|].
    simpl in I1. apply NoDup_app in I1 as (? & _ & ?).
    apply elem_of_cons in Hl as [->|Hl]; [done|by apply IH].
Qed.

(** ** Well-formed input *)

Lemma NoDup_concat_elem {A} (ls : list (list A)) l : NoDup (concat ls) → l ∈ ls → NoDup l.
Proof.
  induction ls as [|k ls IH]; [by intros _ ?%elem_of_nil|]. simpl.
  intros (? & _ & ?)%NoDup_app [->|Hl]%elem_of_cons; [done|by apply IH].
Qed.

Lemma onCycle_cyc h l e0 x :
  cyc_list h l → e0 ∈ l → onCycle h (Some e0) x → ∃ r, x = Some r ∧ r ∈ l.
Proof.
  intros Hc He0 H. remember (Some e0) as a eqn:Ha. revert e0 He0 Ha.
  induction H as [e|e n e' Hn _ IH]; intros e0 He0 ->.
  - by exists e0.
  - destruct (cyc_succ h l e0 Hc He0) as (y & Hy & [Hey _]).
    assert (n = Some y) as -> by congruence. by apply (IH y).
Qed.

Lemma cyc_onCycle h l e0 r :
  cyc_list h l → NoDup l → e0 ∈ l → r ∈ l → onCycle h (Some e0) (Some r).
Proof.
  intros Hc Hnd He0 Hr. destruct (cyc_from h l e0 Hc He0) as (X & HcX & HpX).
  rewrite <- HpX in Hnd, Hr. pose proof (cyc_chain h e0 X HcX Hnd) as Hch.
  change (Some <$> e0 :: X) with (Some e0 :: (Some <$> X)) in Hch.
  eapply chain_elem_onCycle; [exact Hch|].
  change (Some r ∈ Some <$> (e0 :: X)). by apply list_elem_of_fmap_2.
Qed.

(** The input edges are the edges of the contours. *)
Lemma contours_inputEdge h polygons cyc x :
  Forall2 (contour h) polygons cyc → NoDup (concat cyc) →
  inputEdge h polygons x ↔ ∃ r, x = Some r ∧ r ∈ concat cyc.
Proof.
  intros W2 W3. split.
  - intros (P & [i HP]%list_elem_of_lookup_1 & e0' & He0' & Hon).
    destruct (Forall2_lookup_l _ _ _ _ _ W2 HP) as (l & Hl & Hc & _ & (e0 & He0 & He) & _).
    assert (e0' = Some e0) as -> by congruence.
    destruct (onCycle_cyc h l e0 x Hc He0 Hon) as (r & -> & Hr). exists r. split; [done|].
    apply elem_of_concat. exists l. split; [by eapply list_elem_of_lookup_2|done].
  - intros (r & -> & (l & [i Hl]%list_elem_of_lookup_1 & Hr)%elem_of_concat).
    destruct (Forall2_lookup_r _ _ _ _ _ W2 Hl) as (P & HP & Hc & _ & (e0 & He0 & He) & _).
    exists P. split; [by eapply list_elem_of_lookup_2|]. exists (Some e0). split; [done|].
    apply (cyc_onCycle h l); try done. eapply NoDup_concat_elem; [done|].
    by eapply list_elem_of_lookup_2.
Qed.

Lemma foldl_set_add rs0 ps :
  NoDup (rs0 ++ ps) → foldl (λ rs p, set_add p rs) rs0 ps = rs0 ++ ps.
Proof.
  revert rs0. induction ps as [|p ps IH]; intros rs0 Hnd; simpl; [by rewrite app_nil_r|].
  assert (Hp : p ∉ rs0).
  { apply NoDup_app in Hnd as (_ & Hd & _). intros Hp. apply (Hd p Hp). by left. }
  unfold set_add at 2. rewrite decide_False by done.
  rewrite IH; [by rewrite <- app_assoc|]. by rewrite <- app_assoc.
Qed.

(** ** The invariant holds when the loop starts *)
Lemma setupEdges_inv fuel h polygons cyc h1 rs sorted :
  well_formed h polygons cyc →
  (∀ P, P ∈ polygons → Q P ∨ convex fuel h (Some P) = Ok true) →
  setupEdges fuel h [] polygons = Ok (h1, rs, sorted) →
  region_inv fuel h1 rs (candidates sorted) cyc.
Proof.
  intros Hwf Hconv H. pose proof Hwf as [W1 W2 W3 W4 W5 W6].
  unfold setupEdges in H. inv_bind H. destruct a as [L rs1]. inv_bind H.
  destruct a as [h1' sorted']. injection H as <- <- <-.
  destruct (collectEdges_all _ _ _ _ _ _ _ E) as (-> & HL).
  assert (HL' : ∀ e, e ∈ L ↔ inputEdge h polygons e).
  { intros e. rewrite HL. split; [|by right]. intros [Hn|?]; [|done]. by apply elem_of_nil in Hn. }
  assert (HLc : ∀ r, Some r ∈ L ↔ r ∈ concat cyc).
  { intros r. rewrite HL', (contours_inputEdge _ _ _ _ W2 W3). split.
    - by intros (r' & [= <-] & ?).
    - intros ?. by exists r. }
  destruct (linkTwins_ok Hsym Htrans h L) with (l := L) (h := h) (sorted := @nil Entry)
    (h' := h1') (sorted' := sorted') as [[Hsame Hs] (Hsome & Hndp & Hcs)]; try done.
  { intros r r' Hr Hr'. apply W6; by apply HL'. }
  { intros r Hr. by apply W4, HLc. }
  { split; [apply same_but_twin_refl|].
    intros e t He Ht. apply HL' in He. destruct (W5 _ _ He Ht) as (H1 & H2 & H3).
    split; [by apply HL'|done]. }
  { split; [by intros en ?%elem_of_nil|]. split; [constructor|]. by intros c ?%elem_of_nil. }
  destruct Hsame as [Hpolys Hr].
  assert (Kn : keeps next h h1') by (intros r; apply Hr).
  assert (Kp : keeps prev h h1') by (intros r; apply Hr).
  assert (Kv : keeps vertex h h1') by (intros r; apply Hr).
  assert (Kg : keeps polygon h h1') by (intros r; apply Hr).
  assert (Ke : ∀ R, rdPoly edge h1' R = rdPoly edge h R).
  { intros R. unfold rdPoly, derefPoly. by rewrite Hpolys. }
  assert (Hcont : ∀ l, l ∈ cyc → ∃ P, P ∈ polygons ∧ contour h P l).
  { intros l [i Hl]%list_elem_of_lookup_1.
    destruct (Forall2_lookup_r _ _ _ _ _ W2 Hl) as (P & HP & Hc). exists P.
    split; [by eapply list_elem_of_lookup_2|done]. }
  rewrite foldl_set_add by done. simpl.
  apply (region_inv_cands fuel h1' polygons (candidates sorted')).
  { apply candidates_Permutation. symmetry. apply sort_Permutation. }
  split.
  - done.
  - intros l Hl. destruct (Hcont l Hl) as (P & _ & Hc & Hlen & _). split; [|done].
    by eapply cyc_list_keeps.
  - intros l Hl. destruct (Hcont l Hl) as (P & _ & _ & _ & _ & Ho). exists P.
    intros e He. rewrite Kg. by apply Ho.
  - done.
  - intros R [i HR]%list_elem_of_lookup_1.
    destruct (Forall2_lookup_l _ _ _ _ _ W2 HR) as (l & Hl & Hc & Hlen & (e0 & He0 & He) & Ho).
    assert (Hlc : l ∈ cyc) by (by eapply list_elem_of_lookup_2).
    assert (Hndl : NoDup l) by (by eapply NoDup_concat_elem).
    exists l, e0. split; [done|]. split; [by rewrite Ke|]. split; [done|].
    split; [rewrite Kg; by apply Ho|]. split.
    + intros e (l' & [j Hl']%list_elem_of_lookup_1 & Hel')%elem_of_concat. rewrite Kg. intros Hpe.
      destruct (Forall2_lookup_r _ _ _ _ _ W2 Hl') as (P' & HP' & _ & _ & _ & Ho').
      assert (P' = R) as -> by (specialize (Ho' e Hel'); congruence).
      assert (j = i) as -> by (eapply NoDup_lookup; [exact W1|exact HP'|exact HR]).
      congruence.
    + assert (HRp : R ∈ polygons) by (by eapply list_elem_of_lookup_2).
      destruct (Hconv R HRp) as [?|HcR]; [by left|right].
      destruct (proj1 (convex_true_cycle fuel h R l e0 He Hc Hndl He0) HcR) as [Hf Hok].
      split; [done|]. intros x Hx. eapply triple_ok_keeps; [done|done|]. by apply Hok.
  - intros e t He Ht. destruct (Hs (Some e) t) as (HtL & Htt & Hrev); [by apply HLc|done|].
    split; [by apply HLc|]. split; [|split; [done|]].
    + intros ->. destruct Hrev as (f0 & t1 & t0 & f1 & H1 & H2 & H3 & _).
      rewrite (W4 e He f0 t1) in H3; done.
    + eapply rev_keeps; [exact Kn|exact Kv|done].
  - intros e He. eapply nondeg_keeps; [exact Kn|exact Kv|]. by apply W4.
  - split; [done|]. intros c Hc. destruct (Hcs c Hc) as (HcL & t & Ht & _).
    split; [by apply HLc|by exists t].
Qed.

Lemma _buildNodeIndices_inv fuel h rs cyc h' :
  region_inv fuel h rs [] cyc →
  _buildNodeIndices fuel h rs = Ok h' →
  region_inv fuel h' rs [] cyc.
Proof.
  intros Hinv H.
  eapply region_inv_transfer; [..|exact Hinv];
    try (eapply (_buildNodeIndices_keeps _ fuel h rs h'); [|exact H]; done).
  intros R e0 _ HR. exists e0. split; [|by left].
  destruct (_buildNodeIndices_keeps vertex fuel h rs h') as [_ Hp]; [done|done|].
  unfold rdPoly, derefPoly in *. by rewrite Hp.
Qed.

End RegionFacts.

(** X2: the regions that are left after [fromPolygons] pass the
    convexity test when the polygons of a well-formed input pass it. *)
Theorem fromPolygons_regions_convex `{G : Geometry} fuel h nav polygons cyc h' nav' region :
  equals_sym → equals_trans →
  well_formed h polygons cyc →
  (∀ P, P ∈ polygons → convex fuel h (Some P) = Ok true) →
  fromPolygons fuel h nav polygons = Ok (h', nav') →
  region ∈ regions nav' →
  convex fuel h' (Some region) = Ok true.
Proof.
  intros Hsym Htrans Hwf Hconv H Hregion. unfold fromPolygons in H. inv_bind H.
  destruct a as [[h1 rs] sorted]. inv_bind H. destruct a as [h2 rs1]. inv_bind H.
  injection H as <- <-. simpl in Hregion.
  assert (Hinv : region_inv (λ _, False) fuel h1 rs (candidates sorted) cyc).
  { apply (setupEdges_inv Hsym Htrans (λ _, False) fuel h polygons cyc h1 rs sorted Hwf); [|done].
    intros P HP. right. by apply Hconv. }
  destruct (_buildRegions_inv Hsym Htrans _ _ _ _ _ _ _ _ Hinv E0) as [cyc' Hinv'].
  eapply (region_inv_convex (λ _, False)); [|exact Hregion|tauto].
  by eapply _buildNodeIndices_inv.
Qed.

(** * The node indices after the build *)

Section IndexFacts.
Context {G : Geometry}.
Hypothesis Hsym : equals_sym.
Hypothesis Htrans : equals_trans.

(** ** The map of indices *)

Lemma lookupPosition_found m v :
  (∀ p, p ∈ m → p.1 ≠ (-1)%Z) →
  lookupPosition m v ≠ (-1)%Z → classified m v (lookupPosition m v).
Proof.
  intros Hk. induction m as [|[ix pos] m IH]; simpl; [done|].
  destruct (equals v pos) eqn:Heq.
  - intros _. exists pos. split; [by left|done].
  - intros Hf. destruct IH as (pos' & Hin & Hv); [|done|].
    + intros p Hp. apply Hk. by right.
    + exists pos'. split; [by right|done].
Qed.

Lemma lookupPosition_none m v :
  (∀ p, p ∈ m → p.1 ≠ (-1)%Z) →
  lookupPosition m v = (-1)%Z → ∀ p, p ∈ m → equals v p.2 = false.
Proof.
  intros Hk. induction m as [|[ix pos] m IH]; simpl; [by intros _ p ?%elem_of_nil|].
  destruct (equals v pos) eqn:Heq.
  - intros ->. exfalso. apply (Hk (-1, pos)%Z); [by left|done].
  - intros Hf p [->|Hp]%elem_of_cons; [done|]. apply IH; [|done|done].
    intros p' Hp'. apply Hk. by right.
Qed.

Lemma map_set_fresh k v m : (∀ p, p ∈ m → p.1 ≠ k) → map_set k v m = m ++ [(k, v)].
Proof.
  induction m as [|[k' v'] m IH]; intros Hk; simpl; [done|].
  rewrite decide_False by (apply (Hk (k', v')); by left).
  rewrite IH; [done|]. intros p Hp. apply Hk. by right.
Qed.

Lemma map_ok_keys m p : map_ok m → p ∈ m → (0 ≤ p.1 < Z.of_nat (length m))%Z.
Proof.
  intros [Hk _] [j Hj]%list_elem_of_lookup_1. rewrite (Hk j p Hj).
  apply lookup_lt_Some in Hj. lia.
Qed.

Lemma map_ok_snoc m v :
  map_ok m → (∀ p, p ∈ m → equals v p.2 = false) →
  map_ok (m ++ [(Z.of_nat (length m), v)]).
Proof.
  intros [Hk Hd] Hv. split.
  - intros j p Hj. apply lookup_app_Some in Hj as [Hj|[Hlen Hj]]; [by apply Hk|].
    apply list_lookup_singleton_Some in Hj as [Hj <-]. simpl. lia.
  - intros i j p q Hij Hi Hj.
    apply lookup_app_Some in Hj as [Hj|[Hlen Hj]].
    + apply lookup_app_Some in Hi as [Hi|[Hlen' _]]; [by eapply Hd|].
      apply lookup_lt_Some in Hj. lia.
    + apply list_lookup_singleton_Some in Hj as [Hj <-]. simpl.
      apply lookup_app_Some in Hi as [Hi|[Hlen' _]]; [|lia].
      apply Hv. by eapply list_elem_of_lookup_2.
Qed.

(** Two positions that pass [equals] have the same index. *)
Lemma classified_unique m v v' i i' :
  map_ok m → classified m v i → classified m v' i' → equals v v' = true → i = i'.
Proof.
  intros [Hk Hd] (pos & [j Hj]%list_elem_of_lookup_1 & Hv)
    (pos' & [j' Hj']%list_elem_of_lookup_1 & Hv') Heq.
  assert (Hpp : equals pos pos' = true).
  { eapply Htrans; [apply Hsym, Hv|]. eapply Htrans; [exact Heq|exact Hv']. }
  destruct (lt_eq_lt_dec j j') as [[Hlt| ->]|Hlt].
  - pose proof (Hd j j' _ _ Hlt Hj Hj') as Hf. simpl in Hf.
    apply Hsym in Hpp. congruence.
  - congruence.
  - pose proof (Hd j' j _ _ Hlt Hj' Hj) as Hf. simpl in Hf. congruence.
Qed.

Lemma classified_mono m m' v i : classified m v i → classified (m ++ m') v i.
Proof. intros (pos & Hin & Hv). exists pos. split; [apply elem_of_app; by left|done]. Qed.

(** ** A run of [_buildNodeIndices] on the store [h0] *)
Section Run.
Variable h0 : Heap.

(** The edge [r] has the index of its position. *)
Definition assigned (h : Heap) (m : list (Z * Vector3)) (r : ref) : Prop :=
  ∃ i v, rd nodeIndex h (Some r) = Ok (Some i) ∧ rd vertex h0 (Some r) = Ok v ∧
         classified m v i.

(** What the loops keep: the store differs from [h0] in node indices only,
    the next index is the size of the map, and an edge that has been
    written has the index of its position. *)
Record indices_inv (s : NodeIndexState) : Prop := {
  ii_next : keeps next h0 s.1.1;
  ii_vertex : keeps vertex h0 s.1.1;
  ii_twin : keeps twin h0 s.1.1;
  ii_polys : hpolys s.1.1 = hpolys h0;
  ii_map : map_ok s.1.2;
  ii_count : s.2 = Z.of_nat (length s.1.2);
  ii_index : ∀ r, rd nodeIndex s.1.1 (Some r) = rd nodeIndex h0 (Some r) ∨
                  assigned s.1.1 s.1.2 r
}.

(** The edge [e], if it has a twin, and the successor of its twin have the
    index of their positions. *)
Definition served (s : NodeIndexState) (e : ref) : Prop :=
  ∀ t, rd twin h0 (Some e) = Ok (Some t) →
    assigned s.1.1 s.1.2 e ∧
    ∃ n, rd next h0 (Some t) = Ok (Some n) ∧ assigned s.1.1 s.1.2 n.

Lemma nodeIndices_body_inv e s s' :
  (∀ t, rd twin h0 (Some e) = Ok (Some t) → geo h0 e t) →
  indices_inv s → nodeIndices_body (Some e) s = Ok s' →
  indices_inv s' ∧ served s' e ∧
  (∀ r, assigned s.1.1 s.1.2 r → assigned s'.1.1 s'.1.2 r).
Proof.
  intros Hgeo [Kn Kv Kt Kp Hmap Hcount Hidx] H. destruct s as [[h m] k]. simpl in *.
  unfold nodeIndices_body in H. inv_bind H. rewrite Kt in E.
  destruct (decide (a ≠ None)) as [Hsome|Hnone].
  2:{ injection H as <-. apply dec_stable in Hnone. subst a. split; [by split|].
      split; [|done]. intros t Ht. congruence. }
  destruct a as [t|]; [clear Hsome|done].
  destruct (Hgeo t E) as (f0 & t1 & t0 & f1 & H1 & H2 & H3 & H4 & H5 & H6).
  inv_bind H. unfold edge_from in E0, H1. rewrite Kv, H1 in E0. injection E0 as <-.
  assert (Hrefl : equals f0 f0 = true) by (eapply Htrans; [exact H3|by apply Hsym]).
  assert (Hkeys : ∀ p, p ∈ m → p.1 ≠ (-1)%Z).
  { intros p Hp. pose proof (map_ok_keys m p Hmap Hp). lia. }
  set (found := lookupPosition m f0) in *.
  assert (Hnew : ∃ idx m1 k1,
    (if decide (found = (-1)%Z)
     then (k, map_set k f0 m, (k + 1)%Z) else (found, m, k)) = (idx, m1, k1) ∧
    classified m1 f0 idx ∧ map_ok m1 ∧ k1 = Z.of_nat (length m1) ∧ ∃ m', m1 = m ++ m').
  { destruct (decide (found = (-1)%Z)) as [Hf|Hf].
    - exists k, (map_set k f0 m), (k + 1)%Z. split; [done|].
      rewrite map_set_fresh.
      2:{ intros p Hp. pose proof (map_ok_keys m p Hmap Hp). lia. }
      split; [|split; [|split]].
      + exists f0. split; [apply elem_of_app; right; by left|done].
      + subst k. apply map_ok_snoc; [done|]. by apply lookupPosition_none.
      + rewrite length_app. simpl. lia.
      + by eexists.
    - exists found, m, k. split; [done|]. split; [by apply lookupPosition_found|].
      split; [done|]. split; [done|]. exists []. by rewrite app_nil_r. }
  destruct Hnew as (idx & m1 & k1 & Hsel & Hcls & Hmap1 & Hk1 & m' & ->).
  rewrite Hsel in H. clear Hsel. inv_bind H. injection H as <-. rename a into h1, a2 into h2. simpl.
  rewrite (rd_wr_frame twin _ _ _ _ _ E0 (λ _, eq_refl)), Kt, E in E1. injection E1 as <-.
  rewrite (rd_wr_frame next _ _ _ _ _ E0 (λ _, eq_refl)), Kn in E2.
  unfold edge_to in H2. rewrite E2 in H2. simpl in H2.
  destruct (rd_Ok_Some _ _ _ _ H2) as [n ->].
  assert (Hidx2 : ∀ r, rd nodeIndex h2 (Some r) =
            if decide (r = n) then Ok (Some idx)
            else if decide (r = e) then Ok (Some idx) else rd nodeIndex h (Some r)).
  { intros r. destruct (decide (r = n)) as [->|Hn]; [by apply (rd_wr_eq nodeIndex (set_nodeIndex (Some idx)) _ _ _ (Some idx) (λ _, eq_refl) E3)|].
    rewrite (rd_wr_ne _ _ _ _ _ _ Hn E3).
    destruct (decide (r = e)) as [->|He]; [by apply (rd_wr_eq nodeIndex (set_nodeIndex (Some idx)) _ _ _ (Some idx) (λ _, eq_refl) E0)|].
    by rewrite (rd_wr_ne _ _ _ _ _ _ He E0). }
  assert (Hae : assigned h2 (m ++ m') e).
  { exists idx, f0. split; [|done]. rewrite Hidx2. destruct (decide (e = n)); [done|].
    by rewrite decide_True. }
  assert (Han : assigned h2 (m ++ m') n).
  { exists idx, t1. split; [by rewrite Hidx2, decide_True|]. split; [done|].
    destruct Hcls as (pos & Hin & Hv). exists pos. split; [done|].
    eapply Htrans; [apply Hsym, H3|done]. }
  assert (Hmono : ∀ r, assigned h m r → assigned h2 (m ++ m') r).
  { intros r (i & v & Hi & Hv & Hc).
    destruct (decide (r = n)) as [->|Hn]; [done|]. destruct (decide (r = e)) as [->|He]; [done|].
    exists i, v. split; [by rewrite Hidx2, !decide_False|]. split; [done|by apply classified_mono]. }
  split; [|split; [|done]].
  - split; simpl; try done.
    + eapply keeps_trans; [exact Kn|].
      eapply keeps_trans; [eapply keeps_wr; [|exact E0]|eapply keeps_wr; [|exact E3]]; done.
    + eapply keeps_trans; [exact Kv|].
      eapply keeps_trans; [eapply keeps_wr; [|exact E0]|eapply keeps_wr; [|exact E3]]; done.
    + eapply keeps_trans; [exact Kt|].
      eapply keeps_trans; [eapply keeps_wr; [|exact E0]|eapply keeps_wr; [|exact E3]]; done.
    + by rewrite (wr_polys _ _ _ _ E3), (wr_polys _ _ _ _ E0).
    + intros r. destruct (decide (r = n)) as [->|Hn]; [by right|].
      destruct (decide (r = e)) as [->|He]; [by right|].
      destruct (Hidx r) as [Hr|Hr]; [left|right; by apply Hmono].
      by rewrite Hidx2, !decide_False.
  - intros t' Ht'. assert (t' = t) as -> by congruence. split; [done|]. by exists n.
Qed.

Lemma served_mono s s' e :
  (∀ r, assigned s.1.1 s.1.2 r → assigned s'.1.1 s'.1.2 r) → served s e → served s' e.
Proof.
  intros Hm Hs t Ht. destruct (Hs t Ht) as (He & n & Hn & Han).
  split; [by apply Hm|]. exists n. split; [done|by apply Hm].
Qed.

(** The edges [l] of a region: a cycle through the edge of the region whose
    twins pass the test of the twin search. *)
Definition region_cycle (R : pref) (l : list ref) : Prop :=
  cyc_list h0 l ∧ NoDup l ∧
  (∃ e0, e0 ∈ l ∧ rdPoly edge h0 (Some R) = Ok (Some e0)) ∧
  ∀ e t, e ∈ l → rd twin h0 (Some e) = Ok (Some t) → geo h0 e t.

Lemma nodeIndices_edges_inv l s s' :
  (∀ e t, e ∈ l → rd twin h0 (Some e) = Ok (Some t) → geo h0 e t) →
  indices_inv s →
  foldM nodeIndices_body (Some <$> l) s = Ok s' →
  indices_inv s' ∧ (∀ e, e ∈ l → served s' e) ∧
  (∀ r, assigned s.1.1 s.1.2 r → assigned s'.1.1 s'.1.2 r).
Proof.
  revert s. induction l as [|x l IH]; intros s Hgeo Hs H.
  - injection H as <-. split; [done|]. split; [by intros e ?%elem_of_nil|done].
  - apply (bind_Ok (nodeIndices_body (Some x) s) _ _) in H as (s1 & E & H).
    destruct (nodeIndices_body_inv x s s1) as (Hs1 & Hx & Hm1); [|done|done|].
    { intros t. apply Hgeo. by left. }
    destruct (IH s1) as (Hs' & Hl & Hm); [|done|done|].
    { intros e t He. apply Hgeo. by right. }
    split; [done|]. split; [|by auto].
    intros e [->|He]%elem_of_cons; [by apply (served_mono s1)|by apply Hl].
Qed.

Lemma nodeIndices_region_inv fuel R l s s' :
  region_cycle R l → indices_inv s →
  nodeIndices_region fuel R s = Ok s' →
  indices_inv s' ∧ (∀ e, e ∈ l → served s' e) ∧
  (∀ r, assigned s.1.1 s.1.2 r → assigned s'.1.1 s'.1.2 r).
Proof.
  intros (Hc & Hnd & (e0 & He0 & Hedge) & Hgeo) Hs H.
  unfold nodeIndices_region in H. inv_bind H.
  assert (Hnav : nav_same h0 s.1.1).
  { split; [apply Hs|]. intros P. unfold rdPoly, derefPoly. by rewrite (ii_polys _ Hs). }
  rewrite (proj2 Hnav), Hedge in E. injection E as <-.
  destruct (cyc_from h0 l e0 Hc He0) as (X & HcX & HpX).
  destruct (doWhile_cycle (λ s : NodeIndexState, s.1.1) h0 fuel (Some R) nodeIndices_body
              e0 X s s') as (Hf & _ & _); try done.
  { intros e t t1 [Hn Hp] Hb.
    destruct (nodeIndices_body_keeps next _ _ _ (λ _ _, eq_refl) Hb) as [Hk Hpolys].
    split; [by eapply keeps_trans|]. intros P. rewrite <- Hp.
    unfold rdPoly, derefPoly. by rewrite Hpolys. }
  { by rewrite HpX. }
  destruct (nodeIndices_edges_inv (e0 :: X) s s') as (Hs' & Hl & Hm); try done.
  { intros e t He. apply Hgeo. by rewrite <- HpX. }
  split; [done|]. split; [|done]. intros e He. apply Hl. by rewrite HpX.
Qed.

Lemma nodeIndices_regions_inv fuel rs s s' :
  (∀ R, R ∈ rs → ∃ l, region_cycle R l) →
  indices_inv s →
  foldM (nodeIndices_region fuel) rs s = Ok s' →
  indices_inv s' ∧
  (∀ R l e, R ∈ rs → region_cycle R l → e ∈ l → served s' e) ∧
  (∀ r, assigned s.1.1 s.1.2 r → assigned s'.1.1 s'.1.2 r).
Proof.
  revert s. induction rs as [|R rs IH]; intros s Hrs Hs H.
  - injection H as <-. split; [done|]. split; [by intros R l e ?%elem_of_nil|done].
  - apply (bind_Ok (nodeIndices_region fuel R s) _ _) in H as (s1 & E & H).
    destruct (Hrs R) as [l0 Hl0]; [by left|].
    destruct (nodeIndices_region_inv fuel R l0 s s1 Hl0 Hs E) as (Hs1 & Hx & Hm1).
    destruct (IH s1) as (Hs' & Hl & Hm); [|done|done|].
    { intros R' HR'. apply Hrs. by right. }
    split; [done|]. split; [|by auto].
    intros R' l e [->|HR']%elem_of_cons Hl' He; [|by eapply Hl].
    apply (served_mono s1); [done|].
    destruct (nodeIndices_region_inv fuel R l s s1 Hl' Hs E) as (_ & Hx' & _). by apply Hx'.
Qed.

End Run.

Lemma onCycle_keeps h h' a b : keeps next h h' → onCycle h' a b → onCycle h a b.
Proof.
  intros Hk H. induction H as [e|e n e' Hn _ IH]; [constructor|].
  rewrite Hk in Hn. by eapply onCycle_next.
Qed.

Lemma region_inv_cycle Q fuel h rs cands cyc R :
  region_inv Q fuel h rs cands cyc → R ∈ rs → ∃ l, region_cycle h R l.
Proof.
  intros [I1 I2 I3 I4 I5 I6 I7 I8] HR.
  destruct (I5 R HR) as (l & e0 & Hl & He0 & Hin & _). exists l.
  split; [by apply I2|]. split; [by eapply NoDup_concat_elem|]. split; [by exists e0|].
  intros e t He Ht. apply I6; [|done]. apply elem_of_concat. by exists l.
Qed.

(** The indices after [_buildNodeIndices]: there is a map of indices that
    serves every edge with a twin on the boundary of a region. *)
Lemma _buildNodeIndices_served fuel h rs h' :
  (∀ R, R ∈ rs → ∃ l, region_cycle h R l) →
  _buildNodeIndices fuel h rs = Ok h' →
  ∃ m, map_ok m ∧ keeps next h h' ∧ keeps vertex h h' ∧ keeps twin h h' ∧
       hpolys h' = hpolys h ∧
       ∀ R e, R ∈ rs → boundary h R (Some e) → served h (h', m, Z.of_nat (length m)) e.
Proof.
  intros Hrs H. unfold _buildNodeIndices in H. inv_bind H. injection H as <-.
  destruct (nodeIndices_regions_inv h fuel rs (h, [], 0%Z) a) as (Ha & Hserved & _); try done.
  { split; simpl; try done; try (by left). }
  destruct a as [[h' m] k]. pose proof Ha as [Kn Kv Kt Kp Hmap Hcount Hidx]. simpl in *.
  exists m. do 5 (split; [done|]).
  intros R e HR (x & Hx & Hon). destruct (Hrs R HR) as (l & Hl).
  pose proof Hl as (Hc & Hnd & (e0 & He0 & Hedge) & _).
  assert (x = Some e0) as -> by congruence.
  destruct (onCycle_cyc h l e0 _ Hc He0 Hon) as (r & [= <-] & Hr).
  intros t Ht. by apply (Hserved R l e HR Hl Hr t).
Qed.

End IndexFacts.

(** X3: after [fromPolygons] there is a map of indices with consecutive keys
    from 0 and positions that do not pass [equals] with one another, such
    that an edge with a twin on the boundary of a region has the index of its
    position in the map, and so has the successor of its twin; two such
    edges whose positions pass [equals] have the same index. *)
Theorem fromPolygons_node_indices `{G : Geometry} fuel h nav polygons cyc h' nav' :
  equals_sym → equals_trans →
  well_formed h polygons cyc →
  fromPolygons fuel h nav polygons = Ok (h', nav') →
  ∃ indicesMap,
    map_ok indicesMap ∧
    (∀ R e t, R ∈ regions nav' → boundary h' R (Some e) →
       rd twin h' (Some e) = Ok (Some t) →
       ∃ i v n, edge_from h' (Some e) = Ok v ∧ classified indicesMap v i ∧
                rd nodeIndex h' (Some e) = Ok (Some i) ∧
                rd next h' (Some t) = Ok (Some n) ∧
                rd nodeIndex h' (Some n) = Ok (Some i)) ∧
    (∀ R R' e e' t t' v v', R ∈ regions nav' → R' ∈ regions nav' →
       boundary h' R (Some e) → boundary h' R' (Some e') →
       rd twin h' (Some e) = Ok (Some t) → rd twin h' (Some e') = Ok (Some t') →
       edge_from h' (Some e) = Ok v → edge_from h' (Some e') = Ok v' →
       equals v v' = true →
       rd nodeIndex h' (Some e) = rd nodeIndex h' (Some e')).
Proof.
  intros Hsym Htrans Hwf H. unfold fromPolygons in H. inv_bind H.
  destruct a as [[h1 rs] sorted]. inv_bind H. destruct a as [h2 rs1]. inv_bind H.
  injection H as <- <-. rename a into h3. simpl.
  assert (Hinv : region_inv (λ _, True) fuel h1 rs (candidates sorted) cyc).
  { apply (setupEdges_inv Hsym Htrans (λ _, True) fuel h polygons cyc h1 rs sorted Hwf); [|done].
    intros P HP. by left. }
  destruct (_buildRegions_inv Hsym Htrans _ _ _ _ _ _ _ _ Hinv E0) as [cyc' Hinv'].
  destruct (_buildNodeIndices_served Hsym Htrans fuel h2 rs1 h3)
    as (m & Hmap & Kn & Kv & Kt & Kp & Hserved); [|done|].
  { intros R HR. by eapply region_inv_cycle. }
  assert (Hb : ∀ R x, boundary h3 R x → boundary h2 R x).
  { intros R x (x0 & Hx0 & Hon). exists x0. split.
    - unfold rdPoly, derefPoly in *. by rewrite <- Kp.
    - by eapply onCycle_keeps. }
  assert (Hone : ∀ R e t, R ∈ rs1 → boundary h3 R (Some e) →
            rd twin h3 (Some e) = Ok (Some t) →
            ∃ i v n, edge_from h3 (Some e) = Ok v ∧ classified m v i ∧
                     rd nodeIndex h3 (Some e) = Ok (Some i) ∧
                     rd next h3 (Some t) = Ok (Some n) ∧
                     rd nodeIndex h3 (Some n) = Ok (Some i)).
  { intros R e t HR Hbe Ht. rewrite Kt in Ht.
    destruct (Hserved R e HR (Hb _ _ Hbe) t Ht)
      as ((i & v & Hi & Hv & Hc) & n & Hn & (i' & v' & Hi' & Hv' & Hc')). simpl in *.
    exists i, v, n. unfold edge_from. rewrite Kv, Kn. do 4 (split; [done|]).
    rewrite Hi'. do 2 f_equal. symmetry. eapply (classified_unique Hsym Htrans m v v'); try done.
    destruct (region_inv_cycle _ _ _ _ _ _ R Hinv' HR) as [l Hl].
    destruct Hl as (Hc0 & Hnd & (e0 & He0 & Hedge) & Hgeo).
    destruct (Hb _ _ Hbe) as (x & Hx & Hon). assert (x = Some e0) as -> by congruence.
    destruct (onCycle_cyc h2 l e0 _ Hc0 He0 Hon) as (r & [= <-] & Hr).
    destruct (Hgeo e t Hr Ht) as (f0 & t1 & t0 & f1 & H1 & H2 & H3 & _).
    unfold edge_from, edge_to in *. rewrite Hn in H2. simpl in H2. congruence. }
  exists m. split; [done|]. split; [done|].
  intros R R' e e' t t' v v' HR HR' Hbe Hbe' Ht Ht' Hv Hv' Heq.
  destruct (Hone R e t HR Hbe Ht) as (i & w & _ & Hw & Hc & Hi & _).
  destruct (Hone R' e' t' HR' Hbe' Ht') as (i' & w' & _ & Hw' & Hc' & Hi' & _).
  assert (w = v) as -> by congruence. assert (w' = v') as -> by congruence.
  rewrite Hi, Hi'. do 2 f_equal. by eapply (classified_unique Hsym Htrans m v v').
Qed.

(** * What the build keeps of its input *)

Section BuildFacts.
Context {G : Geometry}.

(** ** The regions *)

Lemma set_add_elem p rs x : x ∈ set_add p rs ↔ x ∈ rs ∨ x = p.
Proof.
  unfold set_add. destruct (decide (p ∈ rs)) as [Hp|Hp].
  - split; [by left|]. intros [?| ->]; done.
  - rewrite elem_of_app, list_elem_of_singleton. done.
Qed.

Lemma set_add_NoDup p rs : NoDup rs → NoDup (set_add p rs).
Proof.
  intros Hnd. unfold set_add. destruct (decide (p ∈ rs)) as [Hp|Hp]; [done|].
  apply NoDup_app. split; [done|]. split; [|apply NoDup_singleton].
  intros x Hx ->%list_elem_of_singleton. done.
Qed.

Lemma foldl_set_add_spec ps rs0 :
  NoDup rs0 →
  NoDup (foldl (λ rs p, set_add p rs) rs0 ps) ∧
  ∀ x, x ∈ foldl (λ rs p, set_add p rs) rs0 ps ↔ x ∈ rs0 ∨ x ∈ ps.
Proof.
  revert rs0. induction ps as [|p ps IH]; intros rs0 Hnd; simpl.
  - split; [done|]. intros x. rewrite elem_of_nil. tauto.
  - destruct (IH (set_add p rs0)) as [H1 H2]; [by apply set_add_NoDup|].
    split; [done|]. intros x. rewrite H2, set_add_elem, elem_of_cons. tauto.
Qed.

Lemma set_delete_elem o rs x : x ∈ set_delete o rs → x ∈ rs.
Proof. destruct o as [r|]; simpl; [|done]. by intros [_ ?]%list_elem_of_filter. Qed.

Lemma set_delete_NoDup o rs : NoDup rs → NoDup (set_delete o rs).
Proof. destruct o as [r|]; simpl; [|done]. apply NoDup_filter. Qed.

(** A round of the region loop takes at most one polygon out of the regions. *)
Lemma mergeCandidate_regions fuel entry h rs h' rs' :
  mergeCandidate fuel entry (h, rs) = Ok (h', rs') → ∃ o, rs' = set_delete o rs.
Proof.
  unfold mergeCandidate. intros H. inv_bind H.
  match goal with Ht : trial _ _ = Ok ?x |- _ => destruct x as [h2 poly] end.
  inv_bind H.
  match goal with Hc : convex _ _ _ = Ok ?b |- _ => destruct b end.
  - unfold commit in H. inv_bind H. injection H as <- <-. by eexists.
  - inv_bind H. injection H as <- <-. by exists None.
Qed.

Lemma _buildRegions_regions fuel edgeList h rs h' rs' :
  _buildRegions fuel edgeList h rs = Ok (h', rs') →
  (NoDup rs → NoDup rs') ∧ ∀ x, x ∈ rs' → x ∈ rs.
Proof.
  unfold _buildRegions. intros H. inv_bind H. destruct a as [h1 rs1]. inv_bind H.
  injection H as <- <-.
  apply (foldM_inv (mergeCandidate fuel)
           (λ s, (NoDup rs → NoDup s.2) ∧ ∀ x, x ∈ s.2 → x ∈ rs) edgeList (h, rs) (h1, rs1));
    [|done|done].
  intros en [ha ra] [hb rb] _ [Hnd Hsub] Hstep. simpl in *.
  destruct (mergeCandidate_regions _ _ _ _ _ _ Hstep) as [o ->]. split.
  - intros Hrs. by apply set_delete_NoDup, Hnd.
  - intros x Hx%set_delete_elem. by apply Hsub.
Qed.

Lemma setupEdges_regions fuel h rs0 polygons h1 rs sorted :
  setupEdges fuel h rs0 polygons = Ok (h1, rs, sorted) →
  rs = foldl (λ rs p, set_add p rs) rs0 polygons.
Proof.
  intros H. unfold setupEdges in H. inv_bind H. destruct a as [L rs1]. inv_bind H.
  destruct a as [h1' sorted']. injection H as <- <- <-.
  by destruct (collectEdges_all _ _ _ _ _ _ _ E) as (-> & _).
Qed.

(** X4: the regions of the mesh [fromPolygons] builds are polygons of the
    input, each of them once: the regions the mesh had before are gone, and
    the build adds no polygon of its own. *)
Theorem fromPolygons_regions_input fuel h nav polygons h' nav' :
  fromPolygons fuel h nav polygons = Ok (h', nav') →
  NoDup (regions nav') ∧ ∀ region, region ∈ regions nav' → region ∈ polygons.
Proof.
  intros H. unfold fromPolygons in H. inv_bind H.
  destruct a as [[h1 rs] sorted]. inv_bind H. destruct a as [h2 rs1]. inv_bind H.
  injection H as <- <-. simpl.
  apply setupEdges_regions in E as ->.
  destruct (foldl_set_add_spec polygons []) as [Hnd Hin]; [constructor|].
  destruct (_buildRegions_regions _ _ _ _ _ _ E0) as [Hnd' Hsub].
  split; [by apply Hnd'|]. intros x Hx%Hsub%Hin. destruct Hx as [Hx|Hx]; [|done].
  by apply elem_of_nil in Hx.
Qed.

(** ** The vertices *)

Lemma linkTwin_same h0 L edge0 h sorted h' sorted' :
  same_but_twin h0 h → linkTwin L edge0 (h, sorted) = Ok (h', sorted') → same_but_twin h0 h'.
Proof.
  intros Hsame H. unfold linkTwin in H. inv_bind H.
  destruct (decide (a ≠ None)); [by injection H as <- <-|]. inv_bind H.
  destruct a0 as [edge1|]; [|by injection H as <- <-].
  inv_bind H. injection H as <- <-.
  eapply same_but_twin_wr; [|done]. by eapply same_but_twin_wr.
Qed.

Lemma setupEdges_same fuel h rs0 polygons h1 rs sorted :
  setupEdges fuel h rs0 polygons = Ok (h1, rs, sorted) → same_but_twin h h1.
Proof.
  intros H. unfold setupEdges in H. inv_bind H. destruct a as [L rs1]. inv_bind H.
  destruct a as [h1' sorted']. injection H as <- <- <-.
  apply (foldM_inv (linkTwin L) (λ s, same_but_twin h s.1) L (h, []) (h1', sorted'));
    [|apply same_but_twin_refl|done].
  intros x [ha sa] [hb sb] _ Ha Hb. simpl in *. by eapply linkTwin_same.
Qed.

(** X5: [fromPolygons] moves no vertex, and it neither makes nor drops an
    edge: an edge of the store after the build is an edge of the store
    before, with the vertex it had. *)
Theorem fromPolygons_keeps_vertices fuel h nav polygons h' nav' :
  fromPolygons fuel h nav polygons = Ok (h', nav') →
  ∀ r, rd vertex h' r = rd vertex h r.
Proof.
  intros H r. unfold fromPolygons in H. inv_bind H.
  destruct a as [[h1 rs] sorted]. inv_bind H. destruct a as [h2 rs1]. inv_bind H.
  injection H as <- <-.
  destruct (setupEdges_same _ _ _ _ _ _ _ E) as [_ Hs].
  destruct (_buildNodeIndices_keeps vertex _ _ _ _ (λ _ _, eq_refl) E1) as [K3 _].
  rewrite K3. rewrite (_buildRegions_keeps vertex untouched_vertex _ _ _ _ _ _ E0).
  apply Hs.
Qed.

(** ** The twins *)

(** What holds of a twin after the search: it was the twin before, or the
    two are edges of the input and one runs from the end of the other to its
    start. *)
Definition twin_found (h0 : Heap) (L : list (option ref)) (e t : ref) : Prop :=
  rd twin h0 (Some e) = Ok (Some t) ∨
  (Some e ∈ L ∧ Some t ∈ L ∧ (rev h0 (Some e) (Some t) ∨ rev h0 (Some t) (Some e))).

Lemma linkTwin_found h0 L edge0 h sorted h' sorted' :
  edge0 ∈ L → same_but_twin h0 h →
  (∀ e t, rd twin h (Some e) = Ok (Some t) → twin_found h0 L e t) →
  linkTwin L edge0 (h, sorted) = Ok (h', sorted') →
  ∀ e t, rd twin h' (Some e) = Ok (Some t) → twin_found h0 L e t.
Proof.
  intros HL Hsame Hold H. unfold linkTwin in H. inv_bind H.
  destruct (decide (a ≠ None)); [by injection H as <- <-|]. inv_bind H.
  destruct a0 as [edge1|]; [|by injection H as <- <-].
  inv_bind H. injection H as <- <-. rename a0 into h1, a1 into h2.
  destruct (findTwin_spec _ _ _ _ E0) as [HL1 Hrev].
  apply (rev_same _ _ _ _ Hsame) in Hrev.
  destruct (wr_Ok_Some _ _ _ _ E1) as [r0 ->].
  destruct (wr_Ok_Some _ _ _ _ E2) as [r1 ->].
  intros e t. rewrite (rd_wr _ _ _ _ _ _ E2). destruct (decide (e = r1)) as [->|Hr1].
  - intros Ht. apply rd_Some in Ht as (x & _ & [= <-]). right. tauto.
  - rewrite (rd_wr _ _ _ _ _ _ E1). destruct (decide (e = r0)) as [->|Hr0]; [|apply Hold].
    intros Ht. apply rd_Some in Ht as (x & _ & [= <-]). right. tauto.
Qed.

Lemma setupEdges_found fuel h rs0 polygons h1 rs sorted e t :
  setupEdges fuel h rs0 polygons = Ok (h1, rs, sorted) →
  rd twin h1 (Some e) = Ok (Some t) →
  rd twin h (Some e) = Ok (Some t) ∨
  (inputEdge h polygons (Some e) ∧ inputEdge h polygons (Some t) ∧
   (rev h (Some e) (Some t) ∨ rev h (Some t) (Some e))).
Proof.
  intros H Ht. unfold setupEdges in H. inv_bind H. destruct a as [L rs1]. inv_bind H.
  destruct a as [h1' sorted']. injection H as <- <- <-.
  destruct (collectEdges_all _ _ _ _ _ _ _ E) as (_ & HL).
  assert (HL' : ∀ x, x ∈ L → inputEdge h polygons x).
  { intros x [Hx|Hx]%HL; [by apply elem_of_nil in Hx|done]. }
  assert (Hinv : same_but_twin h h1' ∧
            ∀ e t, rd twin h1' (Some e) = Ok (Some t) → twin_found h L e t).
  { apply (foldM_inv (linkTwin L)
             (λ s, same_but_twin h s.1 ∧
                   ∀ e t, rd twin s.1 (Some e) = Ok (Some t) → twin_found h L e t)
             L (h, []) (h1', sorted')); [| |done].
    - intros x [ha sa] [hb sb] Hx [Ha1 Ha2] Hb. simpl in *. split.
      + by eapply linkTwin_same.
      + by eapply linkTwin_found.
    - split; [apply same_but_twin_refl|]. intros e' t' Ht'. by left. }
  destruct (proj2 Hinv e t Ht) as [?|(He & Ht' & Hr)]; [by left|right].
  split; [by apply HL'|]. split; [by apply HL'|done].
Qed.

(** X6: a twin an edge has after [fromPolygons] is the twin it had before,
    or the search has found it: then both are edges of the input polygons
    and one runs from the end of the other to its start.  The later phases
    set no twin. *)
Theorem fromPolygons_twins_found fuel h nav polygons h' nav' e t :
  fromPolygons fuel h nav polygons = Ok (h', nav') →
  rd twin h' (Some e) = Ok (Some t) →
  rd twin h (Some e) = Ok (Some t) ∨
  (inputEdge h polygons (Some e) ∧ inputEdge h polygons (Some t) ∧
   (rev h (Some e) (Some t) ∨ rev h (Some t) (Some e))).
Proof.
  intros H Ht. unfold fromPolygons in H. inv_bind H.
  destruct a as [[h1 rs] sorted]. inv_bind H. destruct a as [h2 rs1]. inv_bind H.
  injection H as <- <-.
  destruct (_buildNodeIndices_keeps twin _ _ _ _ (λ _ _, eq_refl) E1) as [K3 _].
  rewrite K3, (_buildRegions_keeps twin untouched_twin _ _ _ _ _ _ E0) in Ht.
  by eapply setupEdges_found.
Qed.

(** ** The splice *)

(** X9: the splice of a candidate [c] whose twin [t] is on another cycle
    makes one cycle of the two: the edges after [c] on its cycle, followed
    by the edges after [t] on the cycle of [t]; [c] and [t] are on it no
    more, and the edge of the candidate's polygon is the edge before [c],
    which is. *)
Theorem trial_joins_cycles h c t X Y h2 poly :
  rd twin h (Some c) = Ok (Some t) →
  cyc_list h (c :: X) → cyc_list h (t :: Y) →
  NoDup (c :: X ++ t :: Y) → X ≠ [] → Y ≠ [] →
  trial h (Some c) = Ok (h2, poly) →
  cyc_list h2 (X ++ Y) ∧
  ∃ A p, poly = Some A ∧ rd polygon h (Some c) = Ok (Some A) ∧
         last X = Some p ∧ rdPoly edge h2 (Some A) = Ok (Some p).
Proof.
  intros Ht HcX HcY Hnd HXne HYne Htrial.
  destruct (NoDup_two _ _ _ _ Hnd) as (HcnX & HcnY & Hct & HtnX & HtnY & HXY & HndX & HndY).
  destruct (arc_ends h c X c HcX HXne) as (n & p & HhX & HlX & Hcn & Hpc & HpathX).
  destruct (arc_ends h t Y t HcY HYne) as (tn & tp & HhY & HlY & Httn & Htpt & HpathY).
  pose proof (head_elem _ _ HhX) as HnX. pose proof (last_elem _ _ HlX) as HpX'.
  pose proof (head_elem _ _ HhY) as HtnY'. pose proof (last_elem _ _ HlY) as HtpY.
  destruct Hpc as [Hpc1 Hpc2], Hcn as [Hcn1 Hcn2], Htpt as [Htpt1 Htpt2], Httn as [Httn1 Httn2].
  destruct (trial_fields h c t p n tp tn h2 poly) as (A & -> & HA & Hedge & Hnext & Hprev & _);
    try done; [by intros ->|by intros ->|].
  split.
  - apply cyc_list_ends. split.
    + apply (path_join h2 X Y p tn); [| |done|done|].
      * apply (seg_frame h h2 X n p); try done.
        -- intros r Hr Hrp. rewrite Hnext, !decide_False; [done|done|]. intros ->. by apply (HXY tp).
        -- intros r Hr Hrn. rewrite Hprev, !decide_False; [done|done|]. intros ->. by apply (HXY tn).
      * apply (seg_frame h h2 Y tn tp); try done.
        -- intros r Hr Hrp. rewrite Hnext, !decide_False; [done| |done]. intros ->. by apply (HXY p).
        -- intros r Hr Hrn. rewrite Hprev, !decide_False; [done| |done]. intros ->. by apply (HXY n).
      * split; [rewrite Hnext, decide_False, decide_True; [done|done|]|rewrite Hprev, decide_True; done].
        intros ->. by apply (HXY tp).
    + exists n, tp. split; [rewrite head_app, HhX; done|]. split; [rewrite last_app, HlY; done|].
      split; [rewrite Hnext, decide_True; done|rewrite Hprev, decide_False, decide_True; [done|done|]].
      intros ->. by apply (HXY tn).
  - exists A, p. do 3 (split; [done|]). by rewrite Hedge, decide_True.
Qed.

(** ** The index phase *)

(** X7: [_buildNodeIndices] writes node indices only: the cycles, the
    twins, the vertices, the polygons of the edges and the polygon objects
    are after it as they were before. *)
Theorem _buildNodeIndices_writes_indices_only fuel h rs h' :
  _buildNodeIndices fuel h rs = Ok h' →
  hpolys h' = hpolys h ∧
  ∀ r, rd next h' r = rd next h r ∧ rd prev h' r = rd prev h r ∧
       rd polygon h' r = rd polygon h r ∧ rd twin h' r = rd twin h r ∧
       rd vertex h' r = rd vertex h r.
Proof.
  intros H3. split.
  - by apply (_buildNodeIndices_keeps vertex _ _ _ _ (λ _ _, eq_refl) H3).
  - intros r. split; [|split; [|split; [|split]]].
    + by apply (_buildNodeIndices_keeps next _ _ _ _ (λ _ _, eq_refl) H3).
    + by apply (_buildNodeIndices_keeps prev _ _ _ _ (λ _ _, eq_refl) H3).
    + by apply (_buildNodeIndices_keeps polygon _ _ _ _ (λ _ _, eq_refl) H3).
    + by apply (_buildNodeIndices_keeps twin _ _ _ _ (λ _ _, eq_refl) H3).
    + by apply (_buildNodeIndices_keeps vertex _ _ _ _ (λ _ _, eq_refl) H3).
Qed.

(** ** The graph *)

(** The two ends of an edge of the graph. *)
Definition ends (e : NavEdge) : Idx * Idx := (from e, to e).

(** A digraph without loops and without two edges between the same nodes,
    whose nodes have distinct indices and whose edges end at nodes. *)
Definition simple (g : Graph) : Prop :=
  digraph g = true ∧ NoDup (index <$> nodes g) ∧ NoDup (ends <$> edges g) ∧
  ∀ e, e ∈ edges g → from e ≠ to e ∧ hasNode g (from e) = true ∧ hasNode g (to e) = true.

Lemma hasNode_elem g i : hasNode g i = true ↔ i ∈ index <$> nodes g.
Proof.
  unfold hasNode. rewrite existsb_exists, list_elem_of_fmap. split.
  - intros (n & Hn & Hb). apply bool_decide_eq_true in Hb. exists n.
    split; [done|by apply list_elem_of_In].
  - intros (n & -> & Hn). exists n. split; [by apply list_elem_of_In|].
    by apply bool_decide_eq_true.
Qed.

Lemma getNode_hasNode g i n : getNode g i = Ok n → hasNode g i = true.
Proof.
  unfold getNode. destruct (find _ (nodes g)) as [n'|] eqn:Hf; [|done]. intros _.
  apply find_some in Hf as [Hin Hb]. apply bool_decide_eq_true in Hb.
  apply hasNode_elem, list_elem_of_fmap. exists n'. split; [done|by apply list_elem_of_In].
Qed.

Lemma addNode_simple g n g' : simple g → addNode g n = Ok g' → simple g'.
Proof.
  intros (Hd & Hn & He & Hall). unfold addNode.
  destruct (hasNode g (index n)) eqn:Hhas; [done|]. intros [= <-].
  split; [done|]. simpl. split; [|split; [done|]].
  - rewrite fmap_app. apply NoDup_app. split; [done|]. split; [|apply NoDup_singleton].
    intros i Hi ->%list_elem_of_singleton. apply hasNode_elem in Hi. congruence.
  - intros e Hin. destruct (Hall e Hin) as (? & H1 & H2). split; [done|].
    rewrite !hasNode_elem in *. simpl. rewrite fmap_app, !elem_of_app. tauto.
Qed.

Lemma gatherIndices_body_simple h e s s' :
  simple s.1 → gatherIndices_body h e s = Ok s' → simple s'.1.
Proof.
  destruct s as [g acc]. simpl. intros Hs H. unfold gatherIndices_body in H. inv_bind H.
  destruct (decide (a ≠ None)); [|by injection H as <-].
  inv_bind H. destruct (negb (hasNode g a3)); [|by injection H as <-].
  inv_bind H. injection H as <-. simpl.
  match goal with Ha : addNode _ _ = Ok _ |- _ => by eapply addNode_simple end.
Qed.

Lemma gatherIndices_simple fuel h region s s' :
  simple s.1 → gatherIndices fuel h region s = Ok s' → simple s'.1.
Proof.
  destruct s as [g lists]. simpl. intros Hs H. unfold gatherIndices in H. inv_bind H.
  destruct a0 as [g1 acc]. injection H as <-. simpl.
  apply (doWhile_inv (λ _, h) (λ s : Graph * list Idx, simple s.1) _ _ _ _ _ _
           (gatherIndices_body_simple h)) in E0; done.
Qed.

Lemma addNavEdge_simple i j g g' : simple g → addNavEdge i j g = Ok g' → simple g'.
Proof.
  intros (Hd & Hn & He & Hall) H. unfold addNavEdge in H.
  destruct (decide (i ≠ j)) as [Hne|]; [|by injection H as <-].
  destruct (hasEdge g i j) eqn:Hhas; simpl in H; [by injection H as <-|].
  inv_bind H. injection H as <-. unfold addEdge. rewrite Hd.
  split; [done|]. simpl. split; [done|]. split.
  - rewrite fmap_app. apply NoDup_app. split; [done|]. split; [|apply NoDup_singleton].
    intros x Hx Hx'%list_elem_of_singleton. subst x.
    apply list_elem_of_fmap in Hx as (e & Heq & Hin). injection Heq as H1 H2.
    assert (hasEdge g i j = true); [|congruence].
    apply hasEdge_elem. by exists e.
  - intros e [Hin|Hin%list_elem_of_singleton]%elem_of_app; [by apply Hall|].
    subst e. simpl. split; [done|]. split; by eapply getNode_hasNode.
Qed.

Lemma addNavEdges_simple indices g g' : simple g → addNavEdges indices g = Ok g' → simple g'.
Proof.
  intros Hs H. unfold addNavEdges in H.
  apply (foldM_inv (λ from_ g, foldM (λ to_ g, addNavEdge from_ to_ g) indices g)
           simple indices g g'); [|done|done].
  intros i ga gb _ Ha Hb.
  apply (foldM_inv (λ to_ g, addNavEdge i to_ g) simple indices ga gb); [|done|done].
  intros j gc gd _ Hc Hd. by eapply addNavEdge_simple.
Qed.

Lemma _buildGraph_simple fuel h rs g g' :
  simple g → _buildGraph fuel h rs g = Ok g' → simple g'.
Proof.
  intros Hs H. unfold _buildGraph in H. inv_bind H. destruct a as [g1 lists].
  assert (Hs1 : simple g1).
  { apply (foldM_inv (gatherIndices fuel h) (λ s, simple s.1) rs (g, []) (g1, lists));
      [|done|done].
    intros x s s1 _ Ha Hb. by eapply gatherIndices_simple. }
  apply (foldM_inv addNavEdges simple lists g1 g'); [|done|done].
  intros x ga gb _ Ha Hb. by eapply addNavEdges_simple.
Qed.

(** X8: the graph [fromPolygons] builds in a mesh whose graph is a digraph,
    as the constructor makes it, has nodes of distinct indices, no edge from
    a node to itself and no two edges from one node to another, and every
    edge runs between nodes of the graph. *)
Theorem fromPolygons_graph_simple fuel h nav polygons h' nav' :
  digraph (graph nav) = true →
  fromPolygons fuel h nav polygons = Ok (h', nav') →
  NoDup (index <$> nodes (graph nav')) ∧
  NoDup (ends <$> edges (graph nav')) ∧
  ∀ e, e ∈ edges (graph nav') →
    from e ≠ to e ∧ hasNode (graph nav') (from e) = true ∧ hasNode (graph nav') (to e) = true.
Proof.
  intros Hd H. unfold fromPolygons in H. inv_bind H.
  destruct a as [[h1 rs] sorted]. inv_bind H. destruct a as [h2 rs1]. inv_bind H.
  injection H as <- <-. simpl.
  match goal with Hg : _buildGraph _ _ _ _ = Ok _ |- _ =>
    apply _buildGraph_simple in Hg as (_ & ? & ? & ?); [done|] end.
  split; [done|]. simpl. split; [constructor|]. split; [constructor|].
  by intros e ?%elem_of_nil.
Qed.

End BuildFacts.

(** * Where the nodes and the edges of the graph come from *)

Section GraphSources.
Context {G : Geometry}.

(** A node made for an edge of the boundary of [region] that has a twin: it
    has the node index of the edge and the position the edge starts at. *)
Definition nodeOf (h : Heap) (region : pref) (n : NavNode) : Prop :=
  ∃ e t, boundary h region e ∧ rd twin h e = Ok (Some t) ∧
         rd nodeIndex h e = Ok (index n) ∧ edge_from h e = Ok (position n).

(** The cost of the edge is the distance between the nodes at its ends. *)
Definition costOf (g : Graph) (e : NavEdge) : Prop :=
  ∃ ni nj, getNode g (from e) = Ok ni ∧ getNode g (to e) = Ok nj ∧
           cost e = distanceTo (position ni) (position nj).

Lemma gatherIndices_body_sourced h region start e g acc g' acc' :
  rdPoly edge h (Some region) = Ok start → onCycle h start e →
  gatherIndices_body h e (g, acc) = Ok (g', acc') →
  (∀ n, n ∈ nodes g' → n ∈ nodes g ∨ nodeOf h region n) ∧
  (∀ i, i ∈ acc' → i ∈ acc ∨ exposes h region i).
Proof.
  intros Hstart Hon H. unfold gatherIndices_body in H. inv_bind H.
  destruct (decide (a ≠ None)) as [Hsome|Hnone]; [|injection H as <- <-; split; by left].
  inv_bind H. destruct a as [t|]; [|done].
  assert (a1 = Some t) as -> by congruence.
  assert (Hb : boundary h region e) by (by exists start).
  assert (Hacc : ∀ i, i ∈ acc ++ [a0; a2] → i ∈ acc ∨ exposes h region i).
  { intros i [Hi|Hi]%elem_of_app; [by left|]. right. exists e, t.
    split; [done|]. split; [done|].
    apply elem_of_cons in Hi as [->|Hi]; [by left|].
    apply list_elem_of_singleton in Hi as ->. by right. }
  destruct (negb (hasNode g a3)).
  - inv_bind H. injection H as <- <-. split; [|done].
    match goal with Ha : addNode _ _ = Ok _ |- _ => unfold addNode in Ha;
      destruct (hasNode g _); [done|]; injection Ha as <- end.
    simpl. intros n [Hn|Hn]%elem_of_app; [by left|].
    apply list_elem_of_singleton in Hn as ->. right. exists e, t. done.
  - injection H as <- <-. split; [by left|done].
Qed.

Lemma gatherIndices_sourced fuel h region g lists g' lists' :
  gatherIndices fuel h region (g, lists) = Ok (g', lists') →
  (∀ n, n ∈ nodes g' → n ∈ nodes g ∨ nodeOf h region n) ∧
  ∃ indices, lists' = lists ++ [indices] ∧ ∀ i, i ∈ indices → exposes h region i.
Proof.
  unfold gatherIndices. intros H. inv_bind H. destruct a0 as [g1 indices].
  injection H as <- <-.
  destruct (doWhile_const _ _ _ _ _ _ _ E0) as (start & l & Hs & Hc & Hf).
  assert (start = a) as -> by congruence.
  assert (Hinv : (∀ n, n ∈ nodes (g1, indices).1 → n ∈ nodes g ∨ nodeOf h region n) ∧
                 (∀ i, i ∈ (g1, indices).2 → exposes h region i)).
  { apply (foldM_inv (gatherIndices_body h)
             (λ s : Graph * list Idx,
                (∀ n, n ∈ nodes s.1 → n ∈ nodes g ∨ nodeOf h region n) ∧
                (∀ i, i ∈ s.2 → exposes h region i)) (a :: l) (g, []) (g1, indices));
      [| |done].
    - intros e [ga acca] [gb accb] He [Hn Hi] Hb. simpl in *.
      destruct (gatherIndices_body_sourced h region a e ga acca gb accb Hs
                  (chain_elem_onCycle _ _ _ _ _ Hc He) Hb) as [Hn' Hi'].
      split.
      + intros n Hin. destruct (Hn' n Hin) as [?|?]; [by apply Hn|by right].
      + intros i Hin. destruct (Hi' i Hin) as [?|?]; [by apply Hi|done].
    - simpl. split; [by left|]. by intros i ?%elem_of_nil. }
  destruct Hinv as [Hn Hi]. split; [done|]. by exists indices.
Qed.

Lemma gatherIndices_all_sourced fuel h rs g1 lists :
  foldM (gatherIndices fuel h) rs (mkGraph true [] [], []) = Ok (g1, lists) →
  (∀ n, n ∈ nodes g1 → ∃ region, region ∈ rs ∧ nodeOf h region n) ∧
  (∀ indices, indices ∈ lists →
     ∃ region, region ∈ rs ∧ ∀ i, i ∈ indices → exposes h region i).
Proof.
  intros H.
  apply (foldM_inv (gatherIndices fuel h)
           (λ s : Graph * list (list Idx),
              (∀ n, n ∈ nodes s.1 → ∃ region, region ∈ rs ∧ nodeOf h region n) ∧
              (∀ indices, indices ∈ s.2 →
                 ∃ region, region ∈ rs ∧ ∀ i, i ∈ indices → exposes h region i))
           rs (mkGraph true [] [], []) (g1, lists)); [| |done].
  - intros region [ga la] [gb lb] Hr [Hn Hl] Hb. simpl in *.
    destruct (gatherIndices_sourced _ _ _ _ _ _ _ Hb) as (Hn' & indices & -> & Hi).
    split.
    + intros n Hin. destruct (Hn' n Hin) as [?|?]; [by apply Hn|by exists region].
    + intros l [Hin|Hin]%elem_of_app; [by apply Hl|].
      apply list_elem_of_singleton in Hin as ->. by exists region.
  - simpl. split; [by intros n ?%elem_of_nil|by intros l ?%elem_of_nil].
Qed.

(** A state of the second loop of [_buildGraph]: a digraph on the nodes [ns]
    each of whose edges joins two indices of one of the [lists] and has the
    right cost. *)
Definition joined (ns : list NavNode) (lists : list (list Idx)) (g : Graph) : Prop :=
  digraph g = true ∧ nodes g = ns ∧
  ∀ e, e ∈ edges g →
    (∃ indices, indices ∈ lists ∧ from e ∈ indices ∧ to e ∈ indices) ∧ costOf g e.

Lemma costOf_nodes g g' e : nodes g' = nodes g → costOf g e → costOf g' e.
Proof.
  intros Hn (ni & nj & H1 & H2 & H3). exists ni, nj. unfold getNode in *. by rewrite Hn.
Qed.

Lemma addNavEdge_joined ns lists indices i j g g' :
  indices ∈ lists → i ∈ indices → j ∈ indices →
  joined ns lists g → addNavEdge i j g = Ok g' → joined ns lists g'.
Proof.
  intros Hl Hi Hj (Hd & Hn & Hall) H. unfold addNavEdge in H.
  destruct (decide (i ≠ j)) as [Hne|]; [|by injection H as <-].
  destruct (hasEdge g i j); simpl in H; [by injection H as <-|].
  inv_bind H. injection H as <-. unfold addEdge. rewrite Hd.
  split; [done|]. split; [done|]. simpl.
  intros e [Hin|Hin%list_elem_of_singleton]%elem_of_app.
  - destruct (Hall e Hin) as [? ?]. split; [done|]. by eapply costOf_nodes.
  - subst e. simpl. split; [by exists indices|]. by exists a, a0.
Qed.

Lemma addNavEdges_joined ns lists indices g g' :
  indices ∈ lists → joined ns lists g → addNavEdges indices g = Ok g' → joined ns lists g'.
Proof.
  intros Hl Hs H. unfold addNavEdges in H.
  apply (foldM_inv (λ from_ g, foldM (λ to_ g, addNavEdge from_ to_ g) indices g)
           (joined ns lists) indices g g'); [|done|done].
  intros i ga gb Hi Ha Hb.
  apply (foldM_inv (λ to_ g, addNavEdge i to_ g) (joined ns lists) indices ga gb);
    [|done|done].
  intros j gc gd Hj Hc Hd. exact (addNavEdge_joined _ _ _ _ _ _ _ Hl Hi Hj Hc Hd).
Qed.

Lemma _buildGraph_sourced fuel h rs g' :
  _buildGraph fuel h rs (mkGraph true [] []) = Ok g' →
  (∀ n, n ∈ nodes g' → ∃ region, region ∈ rs ∧ nodeOf h region n) ∧
  (∀ e, e ∈ edges g' →
     (∃ region, region ∈ rs ∧ exposes h region (from e) ∧ exposes h region (to e)) ∧
     costOf g' e).
Proof.
  intros H. unfold _buildGraph in H. inv_bind H. destruct a as [g1 lists].
  destruct (gatherIndices_all_sourced _ _ _ _ _ E) as [Hn Hl].
  destruct (gatherIndices_all _ _ _ _ _ _ _ E) as (He1 & Hd1 & _).
  assert (Hj : joined (nodes g1) lists g').
  { apply (foldM_inv addNavEdges (joined (nodes g1) lists) lists g1 g'); [| |done].
    - intros indices ga gb Hin Ha Hb. exact (addNavEdges_joined _ _ _ _ _ Hin Ha Hb).
    - split; [done|]. split; [done|]. rewrite He1. by intros e ?%elem_of_nil. }
  destruct Hj as (_ & Hnodes & Hall). split; [by rewrite Hnodes|].
  intros e He. destruct (Hall e He) as [(indices & Hin & Hf & Ht) Hc]. split; [|done].
  destruct (Hl indices Hin) as (region & Hr & Hexp). exists region. eauto.
Qed.

(** X17: the graph [fromPolygons] builds in a mesh whose graph is a digraph
    has nothing but what the regions give it.  A node has the node index and
    the start position of an edge with a twin on the boundary of a region;
    an edge joins two node indices that one region exposes, and its cost is
    the distance between the nodes at its ends.  So a mesh none of whose
    regions shares an edge with another has an empty graph. *)
Theorem fromPolygons_graph_sourced fuel h nav polygons h' nav' :
  digraph (graph nav) = true →
  fromPolygons fuel h nav polygons = Ok (h', nav') →
  (∀ n, n ∈ nodes (graph nav') →
     ∃ region, region ∈ regions nav' ∧ nodeOf h' region n) ∧
  (∀ e, e ∈ edges (graph nav') →
     (∃ region, region ∈ regions nav' ∧
        exposes h' region (from e) ∧ exposes h' region (to e)) ∧
     costOf (graph nav') e).
Proof.
  intros Hd H. unfold fromPolygons in H. inv_bind H.
  destruct a as [[h1 rs] sorted]. inv_bind H. destruct a as [h2 rs1]. inv_bind H.
  injection H as <- <-. simpl.
  match goal with Hg : _buildGraph _ _ _ _ = Ok _ |- _ =>
    unfold clear, graph_clear in Hg; simpl in Hg; rewrite Hd in Hg;
    exact (_buildGraph_sourced _ _ _ _ Hg) end.
Qed.

End GraphSources.

Section NumberOrder.
Context {G : Geometry}.

(** [<] on the numbers is a strict order. *)
Definition lt_irrefl : Prop := ∀ a : Num, num_lt a a = false.
Definition lt_trans : Prop :=
  ∀ a b c : Num, num_lt a b = true → num_lt b c = true → num_lt a c = true.

End NumberOrder.

(** * Properties of the queries, continued *)

Section QueryResults.
Context {G : Geometry}.
Variable contains : Heap → pref → Vector3 → option Num → result bool.
Variable astar : Graph → Idx → Idx → option (list Idx).

(** ** [getRegionForPoint] *)

Lemma getRegionForPoint_loop_Some h rs point eps R :
  getRegionForPoint_loop contains h rs point eps = Ok (Some R) ↔
  ∃ before after, rs = before ++ R :: after ∧
    contains h R point (Some eps) = Ok true ∧
    ∀ R', R' ∈ before → contains h R' point (Some eps) = Ok false.
Proof.
  induction rs as [|r rs IH]; simpl.
  - split; [done|]. intros (before & after & Heq & _). by destruct before.
  - destruct (contains h r point (Some eps)) as [[|]|err] eqn:Hc; simpl.
    + split.
      * intros [= <-]. exists [], rs. split; [done|]. split; [done|]. by intros R' ?%elem_of_nil.
      * intros (before & after & Heq & HR & Hb). destruct before as [|b before].
        -- by injection Heq as ->.
        -- injection Heq as -> _. rewrite (Hb b) in Hc; [done|by left].
    + rewrite IH. split.
      * intros (before & after & -> & HR & Hb). exists (r :: before), after.
        split; [done|]. split; [done|]. intros R' [->|HR']%elem_of_cons; [done|by apply Hb].
      * intros (before & after & Heq & HR & Hb). destruct before as [|b before].
        -- injection Heq as -> _. congruence.
        -- injection Heq as -> ->. exists before, after. split; [done|]. split; [done|].
           intros R' HR'. apply Hb. by right.
    + split; [done|]. intros (before & after & Heq & HR & Hb). destruct before as [|b before].
      * injection Heq as -> _. congruence.
      * injection Heq as -> _. rewrite (Hb b) in Hc; [done|by left].
Qed.

Lemma getRegionForPoint_loop_None h rs point eps :
  getRegionForPoint_loop contains h rs point eps = Ok None ↔
  ∀ R, R ∈ rs → contains h R point (Some eps) = Ok false.
Proof.
  induction rs as [|r rs IH]; simpl.
  - split; [by intros _ R ?%elem_of_nil|done].
  - destruct (contains h r point (Some eps)) as [[|]|err] eqn:Hc; simpl.
    + split; [done|]. intros H. rewrite (H r) in Hc; [done|by left].
    + rewrite IH. split.
      * intros H R [->|HR]%elem_of_cons; [done|by apply H].
      * intros H R HR. apply H. by right.
    + split; [done|]. intros H. rewrite (H r) in Hc; [done|by left].
Qed.

(** X10: [getRegionForPoint] returns the first region of the mesh, in the
    order of the region set, whose [contains] answers true for the point and
    the epsilon (1e-3 when none is given), and null exactly when [contains]
    answers false for every region. *)
Theorem getRegionForPoint_first h nav point epsilon :
  let eps := default epsilon_default epsilon in
  (∀ R, getRegionForPoint contains h nav point epsilon = Ok (Some R) ↔
     ∃ before after, regions nav = before ++ R :: after ∧
       contains h R point (Some eps) = Ok true ∧
       ∀ R', R' ∈ before → contains h R' point (Some eps) = Ok false) ∧
  (getRegionForPoint contains h nav point epsilon = Ok None ↔
     ∀ R, R ∈ regions nav → contains h R point (Some eps) = Ok false).
Proof.
  intros eps. split.
  - intros R. apply getRegionForPoint_loop_Some.
  - apply getRegionForPoint_loop_None.
Qed.

(** ** The closest region and the closest node *)

Section Closest.
Hypothesis Hirr : lt_irrefl.
Hypothesis Htr : lt_trans.

Lemma lt_asym a b : num_lt a b = true → num_lt b a = false.
Proof.
  intros H. destruct (num_lt b a) eqn:Hba; [|done].
  rewrite <- (Hirr a). symmetry. by eapply Htr.
Qed.

Lemma getClosestRegion_loop_spec h rs point R0 m0 out :
  getClosestRegion_loop h rs point R0 m0 = Ok out →
  (out = R0 ∧ ∀ R c, R ∈ rs → rdPoly centroid h (Some R) = Ok c →
      num_lt (squaredDistanceTo point c) m0 = false) ∨
  (∃ R c, out = Some R ∧ R ∈ rs ∧ rdPoly centroid h (Some R) = Ok c ∧
     num_lt (squaredDistanceTo point c) m0 = true ∧
     ∀ R' c', R' ∈ rs → rdPoly centroid h (Some R') = Ok c' →
       num_lt (squaredDistanceTo point c') (squaredDistanceTo point c) = false).
Proof.
  revert R0 m0. induction rs as [|r rs IH]; intros R0 m0 H; simpl in H.
  - injection H as <-. left. split; [done|]. by intros R c ?%elem_of_nil.
  - destruct (rdPoly centroid h (Some r)) as [c|] eqn:Hc; simpl in H; [|done].
    destruct (num_lt (squaredDistanceTo point c) m0) eqn:Hlt.
    + right. destruct (IH _ _ H) as [[-> Hall]|(R & c1 & -> & HR & Hc1 & Hlt1 & Hall)].
      * exists r, c. split; [done|]. split; [by left|]. split; [done|]. split; [done|].
        intros R' c' [->|HR']%elem_of_cons Hc'; [|by eapply Hall].
        assert (c' = c) as -> by congruence. apply Hirr.
      * exists R, c1. split; [done|]. split; [by right|]. split; [done|].
        split; [by eapply Htr|].
        intros R' c' [->|HR']%elem_of_cons Hc'; [|by eapply Hall].
        assert (c' = c) as -> by congruence. by apply lt_asym.
    + destruct (IH _ _ H) as [[-> Hall]|(R & c1 & -> & HR & Hc1 & Hlt1 & Hall)].
      * left. split; [done|]. intros R c' [->|HR]%elem_of_cons Hc'; [|by eapply Hall].
        congruence.
      * right. exists R, c1. split; [done|]. split; [by right|]. split; [done|].
        split; [done|].
        intros R' c' [->|HR']%elem_of_cons Hc'; [|by eapply Hall].
        assert (c' = c) as -> by congruence.
        destruct (num_lt (squaredDistanceTo point c) (squaredDistanceTo point c1)) eqn:Hcc; [|done].
        rewrite <- Hlt. symmetry. by eapply Htr.
Qed.

(** X11: the region [getClosestRegion] returns is a region of the mesh whose
    centroid is at a finite squared distance from the point, and no region
    has its centroid closer; it returns null exactly when no centroid is at
    a finite distance, as in a mesh without regions. *)
Theorem getClosestRegion_closest h nav point out :
  getClosestRegion h nav point = Ok out →
  match out with
  | Some R =>
      R ∈ regions nav ∧
      ∃ c, rdPoly centroid h (Some R) = Ok c ∧
        num_lt (squaredDistanceTo point c) infinity = true ∧
        ∀ R' c', R' ∈ regions nav → rdPoly centroid h (Some R') = Ok c' →
          num_lt (squaredDistanceTo point c') (squaredDistanceTo point c) = false
  | None =>
      ∀ R c, R ∈ regions nav → rdPoly centroid h (Some R) = Ok c →
        num_lt (squaredDistanceTo point c) infinity = false
  end.
Proof.
  intros H. unfold getClosestRegion in H.
  destruct (getClosestRegion_loop_spec _ _ _ _ _ _ H)
    as [[-> Hall]|(R & c & -> & HR & Hc & Hlt & Hall)]; [done|].
  split; [done|]. by exists c.
Qed.

Lemma getClosestNodeIndex_loop_spec ns point i0 m0 :
  (getClosestNodeIndex_loop ns point i0 m0 = i0 ∧
   ∀ n, n ∈ ns → num_lt (squaredDistanceTo point (position n)) m0 = false) ∨
  (∃ n, n ∈ ns ∧ getClosestNodeIndex_loop ns point i0 m0 = index n ∧
     num_lt (squaredDistanceTo point (position n)) m0 = true ∧
     ∀ n', n' ∈ ns →
       num_lt (squaredDistanceTo point (position n'))
              (squaredDistanceTo point (position n)) = false).
Proof.
  revert i0 m0. induction ns as [|x ns IH]; intros i0 m0; simpl.
  - left. split; [done|]. by intros n ?%elem_of_nil.
  - destruct (num_lt (squaredDistanceTo point (position x)) m0) eqn:Hlt.
    + right. destruct (IH (index x) (squaredDistanceTo point (position x)))
        as [[-> Hall]|(n & Hn & -> & Hlt1 & Hall)].
      * exists x. split; [by left|]. split; [done|]. split; [done|].
        intros n' [->|Hn']%elem_of_cons; [apply Hirr|by apply Hall].
      * exists n. split; [by right|]. split; [done|]. split; [by eapply Htr|].
        intros n' [->|Hn']%elem_of_cons; [by apply lt_asym|by apply Hall].
    + destruct (IH i0 m0) as [[-> Hall]|(n & Hn & -> & Hlt1 & Hall)].
      * left. split; [done|]. intros n [->|Hn]%elem_of_cons; [done|by apply Hall].
      * right. exists n. split; [by right|]. split; [done|]. split; [done|].
        intros n' [->|Hn']%elem_of_cons; [|by apply Hall].
        destruct (num_lt (squaredDistanceTo point (position x))
                    (squaredDistanceTo point (position n))) eqn:Hcc; [|done].
        rewrite <- Hlt. symmetry. by eapply Htr.
Qed.

(** X12: [getClosestNodeIndex] returns the index of a node of the graph at a
    finite squared distance from the point such that no node is closer, or
    null when no node of the graph is at a finite distance. *)
Theorem getClosestNodeIndex_closest nav point :
  (getClosestNodeIndex nav point = None ∧
   ∀ n, n ∈ nodes (graph nav) →
     num_lt (squaredDistanceTo point (position n)) infinity = false) ∨
  (∃ n, n ∈ nodes (graph nav) ∧ getClosestNodeIndex nav point = index n ∧
     num_lt (squaredDistanceTo point (position n)) infinity = true ∧
     ∀ n', n' ∈ nodes (graph nav) →
       num_lt (squaredDistanceTo point (position n'))
              (squaredDistanceTo point (position n)) = false).
Proof. apply getClosestNodeIndex_loop_spec. Qed.

End Closest.

(** ** [getClosestNodeIndexInRegion] *)

(** The index the loop takes at the edge [e]: the node index of [e] when it
    has a twin, and else the node index of the twin of its predecessor. *)
Definition indexAt (h : Heap) (e : option ref) (i : Idx) : Prop :=
  (∃ t, rd twin h e = Ok (Some t) ∧ rd nodeIndex h e = Ok i) ∨
  (rd twin h e = Ok None ∧
   ∃ p t, rd prev h e = Ok p ∧ rd twin h p = Ok (Some t) ∧ rd nodeIndex h (Some t) = Ok i).

Lemma closestNodeInRegion_body_spec h point target e s s' :
  closestNodeInRegion_body h point target e s = Ok s' →
  s' = s ∨ indexAt h e s'.1.
Proof.
  unfold closestNodeInRegion_body. intros H. inv_bind H.
  destruct a0; [|injection H as <-; by left].
  inv_bind H. destruct (num_lt a1 s.2); [|injection H as <-; by left].
  inv_bind H. injection H as <-. right. simpl.
  destruct a as [t|].
  - left. by exists t.
  - right. split; [done|]. simpl in E0. inv_bind E0. injection E0 as Hb. inv_bind E3.
    repeat match goal with
    | H1 : ?x = Ok ?u, H2 : ?x = Ok ?v |- _ =>
        assert (v = u) as -> by congruence; clear H2
    end.
    match goal with
    | Hp : rd prev h e = Ok ?p, Ht : rd twin h ?p = Ok ?t |- _ =>
        exists p; destruct t as [t|]; [by exists t|]
    end.
    apply bool_decide_eq_true in Hb. done.
Qed.

(** X16: the index [getClosestNodeIndexInRegion] returns is null, or it is
    the index taken at an edge of the boundary of the region: the node index
    of an edge that has a twin, or the node index of the twin of the
    predecessor of an edge that has none.  A region none of whose edges has
    a twin gives null. *)
Theorem getClosestNodeIndexInRegion_source fuel h point region target i :
  getClosestNodeIndexInRegion fuel h point (Some region) target = Ok i →
  i = None ∨ ∃ e, boundary h region e ∧ indexAt h e i.
Proof.
  intros H. unfold getClosestNodeIndexInRegion in H. inv_bind H. injection H as <-.
  destruct (doWhile_const _ _ _ _ _ _ _ E0) as (start & l & Hs & Hc & Hf).
  assert (start = a) as -> by congruence.
  apply (foldM_inv (closestNodeInRegion_body h point target)
           (λ s : Idx * Num, s.1 = None ∨ ∃ e, boundary h region e ∧ indexAt h e s.1)
           (a :: l) (None, infinity) a0); [|by left|done].
  intros e s s1 He Hs' Hb.
  destruct (closestNodeInRegion_body_spec _ _ _ _ _ _ Hb) as [->|Hi]; [done|].
  right. exists e. split; [|done]. exists a. split; [done|].
  by eapply chain_elem_onCycle.
Qed.

(** ** [findPath] *)

(** The node at an index of the route lies in the region. *)
Definition nodeInside (h : Heap) (g : Graph) (region : option pref) (ix : Idx) : Prop :=
  ∃ node, getNode g ix = Ok node ∧
          callContains contains h region (position node) None = Ok true.

Lemma firstOutside_spec h g region sp i o :
  firstOutside contains h g region sp i = Ok o →
  match o with
  | Some k => i ≤ k < i + length sp ∧ ∀ ix, ix ∈ take (k - i) sp → nodeInside h g region ix
  | None => ∀ ix, ix ∈ sp → nodeInside h g region ix
  end.
Proof.
  revert i. induction sp as [|x sp IH]; intros i H; simpl in H.
  - injection H as <-. by intros ix ?%elem_of_nil.
  - inv_bind H. destruct a0; simpl in H.
    + specialize (IH _ H). destruct o as [k|].
      * destruct IH as [Hk Hin]. split; [simpl; lia|].
        replace (k - i) with (S (k - S i)) by lia. simpl.
        intros ix [->|Hix]%elem_of_cons; [by exists a|by apply Hin].
      * intros ix [->|Hix]%elem_of_cons; [by exists a|by apply IH].
    + injection H as <-. split; [simpl; lia|]. rewrite Nat.sub_diag. simpl.
      by intros ix ?%elem_of_nil.
Qed.

(** X13: the smoothing of [findPath] cuts a route at its front only: what
    it returns is an end of the route, not empty unless the route is, and
    the nodes it cuts off lie in the region. *)
Theorem smooth_cuts_front h g region sp sp' :
  smooth contains h g region sp = Ok sp' →
  ∃ front, sp = front ++ sp' ∧ (sp ≠ [] → sp' ≠ []) ∧
           ∀ ix, ix ∈ front → nodeInside h g region ix.
Proof.
  intros H. unfold smooth in H. inv_bind H. injection H as <-.
  pose proof (firstOutside_spec _ _ _ _ _ _ E) as Hspec.
  set (count := default (length sp) a) in *.
  exists (take (count - 1) sp). split; [by rewrite take_drop|]. split.
  - intros Hne Hd. apply (f_equal length) in Hd. rewrite length_drop in Hd. simpl in Hd.
    assert (0 < length sp) by (destruct sp; [done|simpl; lia]).
    assert (count ≤ length sp); [|lia].
    subst count. destruct a as [k|]; simpl; [|lia]. destruct Hspec as [? _]. lia.
  - intros ix Hix. subst count. destruct a as [k|]; simpl in *.
    + destruct Hspec as [Hk Hin]. apply Hin.
      apply elem_of_take in Hix as (j & Hj & Hlt). apply elem_of_take. exists j.
      split; [done|lia].
    + apply Hspec. apply elem_of_take in Hix as (j & Hj & _).
      by eapply list_elem_of_lookup_2.
Qed.

(** X14: a path [findPath] returns is what the two regions, the two chosen
    nodes and the search give.  Both points are resolved: to the region
    [getRegionForPoint] finds or else to the closest one, which is null in a
    mesh without regions.  When the two results are the same the path is the
    two points.  When they are not, with the source and the target that
    [getClosestNodeIndexInRegion] chooses in the one and in the other, the
    path is empty when the search finds no route.  When it
    finds a route, the path is the first point, the positions of a stretch
    of the route and the second point; the stretch is what the two
    smoothings leave, the nodes of the route before it lie in the region of
    the first point and those after it in the region of the second, and it
    is not empty unless the route is. *)
Theorem findPath_shape fuel h nav p1 p2 path :
  findPath contains astar fuel h nav p1 p2 = Ok path →
  ∃ r1 r2,
    resolveRegion contains h nav p1 = Ok r1 ∧
    resolveRegion contains h nav p2 = Ok r2 ∧
    if decide (r1 = r2) then path = [p1; p2] else
    ∃ source target,
      getClosestNodeIndexInRegion fuel h p1 r1 (Some p2) = Ok source ∧
      getClosestNodeIndexInRegion fuel h p2 r2 (Some p1) = Ok target ∧
      match astar (graph nav) source target with
      | None => path = []
      | Some route =>
          ∃ front stretch back mid,
            route = front ++ stretch ++ back ∧
            smooth contains h (graph nav) r1 route = Ok (stretch ++ back) ∧
            smooth contains h (graph nav) r2 (reverse (stretch ++ back))
              = Ok (reverse stretch) ∧
            (∀ ix, ix ∈ front → nodeInside h (graph nav) r1 ix) ∧
            (∀ ix, ix ∈ back → nodeInside h (graph nav) r2 ix) ∧
            (route ≠ [] → stretch ≠ []) ∧
            positionsOf (graph nav) stretch = Ok mid ∧
            path = p1 :: mid ++ [p2]
      end.
Proof.
  intros H.
  assert (Hres : ∃ r1 r2, resolveRegion contains h nav p1 = Ok r1 ∧
                          resolveRegion contains h nav p2 = Ok r2).
  { unfold findPath in H. inv_bind H. exists a1, a2. unfold resolveRegion.
    rewrite E, E0. simpl. done. }
  destruct Hres as (r1 & r2 & H1 & H2). exists r1, r2. split; [done|]. split; [done|].
  rewrite (findPath_resolved contains astar _ _ _ _ _ _ _ H1 H2) in H.
  destruct (decide (r1 = r2)); [by injection H as <-|].
  inv_bind H. exists a, a0. split; [done|]. split; [done|].
  destruct (astar (graph nav) a a0) as [route|]; [|by injection H as <-].
  inv_bind H. injection H as <-.
  destruct (smooth_cuts_front _ _ _ _ _ E1) as (front & Hr & Hne & Hin).
  destruct (smooth_cuts_front _ _ _ _ _ E2) as (front2 & Hr2 & Hne2 & Hin2).
  assert (Ha1 : a1 = reverse a2 ++ reverse front2)
    by (by rewrite <- reverse_app, <- Hr2, reverse_involutive).
  exists front, (reverse a2), (reverse front2), a3.
  split; [by rewrite <- Ha1|]. split; [by rewrite <- Ha1|].
  split; [by rewrite <- Ha1, reverse_involutive|]. split; [done|].
  split; [intros ix Hix; by apply Hin2, elem_of_reverse|]. split; [|done].
  intros Hroute Hrev. apply Hne2.
  - intros Hnil. apply (f_equal reverse) in Hnil. rewrite reverse_involutive in Hnil.
    by apply Hne.
  - apply (f_equal reverse) in Hrev. by rewrite reverse_involutive in Hrev.
Qed.

(** ** [clampMovement] *)

(** The edge the three branches choose is the closest edge or the edge
    before it, and it has no twin. *)
Lemma chooseSegment_border h sc startPosition closestEdge e t sc1 :
  chooseSegment h sc startPosition closestEdge = Ok (Some (e, t), sc1) →
  rd twin h e = Ok None ∧ (e = closestEdge ∨ rd prev h closestEdge = Ok e).
Proof.
  unfold chooseSegment. intros H.
  destruct (rd twin h closestEdge) as [[tw|]|] eqn:E1; simpl in H; [| |done].
  - destruct (rd prev h closestEdge) as [p|] eqn:E2; simpl in H; [|done].
    destruct (rd twin h p) as [[ptw|]|] eqn:E3; simpl in H; [done| |done].
    inv_bind H. injection H as <- <- <-. split; [done|by right].
  - destruct (rd prev h closestEdge) as [p|] eqn:E2; simpl in H; [|done].
    destruct (rd twin h p) as [[ptw|]|] eqn:E3; simpl in H; [| |done].
    + inv_bind H. injection H as <- <- <-. split; [done|by left].
    + inv_bind H.
      match type of H with (if ?b then _ else _) = _ => destruct b end;
        injection H as <- <- <-; (split; [done|]); [by right|by left].
Qed.

(** The position [clampMovement] slides to along the edge from [ev] to
    [env]: the point at [t] on the edge, moved in the direction of the edge
    by the part of the movement that goes along it. *)
Definition slideTo (ev env : Vector3) (t : Num) (startPosition endPosition : Vector3)
    : Vector3 :=
  let edgeDirection := normalize (subVectors env ev) in
  let movementDirection := subVectors endPosition startPosition in
  let length := vec_length movementDirection in
  let f := dot edgeDirection (divideScalar movementDirection length) in
  addVectors (segment_at (ev, env) t) (multiplyScalar edgeDirection (num_mul f length)).

(** X15: when the end of the move lies in no region, [clampMovement] throws
    if there is no current region.  If it returns, it returns the current
    region, and the clamped position is fixed by the edge [e] the three
    branches choose at the edge of the region that starts closest to the
    start position: [e] is that edge or the one before it and has no twin,
    and the new position is the point at the chosen parameter on [e] moved
    along [e] by the part of the movement that goes along it.  The clamped
    position is the new position when its parameter on [e] is between 0 and
    1 or it lies in a region, and the start position when neither holds. *)
Theorem clampMovement_off_mesh fuel h nav sc currentRegion startPosition endPosition
    clampPosition :
  getRegionForPoint contains h nav endPosition None = Ok None →
  (currentRegion = None →
     clampMovement contains fuel h nav sc currentRegion startPosition endPosition clampPosition
       = Err NoCurrentRegion) ∧
  ∀ r pos sc',
    clampMovement contains fuel h nav sc currentRegion startPosition endPosition clampPosition
      = Ok (r, pos, sc') →
    r = currentRegion ∧ currentRegion ≠ None ∧
    ∃ closestEdge e t sc1 ev en env,
      closestEdgeOf fuel h currentRegion startPosition = Ok closestEdge ∧
      chooseSegment h sc startPosition closestEdge = Ok (Some (e, t), sc1) ∧
      rd twin h e = Ok None ∧
      (e = closestEdge ∨ rd prev h closestEdge = Ok e) ∧
      rd vertex h e = Ok ev ∧ rd next h e = Ok en ∧ rd vertex h en = Ok env ∧
      let np := slideTo ev env t startPosition endPosition in
      let t' := closestPointToPointParameter (ev, env) np in
      newPosition sc' = np ∧
      if num_le num_zero t' && num_le t' num_one then pos = np
      else ∃ r', getRegionForPoint contains h nav np None = Ok r' ∧
                 pos = if decide (r' ≠ None) then np else startPosition.
Proof.
  intros Hoff. unfold clampMovement. rewrite Hoff. simpl. split.
  - intros ->. done.
  - intros r pos sc' H. destruct (decide (currentRegion = None)) as [|Hcur]; [done|].
    inv_bind H. destruct a0 as [sel sc1]. inv_bind H.
    destruct sel as [[e t]|]; [|done].
    destruct (chooseSegment_border _ _ _ _ _ _ _ E0) as [Htw He].
    assert (a3 = a2) as -> by congruence.
    assert (a4 = a0) as -> by congruence.
    assert (a5 = a1) as -> by congruence.
    unfold slideTo.
    match type of H with (if ?b then _ else _) = _ => destruct b eqn:Hin end.
    + injection H as <- <- <-. split; [done|]. split; [done|].
      exists a, e, t, sc1, a2, a0, a1. repeat (split; [done|]). simpl. rewrite Hin. done.
    + inv_bind H.
      match type of H with (if decide (?x ≠ None) then _ else _) = _ =>
        destruct (decide (x ≠ None)) as [Hx|Hx] end;
        injection H as <- <- <-; (split; [done|]); (split; [done|]);
        exists a, e, t, sc1, a2, a0, a1; repeat (split; [done|]); simpl; rewrite Hin;
        eexists; (split; [eassumption|]).
      * by rewrite decide_True.
      * by rewrite decide_False.
Qed.

End QueryResults.

(** * The properties on the example meshes *)

Section MeshExamples.

#[local] Existing Instance Rat.geometry.
Import Examples.

(** ** The rational geometry *)

Lemma veq_sym : equals_sym.
Proof.
  intros a b. simpl. unfold Rat.veq. rewrite !andb_true_iff, !Qeq_bool_iff.
  intros [[H1 H2] H3]. by rewrite H1, H2, H3.
Qed.

Lemma veq_trans : equals_trans.
Proof.
  intros a b c. simpl. unfold Rat.veq. rewrite !andb_true_iff, !Qeq_bool_iff.
  intros [[H1 H2] H3] [[K1 K2] K3]. by rewrite H1, H2, H3, K1, K2, K3.
Qed.

Lemma rat_lt_irrefl : lt_irrefl.
Proof.
  intros [x|]; simpl; [|done]. apply negb_false_iff, Qle_bool_iff, Qle_refl.
Qed.

Lemma rat_lt_trans : lt_trans.
Proof.
  intros [x|] [y|] [z|]; simpl; try done.
  rewrite !negb_true_iff. intros H1 H2.
  destruct (Qle_bool z x) eqn:H3; [|done]. exfalso.
  apply Qle_bool_iff in H3.
  assert (Hxy : (x < y)%Q).
  { apply Qnot_le_lt. intros Hle. apply Qle_bool_iff in Hle. congruence. }
  assert (Hzy : (z <= y)%Q) by (eapply Qle_trans; [exact H3|by apply Qlt_le_weak]).
  apply Qle_bool_iff in Hzy. congruence.
Qed.

(** ** The meshes are well formed *)

Ltac each_edge H :=
  repeat (apply elem_of_cons in H as [->|H]); [..|by apply elem_of_nil in H].

Ltac read_fields :=
  repeat match goal with
  | H : rd _ _ _ = Ok _ |- _ => vm_compute in H; injection H as <-
  | H : edge_from _ _ = Ok _ |- _ => vm_compute in H; injection H as <-
  | H : edge_to _ _ = Ok _ |- _ => vm_compute in H; injection H as <-
  end.

Ltac contour_ok e0 :=
  split; [vm_compute; repeat split; reflexivity|];
  split; [simpl; lia|];
  split; [exists e0; split; [by left|vm_compute; reflexivity]|];
  let e := fresh "e" in let He := fresh "He" in
  intros e He; each_edge He; vm_compute; reflexivity.

Ltac well_formed_ok Hcontours Hinput :=
  split;
  [ apply (bool_decide_unpack _); vm_compute; exact I
  | exact Hcontours
  | apply (bool_decide_unpack _); vm_compute; exact I
  | let e := fresh "e" in let He := fresh "He" in
    intros e He; vm_compute in He; each_edge He;
    intros f t Hf Ht; read_fields; vm_compute; reflexivity
  | let Hr := fresh "Hr" in let Ht := fresh "Ht" in
    intros e t (r & -> & Hr)%Hinput Ht; exfalso;
    vm_compute in Hr; each_edge Hr; vm_compute in Ht; discriminate Ht
  | let Hr := fresh "Hr" in let Hr' := fresh "Hr" in let Hne := fresh "Hne" in
    let H1 := fresh "H" in let H2 := fresh "H" in let H3 := fresh "H" in
    let H4 := fresh "H" in let H5 := fresh "H" in let H6 := fresh "H" in
    intros r r' (? & [= <-] & Hr)%Hinput (? & [= <-] & Hr')%Hinput Hne
      (f & f' & t & t' & H1 & H2 & H3 & H4 & H5 & H6);
    vm_compute in Hr, Hr'; each_edge Hr; each_edge Hr';
    try (exfalso; apply Hne; reflexivity);
    vm_compute in H1, H2, H4, H5;
    injection H1 as <-; injection H2 as <-; injection H4 as <-; injection H5 as <-;
    vm_compute in H3, H6; first [discriminate H3|discriminate H6] ].

Lemma rectangle_contours :
  Forall2 (contour rectangle) [0; 1] [[0; 1; 2; 3]; [4; 5; 6; 7]].
Proof.
  constructor; [contour_ok 0|].
  constructor; [contour_ok 4|]. constructor.
Qed.

Lemma rectangle_inputEdge x :
  inputEdge rectangle [0; 1] x ↔ ∃ r, x = Some r ∧ r ∈ concat [[0; 1; 2; 3]; [4; 5; 6; 7]].
Proof.
  apply contours_inputEdge; [exact rectangle_contours|].
  apply (bool_decide_unpack _). vm_compute. exact I.
Qed.

Lemma rectangle_well_formed :
  well_formed rectangle [0; 1] [[0; 1; 2; 3]; [4; 5; 6; 7]].
Proof. well_formed_ok rectangle_contours rectangle_inputEdge. Qed.

Lemma corner_contours :
  Forall2 (contour corner) [0; 1; 2] [[0; 1; 2; 3]; [4; 5; 6; 7]; [8; 9; 10; 11]].
Proof.
  constructor; [contour_ok 0|].
  constructor; [contour_ok 4|].
  constructor; [contour_ok 8|]. constructor.
Qed.

Lemma corner_inputEdge x :
  inputEdge corner [0; 1; 2] x ↔
  ∃ r, x = Some r ∧ r ∈ concat [[0; 1; 2; 3]; [4; 5; 6; 7]; [8; 9; 10; 11]].
Proof.
  apply contours_inputEdge; [exact corner_contours|].
  apply (bool_decide_unpack _). vm_compute. exact I.
Qed.

Lemma corner_well_formed :
  well_formed corner [0; 1; 2] [[0; 1; 2; 3]; [4; 5; 6; 7]; [8; 9; 10; 11]].
Proof. well_formed_ok corner_contours corner_inputEdge. Qed.

(** ** The meshes built *)

Let rect := build rectangle [0; 1].
Let crn := build corner [0; 1; 2].

Lemma rectangle_built :
  fromPolygons 64 rectangle emptyNavMesh [0; 1] = Ok (heapOf rect, navOf rect).
Proof. apply built_ok. vm_compute. reflexivity. Qed.

(** On the corner mesh the edges 1 and 8 are twins of each other. *)
Lemma fromPolygons_twins_symmetric_witness :
  inputEdge corner [0; 1; 2] (Some 1) ∧
  rd twin (heapOf crn) (Some 1) = Ok (Some 8) ∧
  rd twin (heapOf crn) (Some 8) = Ok (Some 1) ∧ inputEdge corner [0; 1; 2] (Some 8).
Proof.
  assert (H1 : inputEdge corner [0; 1; 2] (Some 1)).
  { apply corner_inputEdge. exists 1. split; [reflexivity|]. vm_compute. right. left. }
  assert (H2 : rd twin (heapOf crn) (Some 1) = Ok (Some 8)) by (vm_compute; reflexivity).
  split; [exact H1|]. split; [exact H2|].
  exact (fromPolygons_twins_symmetric 64 corner emptyNavMesh [0; 1; 2] _ _ 1 8
           veq_sym veq_trans (wf_twins _ _ _ corner_well_formed)
           (wf_manifold _ _ _ corner_well_formed) corner_built H1 H2).
Defined.

(** The two squares of the rectangle are merged; the region left is convex. *)
Lemma fromPolygons_regions_convex_witness :
  regions (navOf rect) = [0] ∧ convex 64 (heapOf rect) (Some 0) = Ok true.
Proof.
  split; [vm_compute; reflexivity|].
  apply (fromPolygons_regions_convex 64 rectangle emptyNavMesh [0; 1]
           [[0; 1; 2; 3]; [4; 5; 6; 7]] (heapOf rect) (navOf rect) 0
           veq_sym veq_trans rectangle_well_formed).
  - intros P HP. each_edge HP; vm_compute; reflexivity.
  - exact rectangle_built.
  - vm_compute. left.
Defined.

(** On the corner mesh the edges 2 and 8 start at (1, 1), one on the square
    and one on the quadrilateral above it; both have the node index 0. *)
Lemma fromPolygons_node_indices_witness :
  rd nodeIndex (heapOf crn) (Some 2) = Ok (Some 0%Z) ∧
  rd nodeIndex (heapOf crn) (Some 2) = rd nodeIndex (heapOf crn) (Some 8).
Proof.
  split; [vm_compute; reflexivity|].
  destruct (fromPolygons_node_indices 64 corner emptyNavMesh [0; 1; 2]
              [[0; 1; 2; 3]; [4; 5; 6; 7]; [8; 9; 10; 11]] (heapOf crn) (navOf crn)
              veq_sym veq_trans corner_well_formed corner_built) as (m & _ & _ & Hsame).
  apply (Hsame 0 2 2 8 4 1 (pt 1 1) (pt 1 1)).
  - vm_compute. left.
  - vm_compute. right. right. left.
  - exists (Some 2). split; [vm_compute; reflexivity|constructor].
  - exists (Some 8). split; [vm_compute; reflexivity|constructor].
  - vm_compute. reflexivity.
  - vm_compute. reflexivity.
  - vm_compute. reflexivity.
  - vm_compute. reflexivity.
  - vm_compute. reflexivity.
Defined.

Lemma fromPolygons_regions_input_witness :
  NoDup (regions (navOf rect)) ∧ ∀ region, region ∈ regions (navOf rect) → region ∈ [0; 1].
Proof. exact (fromPolygons_regions_input 64 rectangle emptyNavMesh [0; 1] _ _ rectangle_built). Defined.

Lemma fromPolygons_keeps_vertices_witness :
  fromPolygons 64 rectangle emptyNavMesh [0; 1] = Ok (heapOf rect, navOf rect) ∧
  ∀ r, rd vertex (heapOf rect) r = rd vertex rectangle r.
Proof.
  split; [exact rectangle_built|].
  exact (fromPolygons_keeps_vertices 64 rectangle emptyNavMesh [0; 1] _ _ rectangle_built).
Defined.

(** The twin 8 of the edge 1 of the corner mesh was found by the search. *)
Lemma fromPolygons_twins_found_witness :
  rd twin (heapOf crn) (Some 1) = Ok (Some 8) ∧
  (rd twin corner (Some 1) = Ok (Some 8) ∨
   (inputEdge corner [0; 1; 2] (Some 1) ∧ inputEdge corner [0; 1; 2] (Some 8) ∧
    (rev corner (Some 1) (Some 8) ∨ rev corner (Some 8) (Some 1)))).
Proof.
  assert (H : rd twin (heapOf crn) (Some 1) = Ok (Some 8)) by (vm_compute; reflexivity).
  split; [exact H|].
  exact (fromPolygons_twins_found 64 corner emptyNavMesh [0; 1; 2] _ _ 1 8 corner_built H).
Defined.

Definition chevronIndexed : Heap := get emptyHeap (_buildNodeIndices 64 chevronLinked [0; 1]).

Lemma _buildNodeIndices_writes_indices_only_witness :
  rd nodeIndex chevronIndexed (Some 1) = Ok (Some 0%Z) ∧
  hpolys chevronIndexed = hpolys chevronLinked ∧
  ∀ r, rd next chevronIndexed r = rd next chevronLinked r ∧
       rd prev chevronIndexed r = rd prev chevronLinked r ∧
       rd polygon chevronIndexed r = rd polygon chevronLinked r ∧
       rd twin chevronIndexed r = rd twin chevronLinked r ∧
       rd vertex chevronIndexed r = rd vertex chevronLinked r.
Proof.
  split; [vm_compute; reflexivity|].
  apply (_buildNodeIndices_writes_indices_only 64 chevronLinked [0; 1]).
  apply get_ok. vm_compute. reflexivity.
Defined.

Lemma fromPolygons_graph_simple_witness :
  length (edges (graph (navOf crn))) = 6 ∧
  NoDup (index <$> nodes (graph (navOf crn))) ∧
  NoDup (ends <$> edges (graph (navOf crn))) ∧
  ∀ e, e ∈ edges (graph (navOf crn)) →
    from e ≠ to e ∧ hasNode (graph (navOf crn)) (from e) = true ∧
    hasNode (graph (navOf crn)) (to e) = true.
Proof.
  split; [vm_compute; reflexivity|].
  exact (fromPolygons_graph_simple 64 corner emptyNavMesh [0; 1; 2] _ _ eq_refl corner_built).
Defined.

(** The graph of the corner mesh has three nodes and six edges, all of them
    from its three regions. *)
Lemma fromPolygons_graph_sourced_witness :
  length (nodes (graph (navOf crn))) = 3 ∧
  (∀ n, n ∈ nodes (graph (navOf crn)) →
     ∃ region, region ∈ regions (navOf crn) ∧ nodeOf (heapOf crn) region n) ∧
  (∀ e, e ∈ edges (graph (navOf crn)) →
     (∃ region, region ∈ regions (navOf crn) ∧
        exposes (heapOf crn) region (from e) ∧ exposes (heapOf crn) region (to e)) ∧
     costOf (graph (navOf crn)) e).
Proof.
  split; [vm_compute; reflexivity|].
  exact (fromPolygons_graph_sourced 64 corner emptyNavMesh [0; 1; 2] _ _ eq_refl corner_built).
Defined.

(** The splice of the two triangles of the chevron at the edge 1, whose twin
    is the edge 3: the one cycle is 2, 0, 4, 5. *)
Lemma trial_joins_cycles_witness :
  cyc_list chevronTrial.1 ([2; 0] ++ [4; 5]) ∧
  ∃ A p, Some 0 = Some A ∧ rd polygon chevronLinked (Some 1) = Ok (Some A) ∧
         last [2; 0] = Some p ∧ rdPoly edge chevronTrial.1 (Some A) = Ok (Some p).
Proof.
  apply (trial_joins_cycles chevronLinked 1 3 [2; 0] [4; 5] chevronTrial.1 (Some 0)).
  - vm_compute. reflexivity.
  - vm_compute. repeat split; reflexivity.
  - vm_compute. repeat split; reflexivity.
  - apply (bool_decide_unpack _). vm_compute. exact I.
  - discriminate.
  - discriminate.
  - exact chevron_trial.
Defined.

(** ** The queries on the corner mesh *)

(** Far off the mesh, at (5, 5), the quadrilateral on the right has the
    closest centroid. *)
Lemma getClosestRegion_closest_witness :
  getClosestRegion (heapOf crn) (navOf crn) (ptQ 5 5) = Ok (Some 1) ∧
  1 ∈ regions (navOf crn) ∧
  ∃ c, rdPoly centroid (heapOf crn) (Some 1) = Ok c ∧
    num_lt (squaredDistanceTo (ptQ 5 5) c) infinity = true ∧
    ∀ R' c', R' ∈ regions (navOf crn) → rdPoly centroid (heapOf crn) (Some R') = Ok c' →
      num_lt (squaredDistanceTo (ptQ 5 5) c') (squaredDistanceTo (ptQ 5 5) c) = false.
Proof.
  assert (H : getClosestRegion (heapOf crn) (navOf crn) (ptQ 5 5) = Ok (Some 1))
    by (vm_compute; reflexivity).
  split; [exact H|].
  exact (getClosestRegion_closest rat_lt_irrefl rat_lt_trans _ _ _ (Some 1) H).
Defined.

Lemma getClosestNodeIndex_closest_witness :
  getClosestNodeIndex (navOf crn) (ptQ 5 5) = Some 0%Z ∧
  ((getClosestNodeIndex (navOf crn) (ptQ 5 5) = None ∧
    ∀ n, n ∈ nodes (graph (navOf crn)) →
      num_lt (squaredDistanceTo (ptQ 5 5) (position n)) infinity = false) ∨
   (∃ n, n ∈ nodes (graph (navOf crn)) ∧ getClosestNodeIndex (navOf crn) (ptQ 5 5) = index n ∧
      num_lt (squaredDistanceTo (ptQ 5 5) (position n)) infinity = true ∧
      ∀ n', n' ∈ nodes (graph (navOf crn)) →
        num_lt (squaredDistanceTo (ptQ 5 5) (position n'))
               (squaredDistanceTo (ptQ 5 5) (position n)) = false)).
Proof.
  split; [vm_compute; reflexivity|].
  exact (getClosestNodeIndex_closest rat_lt_irrefl rat_lt_trans (navOf crn) (ptQ 5 5)).
Defined.

(** The route 0, 1, 2 seen from the square: the nodes 0 and 1 lie in it and
    the node 2 is the last one in it, so 0 and 1 are cut off. *)
Lemma smooth_cuts_front_witness :
  smooth containsXZ (heapOf crn) (graph (navOf crn)) (Some 0) [Some 0%Z; Some 1%Z; Some 2%Z]
    = Ok [Some 2%Z] ∧
  ∃ front, [Some 0%Z; Some 1%Z; Some 2%Z] = front ++ [Some 2%Z] ∧
    ([Some 0%Z; Some 1%Z; Some 2%Z] ≠ [] → [Some 2%Z] ≠ []) ∧
    ∀ ix, ix ∈ front → nodeInside containsXZ (heapOf crn) (graph (navOf crn)) (Some 0) ix.
Proof.
  assert (H : smooth containsXZ (heapOf crn) (graph (navOf crn)) (Some 0)
                [Some 0%Z; Some 1%Z; Some 2%Z] = Ok [Some 2%Z]) by (vm_compute; reflexivity).
  split; [exact H|].
  exact (smooth_cuts_front containsXZ _ _ _ _ _ H).
Defined.

(** From the square to the quadrilateral on its right: the nodes 0, at
    (1, 1), and 2, at (1, 0), are chosen, and the path goes by the node at
    (1, 0). *)
Lemma findPath_shape_witness :
  findPath containsXZ search 64 (heapOf crn) (navOf crn) (ptQ (1#2) (1#2)) (ptQ 2 (1#2))
    = Ok [ptQ (1#2) (1#2); pt 1 0; ptQ 2 (1#2)] ∧
  resolveRegion containsXZ (heapOf crn) (navOf crn) (ptQ (1#2) (1#2)) = Ok (Some 0) ∧
  resolveRegion containsXZ (heapOf crn) (navOf crn) (ptQ 2 (1#2)) = Ok (Some 1) ∧
  search (graph (navOf crn)) (Some 0%Z) (Some 2%Z) = Some [Some 0%Z; Some 2%Z] ∧
  ∃ r1 r2,
    resolveRegion containsXZ (heapOf crn) (navOf crn) (ptQ (1#2) (1#2)) = Ok r1 ∧
    resolveRegion containsXZ (heapOf crn) (navOf crn) (ptQ 2 (1#2)) = Ok r2 ∧
    if decide (r1 = r2)
    then [ptQ (1#2) (1#2); pt 1 0; ptQ 2 (1#2)] = [ptQ (1#2) (1#2); ptQ 2 (1#2)] else
    ∃ source target,
      getClosestNodeIndexInRegion 64 (heapOf crn) (ptQ (1#2) (1#2)) r1 (Some (ptQ 2 (1#2)))
        = Ok source ∧
      getClosestNodeIndexInRegion 64 (heapOf crn) (ptQ 2 (1#2)) r2 (Some (ptQ (1#2) (1#2)))
        = Ok target ∧
      match search (graph (navOf crn)) source target with
      | None => [ptQ (1#2) (1#2); pt 1 0; ptQ 2 (1#2)] = []
      | Some route =>
          ∃ front stretch back mid,
            route = front ++ stretch ++ back ∧
            smooth containsXZ (heapOf crn) (graph (navOf crn)) r1 route
              = Ok (stretch ++ back) ∧
            smooth containsXZ (heapOf crn) (graph (navOf crn)) r2 (reverse (stretch ++ back))
              = Ok (reverse stretch) ∧
            (∀ ix, ix ∈ front → nodeInside containsXZ (heapOf crn) (graph (navOf crn)) r1 ix) ∧
            (∀ ix, ix ∈ back → nodeInside containsXZ (heapOf crn) (graph (navOf crn)) r2 ix) ∧
            (route ≠ [] → stretch ≠ []) ∧
            positionsOf (graph (navOf crn)) stretch = Ok mid ∧
            [ptQ (1#2) (1#2); pt 1 0; ptQ 2 (1#2)] = ptQ (1#2) (1#2) :: mid ++ [ptQ 2 (1#2)]
      end.
Proof.
  assert (H : findPath containsXZ search 64 (heapOf crn) (navOf crn) (ptQ (1#2) (1#2))
                (ptQ 2 (1#2)) = Ok [ptQ (1#2) (1#2); pt 1 0; ptQ 2 (1#2)])
    by (vm_compute; reflexivity).
  split; [exact H|]. split; [vm_compute; reflexivity|]. split; [vm_compute; reflexivity|].
  split; [vm_compute; reflexivity|].
  exact (findPath_shape containsXZ search 64 _ _ _ _ _ H).
Defined.

(** A step from (1/2, 1/2) in the rectangle to (1/2, 3/2), above it: the
    call slides along the left edge to (0, 3/2). *)
Lemma clampMovement_off_mesh_witness :
  getRegionForPoint containsXZ (heapOf rect) (navOf rect) (ptQ (1#2) (3#2)) None = Ok None ∧
  match clampMovement containsXZ 64 (heapOf rect) (navOf rect) scratch0 (Some 0)
          (ptQ (1#2) (1#2)) (ptQ (1#2) (3#2)) (pt 7 7) with
  | Ok (r, pos, _) => Some (r, pos)
  | Err _ => None
  end = Some (Some 0, ptQ 0 (3#2)) ∧
  (Some 0 = None →
   clampMovement containsXZ 64 (heapOf rect) (navOf rect) scratch0 (Some 0)
     (ptQ (1#2) (1#2)) (ptQ (1#2) (3#2)) (pt 7 7) = Err NoCurrentRegion) ∧
  ∀ r pos sc',
    clampMovement containsXZ 64 (heapOf rect) (navOf rect) scratch0 (Some 0)
      (ptQ (1#2) (1#2)) (ptQ (1#2) (3#2)) (pt 7 7) = Ok (r, pos, sc') →
    r = Some 0 ∧ Some 0 ≠ None ∧
    ∃ closestEdge e t sc1 ev en env,
      closestEdgeOf 64 (heapOf rect) (Some 0) (ptQ (1#2) (1#2)) = Ok closestEdge ∧
      chooseSegment (heapOf rect) scratch0 (ptQ (1#2) (1#2)) closestEdge
        = Ok (Some (e, t), sc1) ∧
      rd twin (heapOf rect) e = Ok None ∧
      (e = closestEdge ∨ rd prev (heapOf rect) closestEdge = Ok e) ∧
      rd vertex (heapOf rect) e = Ok ev ∧ rd next (heapOf rect) e = Ok en ∧
      rd vertex (heapOf rect) en = Ok env ∧
      let np := slideTo ev env t (ptQ (1#2) (1#2)) (ptQ (1#2) (3#2)) in
      let t' := closestPointToPointParameter (ev, env) np in
      newPosition sc' = np ∧
      if num_le num_zero t' && num_le t' num_one then pos = np
      else ∃ r', getRegionForPoint containsXZ (heapOf rect) (navOf rect) np None = Ok r' ∧
                 pos = if decide (r' ≠ None) then np else ptQ (1#2) (1#2).
Proof.
  assert (H : getRegionForPoint containsXZ (heapOf rect) (navOf rect) (ptQ (1#2) (3#2)) None
              = Ok None) by (vm_compute; reflexivity).
  split; [exact H|]. split; [vm_compute; reflexivity|].
  exact (clampMovement_off_mesh containsXZ 64 _ _ scratch0 (Some 0) (ptQ (1#2) (1#2))
           (ptQ (1#2) (3#2)) (pt 7 7) H).
Defined.

Lemma getClosestNodeIndexInRegion_source_witness :
  getClosestNodeIndexInRegion 64 (heapOf crn) (ptQ (1#2) (1#2)) (Some 0) None
    = Ok (Some 0%Z) ∧
  (Some 0%Z = None ∨
   ∃ e, boundary (heapOf crn) 0 e ∧ indexAt (heapOf crn) e (Some 0%Z)).
Proof.
  assert (H : getClosestNodeIndexInRegion 64 (heapOf crn) (ptQ (1#2) (1#2)) (Some 0) None
              = Ok (Some 0%Z)) by (vm_compute; reflexivity).
  split; [exact H|].
  exact (getClosestNodeIndexInRegion_source 64 _ _ 0 None _ H).
Defined.

End MeshExamples.
